(** * lazy-di: the service module of [src/serviceModule.ts]

    A shallow embedding of the dependency-injection container: module
    assembly ([from]), the graph validator ([checkCircularDependencies],
    [checkMissingDependencies]), the asynchronous resolver ([get],
    [getOrNull]) and disposal ([dispose]). *)

From Stdlib Require Import String Ascii.
From stdpp Require Import base option list gmap sets strings.

Local Open Scope string_scope.
Local Open Scope list_scope.

(** ** Data model *)

(** A JavaScript [Symbol]: an identity token, compared by identity. *)
Abbreviation symbol := positive.

(** Modelled from the spec: [ServiceKey] and [ServiceSelectorKey] of
    serviceKey.ts (the file is not under src/): a key is an identity token
    with a diagnostic label; a selector key is a key that also carries the
    ordered sequence of its member keys. *)
Inductive ServiceKey : Type :=
| Key (symbol_ : symbol) (name_ : string)
| SelectorKey (symbol_ : symbol) (name_ : string) (values_ : list ServiceKey).

Definition symbol_of (key : ServiceKey) : symbol :=
  match key with Key s _ | SelectorKey s _ _ => s end.

Definition name (key : ServiceKey) : string :=
  match key with Key _ n | SelectorKey _ n _ => n end.

(** [key instanceof ServiceSelectorKey ? Some key.values : None]. *)
Definition values (key : ServiceKey) : option (list ServiceKey) :=
  match key with Key _ _ => None | SelectorKey _ _ vs => Some vs end.

(** Modelled from the spec: [ServiceScope] of serviceScope.ts: an opaque
    identity tag. *)
Inductive ServiceScope : Type := Scope (ref : positive).

#[global] Instance ServiceScope_eq_dec : EqDecision ServiceScope.
Proof. solve_decision. Defined.

(** A reference to a [ServiceModule] object. *)
Abbreviation module_ref := nat.

(** Modelled from the spec: [ServiceSelector] of serviceSelector.ts: the
    handle built by [new ServiceSelector(module, selectorKey)]. *)
Record ServiceSelector : Type := {
  selector_module : module_ref;
  selector_key : ServiceKey;
}.

Section Types.
(** The state of the application around the container, the values that
    factories produce and the values that user code throws. *)
Context {W Value Exn : Type}.

(** Modelled from the spec: the error classes of errors.ts. *)
Inductive Error : Type :=
| ServiceFactoryNotFoundError (message : string)
| ServiceModuleInitError (message : string)
| Thrown (e : Exn).

(** A settled promise. *)
Inductive Outcome : Type :=
| Fulfilled (v : Value)
| Rejected (e : Error).

(** What a dependency entry resolves to: the value of a plain key, or a
    selector handle for a selector key. *)
Inductive Resolved : Type :=
| RValue (v : Value)
| RSelector (s : ServiceSelector).

(** The body of a user-supplied asynchronous constructor: it returns,
    throws, acts on the application state, or awaits a member of a
    selector it was given. *)
Inductive Prog : Type :=
| Return (v : Value)
| Raise (e : Error)
| Update (action : W → W) (k : W → Prog)
| AwaitGet (s : ServiceSelector) (memberKey : ServiceKey) (k : Outcome → Prog).

Inductive Lifecycle : Type := oneShot | singleton.

(** Modelled from the spec: the configuration object accepted by
    [ServiceFactory.oneShot] and [ServiceFactory.singleton]
    (serviceFactory.ts is not under src/). [construct] is the
    configuration's [initialize]; a disposer returns the new application
    state and the error it threw, if any. *)
Record ServiceFactory : Type := {
  provides : ServiceKey;
  dependsOn : list ServiceKey;
  scope : option ServiceScope;
  lifecycle : Lifecycle;
  construct : list Resolved → Prog;
  dispose : option (W → W * option Error);
}.

Record ServiceModule : Type := { factories : list ServiceFactory }.

(** The outcome of synchronous code: a value, a thrown error, or the
    recursion bound of the embedding exhausted. *)
Inductive Result (A : Type) : Type :=
| Ok (a : A)
| Throw (e : Error)
| OutOfFuel.
#[global] Arguments Ok {A} a.
#[global] Arguments Throw {A} e.
#[global] Arguments OutOfFuel {A}.

(** A [for ... of] loop (or [forEach]) over [xs] whose body updates the
    loop state and may throw. *)
Fixpoint forOf {A S : Type} (xs : list A) (body : A → S → Result S) (s : S)
  : Result S :=
  match xs with
  | [] => Ok s
  | x :: xs' =>
      match body x s with
      | Ok s' => forOf xs' body s'
      | Throw e => Throw e
      | OutOfFuel => OutOfFuel
      end
  end.

(** ** Helpers of serviceModule.ts *)

Definition LF : string := String "010"%char EmptyString.

(** [Array.prototype.join]. *)
Definition join (sep : string) (parts : list string) : string :=
  String.concat sep parts.

Definition isRegistered (key : ServiceKey) (factories : list ServiceFactory)
  : bool :=
  existsb (fun factory => bool_decide (symbol_of (provides factory) = symbol_of key))
          factories.

Definition isSuitable (key : ServiceKey) (factory : ServiceFactory) : bool :=
  bool_decide (symbol_of (provides factory) = symbol_of key).

(** ** Missing-dependency check *)

Definition missingDependencies (factory : ServiceFactory)
    (factories : list ServiceFactory) : list ServiceKey :=
  flat_map
    (fun dependencyKey =>
       match values dependencyKey with
       | Some vs => filter (fun key => isRegistered key factories = false) vs
       | None =>
           if isRegistered dependencyKey factories then [] else [dependencyKey]
       end)
    (dependsOn factory).

Definition checkMissingDependencies (factory : ServiceFactory)
    (factories : list ServiceFactory) : Result unit :=
  let missing := missingDependencies factory factories in
  if bool_decide (length missing = 0) then Ok tt
  else
    let dependencyList :=
      join LF (map (fun dependencyKey => " -> " +:+ name dependencyKey) missing) in
    Throw (ServiceModuleInitError
             (name (provides factory)
              +:+ " will fail because it depends on:" +:+ LF +:+ " "
              +:+ dependencyList)).

(** ** Cycle check *)

(** The two mutable sets shared by every call of [walk]. *)
Record WalkState : Type := {
  visited : gset symbol;
  stack : gset symbol;
}.

Definition keysToCheck (depKey : ServiceKey) : list ServiceKey :=
  match values depKey with Some vs => vs | None => [depKey] end.

Definition buildFactoryMap (factories : list ServiceFactory)
  : gmap symbol ServiceFactory :=
  foldl (fun factoryMap f => <[symbol_of (provides f) := f]> factoryMap)
        ∅ factories.

Definition cycleMessage (names : list string) : string :=
  "Circular dependency detected: " +:+ join " -> " names.

Fixpoint walk (fuel : nat) (factoryMap : gmap symbol ServiceFactory)
    (factory : ServiceFactory) (path : list string) (st : WalkState)
  : Result WalkState :=
  match fuel with
  | 0 => OutOfFuel
  | S fuel' =>
      let sym := symbol_of (provides factory) in
      if decide (sym ∈ stack st) then
        Throw (ServiceModuleInitError
                 (cycleMessage (path ++ [name (provides factory)])))
      else if decide (sym ∈ visited st) then Ok st
      else
        match
          forOf (dependsOn factory)
            (fun depKey =>
               forOf (keysToCheck depKey)
                 (fun key st' =>
                    match factoryMap !! symbol_of key with
                    | Some depFactory =>
                        walk fuel' factoryMap depFactory
                             (path ++ [name (provides factory)]) st'
                    | None => Ok st'
                    end))
            {| visited := {[sym]} ∪ visited st; stack := {[sym]} ∪ stack st |}
        with
        | Ok st' => Ok {| visited := visited st'; stack := stack st' ∖ {[sym]} |}
        | Throw e => Throw e
        | OutOfFuel => OutOfFuel
        end
  end.

(** Every call of [walk] marks a fresh symbol of the map or returns at
    once, so one more than the number of factories bounds the depth. *)
Definition checkCircularDependencies (factories : list ServiceFactory)
  : Result unit :=
  let factoryMap := buildFactoryMap factories in
  match
    forOf factories
      (fun factory st => walk (S (length factories)) factoryMap factory [] st)
      {| visited := ∅; stack := ∅ |}
  with
  | Ok _ => Ok tt
  | Throw e => Throw e
  | OutOfFuel => OutOfFuel
  end.

End Types.

Arguments Error : clear implicits.
Arguments Outcome : clear implicits.
Arguments Resolved : clear implicits.
Arguments Prog : clear implicits.
Arguments ServiceFactory : clear implicits.
Arguments ServiceModule : clear implicits.
Arguments Result : clear implicits.

(** ** Promises

    The event loop runs one job at a time, so the code between two [await]s
    is atomic. Every promise made by an [async] function has one producer,
    the suspended call itself: a promise is modelled by the state of its
    producer, and it is settled when the producer finishes. *)

Abbreviation pid := nat.

Section Tasks.
Context {W Value Exn : Type}.

(** An element of the array given to [Promise.all] in [get]. *)
Inductive Awaited : Type :=
| ASelector (s : ServiceSelector)
| APromise (p : pid).

Inductive Task : Type :=
| Settled (o : Outcome Value Exn)
(** the producer is running right now *)
| Pending
(** [get] suspended at [await Promise.all(...)] *)
| GetAwait (this : module_ref) (factory : ServiceFactory W Value Exn)
           (dependencies : list Awaited)
(** [get] after [return factory.initialize(...)]: the promise follows the
    one that [initialize] returned *)
| Adopt (source : pid)
(** a constructor suspended at [await selector.get(memberKey)] *)
| Running (k : Outcome Value Exn → Prog W Value Exn) (awaited : pid)
(** [getOrNull] suspended at [await this.get(key)] *)
| OrNullAwait (source : pid).

(** What the container did, in order. *)
Inductive Event : Type :=
(** [this.get(key)] was called and returned the promise [result] *)
| EvGet (this : module_ref) (sym : symbol) (result : pid)
(** the call [caller] ran the constructor of the factory for [sym]; the
    constructor's promise is [made] *)
| EvConstruct (this : module_ref) (sym : symbol) (caller made : pid)
(** [dispose] ran the disposer of the factory for [sym] *)
| EvDispose (this : module_ref) (sym : symbol).

Record Config : Type := {
  world : W;
  tasks : list Task;
  (** Modelled from the spec: the cache of singleton outcomes, keyed by
      module and factory identity (serviceFactory.ts is not under src/) *)
  cache : gmap (module_ref * symbol) pid;
  trace : list Event;
  (** the promises settled so far, first settled first *)
  settlements : list pid;
}.

Definition initial (w : W) : Config :=
  {| world := w; tasks := []; cache := ∅; trace := []; settlements := [] |}.

Definition setWorld (w : W) (σ : Config) : Config :=
  {| world := w; tasks := tasks σ; cache := cache σ; trace := trace σ;
     settlements := settlements σ |}.

Definition setTask (p : pid) (t : Task) (σ : Config) : Config :=
  {| world := world σ; tasks := <[p := t]> (tasks σ); cache := cache σ;
     trace := trace σ; settlements := settlements σ |}.

Definition setCache (k : module_ref * symbol) (q : pid) (σ : Config) : Config :=
  {| world := world σ; tasks := tasks σ; cache := <[k := q]> (cache σ);
     trace := trace σ; settlements := settlements σ |}.

Definition log (ev : Event) (σ : Config) : Config :=
  {| world := world σ; tasks := tasks σ; cache := cache σ;
     trace := trace σ ++ [ev]; settlements := settlements σ |}.

Definition newTask (t : Task) (σ : Config) : pid * Config :=
  (length (tasks σ),
   {| world := world σ; tasks := tasks σ ++ [t]; cache := cache σ;
      trace := trace σ; settlements := settlements σ |}).

Definition settle (p : pid) (o : Outcome Value Exn) (σ : Config) : Config :=
  {| world := world σ; tasks := <[p := Settled o]> (tasks σ); cache := cache σ;
     trace := trace σ; settlements := settlements σ ++ [p] |}.

Definition outcomeOf (σ : Config) (p : pid) : option (Outcome Value Exn) :=
  match tasks σ !! p with Some (Settled o) => Some o | _ => None end.

Definition rejectionOf (σ : Config) (p : pid) : option (Error Exn) :=
  match outcomeOf σ p with Some (Rejected e) => Some e | _ => None end.

Definition promisesOf (dependencies : list Awaited) : list pid :=
  omap (fun a => match a with APromise p => Some p | ASelector _ => None end)
       dependencies.

(** [Promise.all] rejects with the reason of the first of its promises to
    reject. *)
Definition firstRejected (dependencies : list Awaited) (σ : Config)
  : option (Error Exn) :=
  match
    filter (fun p => p ∈ promisesOf dependencies ∧ is_Some (rejectionOf σ p))
           (settlements σ)
  with
  | p :: _ => rejectionOf σ p
  | [] => None
  end.

(** [Promise.all] fulfils, with the values in the order of the array, when
    every promise in it has fulfilled; other elements pass through. *)
Definition allFulfilled (dependencies : list Awaited) (σ : Config)
  : option (list (Resolved Value)) :=
  mapM (fun a => match a with
                 | ASelector s => Some (RSelector s)
                 | APromise p =>
                     match outcomeOf σ p with
                     | Some (Fulfilled v) => Some (RValue v)
                     | _ => None
                     end
                 end) dependencies.
End Tasks.

Arguments Task : clear implicits.
Arguments Config : clear implicits.

(** ** The class [ServiceModule] *)

Module ServiceModule.
Section Methods.
Context {W Value Exn : Type}.

Abbreviation Factory := (ServiceFactory W Value Exn).
Abbreviation Module_ := (ServiceModule W Value Exn).
Abbreviation State := (Config W Value Exn).

(** *** Construction *)

(** The private constructor. *)
Definition new (factories : list Factory) : Result Exn Module_ :=
  match checkCircularDependencies factories with
  | Ok _ =>
      match
        forOf factories
          (fun factory (_ : unit) => checkMissingDependencies factory factories) tt
      with
      | Ok _ => Ok {| factories := factories |}
      | Throw e => Throw e
      | OutOfFuel => OutOfFuel
      end
  | Throw e => Throw e
  | OutOfFuel => OutOfFuel
  end.

(** A JavaScript [Map] keeps its keys in the order of their first
    insertion; setting a key that is present replaces its value in
    place. *)
Fixpoint Map_set {V : Type} (m : list (symbol * V)) (k : symbol) (v : V)
  : list (symbol * V) :=
  match m with
  | [] => [(k, v)]
  | (k', v') :: m' =>
      if decide (k' = k) then (k, v) :: m' else (k', v') :: Map_set m' k v
  end.

Definition Map_values {V : Type} (m : list (symbol * V)) : list V := m.*2.

Inductive Entry : Type :=
| EntryModule (m : Module_)
| EntryFactory (f : Factory).

Definition flatten (entries : list Entry) : list Factory :=
  flat_map (fun e => match e with
                     | EntryModule m => factories m
                     | EntryFactory f => [f]
                     end) entries.

Definition lastWins (flattened : list Factory) : list Factory :=
  Map_values
    (foldl (fun byKey f => Map_set byKey (symbol_of (provides f)) f) [] flattened).

Definition from (entries : list Entry) : Result Exn Module_ :=
  new (lastWins (flatten entries)).

(** *** Resolution *)

(** The module objects of the program, by reference, and JavaScript's
    [null]. *)
Variable modules : module_ref → Module_.
Variable null : Value.

Definition notFound (key : ServiceKey) : Error Exn :=
  ServiceFactoryNotFoundError
    ("Could not find a suitable factory for " +:+ name key).

(** [xs.map(f)] where [f] acts on the state. *)
Fixpoint mapState {A B : Type} (f : A → State → option (B * State))
    (xs : list A) (σ : State) : option (list B * State) :=
  match xs with
  | [] => Some ([], σ)
  | x :: xs' =>
      '(y, σ1) ← f x σ;
      '(ys, σ2) ← mapState f xs' σ1;
      Some (y :: ys, σ2)
  end.

(** One element of [factory.dependsOn.map(...)] in [get]: a selector key
    becomes a selector bound to this module, with nothing resolved; any
    other key is resolved by [this.get], here [recur]. *)
Definition resolveDependency
    (recur : module_ref → ServiceKey → State → option (pid * State))
    (this : module_ref) (dependencyKey : ServiceKey) (σ : State)
  : option (Awaited * State) :=
  match values dependencyKey with
  | Some _ =>
      Some (ASelector {| selector_module := this;
                         selector_key := dependencyKey |}, σ)
  | None =>
      '(p, σ') ← recur this dependencyKey σ;
      Some (APromise p, σ')
  end.

(** [get] up to its [await]: it runs at the call, together with the same
    part of the calls it makes for its plain dependencies. A missing
    factory rejects the promise at once. [None]: the recursion bound of
    the embedding is exhausted. *)
Fixpoint get_ (fuel : nat) (this : module_ref) (key : ServiceKey) (σ : State)
  : option (pid * State) :=
  match find (isSuitable key) (factories (modules this)) with
  | None =>
      let '(result, σ1) := newTask Pending σ in
      Some (result, settle result (Rejected (notFound key))
                      (log (EvGet this (symbol_of key) result) σ1))
  | Some factory =>
      match fuel with
      | 0 => None
      | S fuel' =>
          '(dependencies, σ1) ←
            mapState (resolveDependency (get_ fuel') this) (dependsOn factory) σ;
          let '(result, σ2) := newTask (GetAwait this factory dependencies) σ1 in
          Some (result, log (EvGet this (symbol_of key) result) σ2)
      end
  end.

(** In a module that passed the cycle check a chain of plain dependencies
    has no more links than the module has factories. *)
Definition get (this : module_ref) (key : ServiceKey) (σ : State)
  : option (pid * State) :=
  get_ (S (length (factories (modules this)))) this key σ.

(** Modelled from the spec: [ServiceSelector.get] of serviceSelector.ts:
    it resolves exactly as [module.get(memberKey)] would. *)
Definition ServiceSelector_get (s : ServiceSelector) (memberKey : ServiceKey)
    (σ : State) : option (pid * State) :=
  get (selector_module s) memberKey σ.

(** The constructor's body runs, on behalf of the promise [p], up to its
    next [await]. *)
Fixpoint run (prog : Prog W Value Exn) (p : pid) (σ : State) : option State :=
  match prog with
  | Return v => Some (settle p (Fulfilled v) σ)
  | Raise e => Some (settle p (Rejected e) σ)
  | Update action k =>
      let w := action (world σ) in run (k w) p (setWorld w σ)
  | AwaitGet s memberKey k =>
      '(r, σ1) ← ServiceSelector_get s memberKey σ;
      Some (setTask p (Running k r) σ1)
  end.

(** The configuration's [initialize] is called: a new promise, and the
    body starts. *)
Definition invoke (this : module_ref) (factory : Factory) (caller : pid)
    (dependencies : list (Resolved Value)) (cached : bool) (σ : State)
  : option (pid * State) :=
  let '(made, σ1) := newTask Pending σ in
  let σ2 := log (EvConstruct this (symbol_of (provides factory)) caller made) σ1 in
  let σ3 := if cached
            then setCache (this, symbol_of (provides factory)) made σ2
            else σ2 in
  σ4 ← run (construct factory dependencies) made σ3;
  Some (made, σ4).

(** Modelled from the spec: [factory.initialize] of the objects built by
    [ServiceFactory.oneShot] and [ServiceFactory.singleton]
    (serviceFactory.ts is not under src/). A transient factory runs the
    constructor on every call. A singleton factory caches the pending
    outcome the instant the first caller begins, before the constructor
    runs, and every later caller receives that same promise. *)
Definition initialize (this : module_ref) (factory : Factory) (caller : pid)
    (dependencies : list (Resolved Value)) (σ : State) : option (pid * State) :=
  match lifecycle factory with
  | oneShot => invoke this factory caller dependencies false σ
  | singleton =>
      match cache σ !! (this, symbol_of (provides factory)) with
      | Some made => Some (made, σ)
      | None => invoke this factory caller dependencies true σ
      end
  end.

Definition getOrNull (this : module_ref) (key : ServiceKey) (σ : State)
  : option (pid * State) :=
  '(p, σ1) ← get this key σ;
  Some (newTask (OrNullAwait p) σ1).

(** The job that resumes the suspended producer of [p]; [None] when what
    it awaits has not settled (or [p] is not suspended). *)
Definition fire (p : pid) (σ : State) : option State :=
  match tasks σ !! p with
  | Some (GetAwait this factory dependencies) =>
      match firstRejected dependencies σ with
      | Some e => Some (settle p (Rejected e) σ)
      | None =>
          dependencies' ← allFulfilled dependencies σ;
          '(made, σ1) ← initialize this factory p dependencies'
                          (setTask p Pending σ);
          Some (setTask p (Adopt made) σ1)
      end
  | Some (Adopt source) =>
      o ← outcomeOf σ source; Some (settle p o σ)
  | Some (Running k awaited) =>
      o ← outcomeOf σ awaited; run (k o) p σ
  | Some (OrNullAwait source) =>
      o ← outcomeOf σ source;
      match o with
      | Rejected (ServiceFactoryNotFoundError _) =>
          Some (settle p (Fulfilled null) σ)
      | _ => Some (settle p o σ)
      end
  | _ => None
  end.

(** *** Disposal *)

Definition dispose (this : module_ref) (scope_ : option ServiceScope)
    (σ : State) : State * option (Error Exn) :=
  let selected :=
    match scope_ with
    | Some s => filter (fun f => scope f = Some s) (factories (modules this))
    | None => factories (modules this)
    end in
  (fix forEach (fs : list Factory) (σ : State) : State * option (Error Exn) :=
     match fs with
     | [] => (σ, None)
     | factory :: fs' =>
         match dispose factory with
         | None => forEach fs' σ
         | Some hook =>
             let '(w, thrown) := hook (world σ) in
             let σ1 := log (EvDispose this (symbol_of (provides factory)))
                           (setWorld w σ) in
             match thrown with
             | Some e => (σ1, Some e)
             | None => forEach fs' σ1
             end
         end
     end) selected σ.

(** *** The program around the module

    The application calls the module's methods, and the event loop runs
    the jobs of settled promises, in any order. *)
Inductive step : State → State → Prop :=
| step_get this key σ p σ' :
    get this key σ = Some (p, σ') → step σ σ'
| step_getOrNull this key σ p σ' :
    getOrNull this key σ = Some (p, σ') → step σ σ'
| step_dispose this scope_ σ σ' thrown :
    dispose this scope_ σ = (σ', thrown) → step σ σ'
| step_fire p σ σ' :
    fire p σ = Some σ' → step σ σ'.

Definition reachable (σ : State) : Prop := ∃ w, rtc step (initial w) σ.

(** The event loop drained: the lowest suspended producer that can resume
    does, until none can (or [n] jobs have run). *)
Fixpoint firstJob (ps : list pid) (σ : State) : option State :=
  match ps with
  | [] => None
  | p :: ps' => match fire p σ with Some σ' => Some σ' | None => firstJob ps' σ end
  end.

Definition next (σ : State) : option State :=
  firstJob (seq 0 (length (tasks σ))) σ.

Fixpoint drain (n : nat) (σ : State) : State :=
  match n with
  | 0 => σ
  | S n' => match next σ with Some σ' => drain n' σ' | None => σ end
  end.
End Methods.
End ServiceModule.

(** * Properties *)

Local Close Scope string_scope.

(** ** Loops *)

Section Loops.
Context {Exn A S : Type}.
Implicit Types (body : A → S → Result Exn S).

(** Two nested loops run as one loop over the concatenated inner ranges. *)
Lemma forOf_flat {B : Type} (inner : A → list B) (body : B → S → Result Exn S)
    (xs : list A) (s : S) :
  forOf xs (fun x => forOf (inner x) body) s = forOf (flat_map inner xs) body s.
Proof.
  revert s. induction xs as [|x xs IH]; intros s; simpl; [done|].
  generalize (inner x) as ys. intros ys. revert s.
  induction ys as [|y ys IHy]; intros s; simpl; [apply IH|].
  destruct (body y s); auto.
Qed.

(** A loop invariant that may mention the part of the range done so far. *)
Lemma forOf_invariant (P : list A → S → Prop) (Q : Error Exn → Prop) (F : Prop)
    body (xs : list A) (s : S) :
  P [] s →
  (∀ done x rest s, xs = done ++ x :: rest → P done s →
     match body x s with
     | Ok s' => P (done ++ [x]) s'
     | Throw e => Q e
     | OutOfFuel => F
     end) →
  match forOf xs body s with
  | Ok s' => P xs s'
  | Throw e => Q e
  | OutOfFuel => F
  end.
Proof.
  intros H0 Hstep.
  enough (Hgen : ∀ rest done s, xs = done ++ rest → P done s →
            match forOf rest body s with
            | Ok s' => P xs s'
            | Throw e => Q e
            | OutOfFuel => F
            end) by exact (Hgen xs [] s eq_refl H0).
  induction rest as [|x rest IH]; intros done s' Hxs HP; simpl.
  - by rewrite Hxs, app_nil_r.
  - specialize (Hstep done x rest s' Hxs HP).
    destruct (body x s') as [s''| |]; try done.
    apply (IH (done ++ [x]) s''); [|done]. by rewrite <- app_assoc.
Qed.
End Loops.

(** ** The dependency graph of a list of factories *)

Section Graph.
Context {W Value Exn : Type}.
Abbreviation Factory := (ServiceFactory W Value Exn).
Implicit Types (f g : Factory) (fs : list Factory) (s t : symbol)
  (fm : gmap symbol Factory) (st : WalkState) (key : ServiceKey).

(** The keys a factory depends on, a selector key standing for its
    members. *)
Definition expandedDeps f : list ServiceKey :=
  flat_map keysToCheck (dependsOn f).

Definition provided fs s : Prop :=
  ∃ g, g ∈ fs ∧ symbol_of (provides g) = s.

(** An edge of the graph: a factory for [s] depends on the key [t], which
    some factory provides. *)
Definition dependsDirectly fs s t : Prop :=
  ∃ f key, f ∈ fs ∧ symbol_of (provides f) = s ∧ key ∈ expandedDeps f
           ∧ symbol_of key = t ∧ provided fs t.

Definition hasCycle fs : Prop := ∃ s, tc (dependsDirectly fs) s s.

Definition satisfiable fs : Prop :=
  ∀ f key, f ∈ fs → key ∈ expandedDeps f → provided fs (symbol_of key).

(** No two factories of the list provide the same key. *)
Definition distinctKeys fs : Prop :=
  NoDup ((fun f => symbol_of (provides f)) <$> fs).

Lemma isRegistered_provided key fs :
  isRegistered key fs = true ↔ provided fs (symbol_of key).
Proof.
  unfold isRegistered, provided. rewrite existsb_exists.
  split; intros (g & Hg & Heq); exists g.
  - apply list_elem_of_In in Hg. by apply bool_decide_eq_true in Heq.
  - apply list_elem_of_In in Hg. by rewrite bool_decide_eq_true.
Qed.

(** *** The factory map *)

Lemma buildFactoryMap_snoc fs f :
  buildFactoryMap (fs ++ [f])
  = <[symbol_of (provides f) := f]> (buildFactoryMap fs).
Proof. unfold buildFactoryMap. by rewrite foldl_app. Qed.

Lemma buildFactoryMap_Some fs s g :
  buildFactoryMap fs !! s = Some g → g ∈ fs ∧ symbol_of (provides g) = s.
Proof.
  induction fs as [|f fs IH] using rev_ind.
  - unfold buildFactoryMap. simpl. by rewrite lookup_empty.
  - rewrite buildFactoryMap_snoc, lookup_insert. case_decide as Hs.
    + intros [= <-]. split; [set_solver|done].
    + intros H. destruct (IH H). split; [set_solver|done].
Qed.

Lemma buildFactoryMap_provided fs s :
  provided fs s ↔ is_Some (buildFactoryMap fs !! s).
Proof.
  split.
  - intros (g & Hg & <-). induction fs as [|f fs IH] using rev_ind.
    + by apply elem_of_nil in Hg.
    + rewrite buildFactoryMap_snoc, lookup_insert. case_decide as Hne; [by eexists|].
      apply IH. apply elem_of_app in Hg as [Hg|Hg]; [done|].
      apply list_elem_of_singleton in Hg. by subst.
  - intros [g Hg]. exists g. by apply buildFactoryMap_Some.
Qed.

Lemma buildFactoryMap_distinct fs f :
  distinctKeys fs → f ∈ fs →
  buildFactoryMap fs !! symbol_of (provides f) = Some f.
Proof.
  unfold distinctKeys. induction fs as [|g fs IH] using rev_ind.
  - intros _ Hf. by apply elem_of_nil in Hf.
  - rewrite fmap_app, buildFactoryMap_snoc. simpl.
    intros Hnd Hf. apply NoDup_app in Hnd as (Hnd & Hfresh & _).
    apply elem_of_app in Hf as [Hf|Hf].
    + rewrite lookup_insert_ne; [by apply IH|].
      intros Heq. apply (Hfresh (symbol_of (provides f))).
      * apply list_elem_of_fmap. by exists f.
      * rewrite <- Heq. set_solver.
    + apply list_elem_of_singleton in Hf. subst. apply lookup_insert_eq.
Qed.

Lemma buildFactoryMap_size fs : size (dom (buildFactoryMap fs)) ≤ length fs.
Proof.
  induction fs as [|f fs IH] using rev_ind.
  - unfold buildFactoryMap. simpl. by rewrite dom_empty_L, size_empty.
  - rewrite buildFactoryMap_snoc, dom_insert_L, length_app, size_union_alt.
    rewrite size_singleton. simpl.
    assert (Hle : size (dom (buildFactoryMap fs) ∖ {[symbol_of (provides f)]})
                  ≤ size (dom (buildFactoryMap fs)))
      by (apply subseteq_size; set_solver).
    lia.
Qed.

(** *** One call of [walk] *)

Definition visitKey (fuel : nat) fm f (path : list string) key st
  : Result Exn WalkState :=
  match fm !! symbol_of key with
  | Some depFactory => walk fuel fm depFactory (path ++ [name (provides f)]) st
  | None => Ok st
  end.

Lemma walk_unfold fuel fm f path st :
  walk (S fuel) fm f path st
  = let sym := symbol_of (provides f) in
    if decide (sym ∈ stack st) then
      Throw (ServiceModuleInitError (cycleMessage (path ++ [name (provides f)])))
    else if decide (sym ∈ visited st) then Ok st
    else
      match
        forOf (expandedDeps f) (visitKey fuel fm f path)
          {| visited := {[sym]} ∪ visited st; stack := {[sym]} ∪ stack st |}
      with
      | Ok st' => Ok {| visited := visited st'; stack := stack st' ∖ {[sym]} |}
      | Throw e => Throw e
      | OutOfFuel => OutOfFuel
      end.
Proof. simpl. by rewrite forOf_flat. Qed.

(** A call that returns leaves the stack as it found it, only adds to
    [visited], and has visited its factory, which was not on the stack. *)
Lemma walk_Ok fuel fm f path st st' :
  walk fuel fm f path st = Ok st' →
  stack st' = stack st ∧ visited st ⊆ visited st'
  ∧ symbol_of (provides f) ∈ visited st'
  ∧ symbol_of (provides f) ∉ stack st.
Proof.
  revert f path st st'. induction fuel as [|fuel IH]; intros f path st st'; [done|].
  rewrite walk_unfold. cbv zeta.
  destruct (decide (_ ∈ stack st)) as [|Hstack]; [done|].
  destruct (decide (_ ∈ visited st)) as [|Hvisited]; [by intros [= <-]|].
  set (sym := symbol_of (provides f)) in *.
  pose proof (forOf_invariant
    (fun _ st1 => stack st1 = {[sym]} ∪ stack st
                 ∧ {[sym]} ∪ visited st ⊆ visited st1)
    (fun _ => True) True (visitKey fuel fm f path) (expandedDeps f)
    {| visited := {[sym]} ∪ visited st; stack := {[sym]} ∪ stack st |}) as Hloop.
  destruct (forOf _ _ _) as [st''| |]; try done.
  intros [= <-]. simpl. destruct Hloop as [Hs Hv]; [done| |].
  - intros _ key _ st1 _ [Hs Hv]. unfold visitKey.
    destruct (fm !! symbol_of key) as [g|]; [|done].
    destruct (walk fuel fm g _ st1) as [st2| |] eqn:Hw; try done.
    apply IH in Hw as (Hs' & Hv' & _). split; [congruence|set_solver].
  - rewrite Hs. set_solver.
Qed.

(** The symbols of the map not yet visited bound the depth of the calls. *)
Lemma walk_fuel fuel fm f path st :
  symbol_of (provides f) ∈ dom fm →
  (∀ s g, fm !! s = Some g → symbol_of (provides g) = s) →
  size (dom fm ∖ visited st) < fuel →
  walk fuel fm f path st ≠ OutOfFuel.
Proof.
  intros Hdom Hfm. revert f path st Hdom.
  induction fuel as [|fuel IH]; intros f path st Hdom Hsize; [lia|].
  rewrite walk_unfold. cbv zeta.
  destruct (decide (_ ∈ stack st)) as [|Hstack]; [done|].
  destruct (decide (_ ∈ visited st)) as [|Hvisited]; [done|].
  set (sym := symbol_of (provides f)) in *.
  pose proof (forOf_invariant
    (fun _ st1 => {[sym]} ∪ visited st ⊆ visited st1)
    (fun _ => True) False (visitKey fuel fm f path) (expandedDeps f)
    {| visited := {[sym]} ∪ visited st; stack := {[sym]} ∪ stack st |}) as Hloop.
  destruct (forOf _ _ _) as [st''| |]; try done.
  intros _. apply Hloop; [done|]. clear Hloop.
  intros _ key _ st1 _ Hv. unfold visitKey.
  destruct (fm !! symbol_of key) as [g|] eqn:Hg; [|done].
  destruct (walk fuel fm g _ st1) as [st2| |] eqn:Hw; try done.
  - apply walk_Ok in Hw as (_ & Hv' & _). set_solver.
  - revert Hw. apply IH.
    + apply elem_of_dom. rewrite (Hfm _ _ Hg). by eexists.
    + assert (size (dom fm ∖ visited st1) < size (dom fm ∖ visited st)); [|lia].
      apply subset_size. set_solver.
Qed.

(** *** What a thrown error reports *)

(** [g] is the factory the map holds for one of the keys [f] depends on. *)
Definition link fm f g : Prop :=
  ∃ key, key ∈ expandedDeps f ∧ fm !! symbol_of key = Some g.

Fixpoint linked fm (trail : list Factory) : Prop :=
  match trail with
  | f :: (g :: _) as rest => link fm f g ∧ linked fm rest
  | _ => True
  end.

Definition keyNames (trail : list Factory) : list string :=
  (fun f => name (provides f)) <$> trail.

Definition keySymbols (trail : list Factory) : list symbol :=
  (fun f => symbol_of (provides f)) <$> trail.

(** The last key of the trail is on the stack or occurs earlier in the
    trail. *)
Definition closes (onStack : gset symbol) (trail : list Factory) : Prop :=
  ∃ earlier final, trail = earlier ++ [final]
    ∧ (symbol_of (provides final) ∈ onStack
       ∨ symbol_of (provides final) ∈ keySymbols earlier).

Lemma walk_Throw fuel fm f path st e :
  walk fuel fm f path st = Throw e →
  ∃ trail,
    e = ServiceModuleInitError (cycleMessage (path ++ keyNames (f :: trail)))
    ∧ linked fm (f :: trail) ∧ closes (stack st) (f :: trail).
Proof.
  revert f path st e. induction fuel as [|fuel IH]; intros f path st e; [done|].
  rewrite walk_unfold. cbv zeta.
  destruct (decide (_ ∈ stack st)) as [Hstack|Hstack].
  { intros [= <-]. exists []. split_and!; [done..|].
    exists [], f. split; [done|by left]. }
  destruct (decide (_ ∈ visited st)) as [|Hvisited]; [done|].
  set (sym := symbol_of (provides f)) in *.
  pose proof (forOf_invariant
    (fun _ st1 => stack st1 = {[sym]} ∪ stack st)
    (fun e => ∃ trail,
       e = ServiceModuleInitError (cycleMessage (path ++ keyNames (f :: trail)))
       ∧ linked fm (f :: trail) ∧ closes (stack st) (f :: trail))
    True (visitKey fuel fm f path) (expandedDeps f)
    {| visited := {[sym]} ∪ visited st; stack := {[sym]} ∪ stack st |}) as Hloop.
  destruct (forOf _ _ _) as [st''|e'|]; try done.
  intros [= <-]. apply Hloop; [done|]. clear Hloop.
  intros done key rest st1 Hrange Hs. unfold visitKey.
  destruct (fm !! symbol_of key) as [g|] eqn:Hg; [|done].
  destruct (walk fuel fm g _ st1) as [st2|e2|] eqn:Hw; try done.
  - apply walk_Ok in Hw as (Hs' & _). congruence.
  - apply IH in Hw as (trail & -> & Hlinked & earlier & final & Htrail & Hfinal).
    exists (g :: trail). split_and!.
    + by rewrite <- app_assoc.
    + split; [|done]. exists key. split; [|done]. rewrite Hrange. set_solver.
    + exists (f :: earlier), final. split; [by rewrite Htrail|].
      rewrite Hs in Hfinal. unfold keySymbols in *. set_solver.
Qed.

(** *** What a completed walk establishes *)

(** Every factory of [fin] depends, among the keys of the map, only on
    keys of [fin] of lower rank; the ranks are at most [bound], which is
    at most the number of symbols in [fin]. *)
Definition ranked fm (fin : gset symbol) (rank : symbol → nat) (bound : nat)
  : Prop :=
  fin ⊆ dom fm ∧ bound ≤ size fin ∧
  (∀ s, s ∈ fin → rank s ≤ bound) ∧
  ∀ s f key g, s ∈ fin → fm !! s = Some f → key ∈ expandedDeps f →
               fm !! symbol_of key = Some g →
               symbol_of key ∈ fin ∧ rank (symbol_of key) < rank s.

Definition finished st : gset symbol := visited st ∖ stack st.

Lemma walk_ranked fuel fm f path st st' :
  (∀ s g, fm !! s = Some g → symbol_of (provides g) = s) →
  fm !! symbol_of (provides f) = Some f →
  (∃ rank bound, ranked fm (finished st) rank bound) →
  walk fuel fm f path st = Ok st' →
  ∃ rank bound, ranked fm (finished st') rank bound.
Proof.
  intros Hfm. revert f path st st'.
  induction fuel as [|fuel IH]; intros f path st st' Hf Hr; [done|].
  rewrite walk_unfold. cbv zeta.
  destruct (decide (_ ∈ stack st)) as [|Hstack]; [done|].
  destruct (decide (_ ∈ visited st)) as [|Hvisited]; [by intros [= <-]|].
  set (sym := symbol_of (provides f)) in *.
  pose proof (forOf_invariant
    (fun done st1 =>
       (∃ rank bound, ranked fm (finished st1) rank bound)
       ∧ stack st1 = {[sym]} ∪ stack st
       ∧ {[sym]} ∪ visited st ⊆ visited st1
       ∧ ∀ key g, key ∈ done → fm !! symbol_of key = Some g →
                  symbol_of key ∈ finished st1)
    (fun _ => True) True (visitKey fuel fm f path) (expandedDeps f)
    {| visited := {[sym]} ∪ visited st; stack := {[sym]} ∪ stack st |}) as Hloop.
  destruct (forOf _ _ _) as [st''| |]; try done.
  intros [= <-].
  destruct Hloop as ((rank & bound & Hdom & Hsize & Hbound & Hrank) & Hs & Hv & Hdone).
  - split_and!; [|done|done|set_solver].
    replace (finished _) with (finished st); [done|].
    unfold finished. simpl. set_solver.
  - intros done key rest st1 _ (Hr1 & Hs & Hv & Hdone). unfold visitKey.
    destruct (fm !! symbol_of key) as [g|] eqn:Hg.
    + destruct (walk fuel fm g _ st1) as [st2| |] eqn:Hw; try done.
      assert (Hg' : fm !! symbol_of (provides g) = Some g)
        by by rewrite (Hfm _ _ Hg).
      pose proof (IH _ _ _ _ Hg' Hr1 Hw) as Hr2.
      apply walk_Ok in Hw as (Hs2 & Hv2 & Hin & Hout).
      rewrite (Hfm _ _ Hg) in Hin, Hout.
      split_and!; [done|congruence|set_solver|].
      intros key' g' [Hk|Hk%list_elem_of_singleton]%elem_of_app Hg''.
      * specialize (Hdone _ _ Hk Hg''). unfold finished in *.
        rewrite Hs2. set_solver.
      * subst key'. unfold finished. rewrite Hs2. set_solver.
    + split_and!; [done..|].
      intros key' g' [Hk|Hk%list_elem_of_singleton]%elem_of_app Hg''; [by eauto|].
      subst key'. congruence.
  - assert (Hfin : finished {| visited := visited st'';
                               stack := stack st'' ∖ {[sym]} |}
                   = {[sym]} ∪ finished st'').
    { unfold finished. simpl. rewrite Hs. apply set_eq. intros x.
      destruct (decide (x = sym)); set_solver. }
    assert (Hnew : sym ∉ finished st'') by (unfold finished; set_solver).
    rewrite Hfin.
    exists (fun s => if decide (s = sym) then S bound else rank s), (S bound).
    split_and!.
    + apply union_subseteq. split; [|done].
      apply singleton_subseteq_l, elem_of_dom. by eexists.
    + rewrite size_union by set_solver. rewrite size_singleton. lia.
    + intros s Hin. case_decide; [lia|].
      assert (Hs' : s ∈ finished st'') by set_solver.
      specialize (Hbound s Hs'). lia.
    + intros s f' key g Hin Hf' Hkey Hg. destruct (decide (s = sym)) as [->|Hne].
      * assert (f' = f) as -> by congruence.
        pose proof (Hdone _ _ Hkey Hg) as Hk.
        rewrite decide_False by (intros Heq; by rewrite Heq in Hk).
        split; [set_solver|]. specialize (Hbound _ Hk). lia.
      * assert (Hs' : s ∈ finished st'') by set_solver.
        destruct (Hrank _ _ _ _ Hs' Hf' Hkey Hg) as [Hk Hlt].
        rewrite decide_False by (intros Heq; by rewrite Heq in Hk).
        split; [set_solver|done].
Qed.

(** *** The whole check *)

Lemma buildFactoryMap_key fs s g :
  buildFactoryMap fs !! s = Some g → symbol_of (provides g) = s.
Proof. intros H. by apply buildFactoryMap_Some in H as [_ H]. Qed.

Lemma checkCircularDependencies_total fs :
  checkCircularDependencies (Exn := Exn) fs ≠ OutOfFuel.
Proof.
  unfold checkCircularDependencies. cbv zeta.
  pose proof (forOf_invariant (Exn := Exn)
    (fun _ _ => True) (fun _ => True) False
    (fun f st => walk (S (length fs)) (buildFactoryMap fs) f [] st) fs
    {| visited := ∅; stack := ∅ |}) as Hloop.
  destruct (forOf _ _ _) as [st| |]; try done.
  intros _. apply Hloop; [done|]. clear Hloop.
  intros done f rest st Hrange _.
  destruct (walk _ _ f [] st) as [st'| |] eqn:Hw; try done.
  revert Hw. apply walk_fuel.
  - apply elem_of_dom, buildFactoryMap_provided. exists f.
    split; [|done]. rewrite Hrange. set_solver.
  - apply buildFactoryMap_key.
  - pose proof (buildFactoryMap_size fs).
    assert (size (dom (buildFactoryMap fs) ∖ visited st)
            ≤ size (dom (buildFactoryMap fs)))
      by (apply subseteq_size; set_solver).
    lia.
Qed.

Lemma checkCircularDependencies_Throw fs e :
  checkCircularDependencies fs = Throw e →
  ∃ f trail, f ∈ fs
    ∧ e = ServiceModuleInitError (cycleMessage (keyNames (f :: trail)))
    ∧ linked (buildFactoryMap fs) (f :: trail) ∧ closes ∅ (f :: trail).
Proof.
  unfold checkCircularDependencies. cbv zeta.
  pose proof (forOf_invariant
    (fun _ st => stack st = ∅)
    (fun e => ∃ f trail, f ∈ fs
       ∧ e = ServiceModuleInitError (cycleMessage (keyNames (f :: trail)))
       ∧ linked (buildFactoryMap fs) (f :: trail) ∧ closes ∅ (f :: trail))
    True
    (fun f st => walk (S (length fs)) (buildFactoryMap fs) f [] st) fs
    {| visited := ∅; stack := ∅ |}) as Hloop.
  destruct (forOf _ _ _) as [st|e'|]; try done.
  intros [= <-]. apply Hloop; [done|]. clear Hloop.
  intros done f rest st Hrange Hs.
  destruct (walk _ _ f [] st) as [st'|e2|] eqn:Hw; try done.
  - apply walk_Ok in Hw as (Hs' & _). congruence.
  - apply walk_Throw in Hw as (trail & -> & Hlinked & Hcloses).
    exists f, trail. rewrite Hs in Hcloses.
    split_and!; [rewrite Hrange; set_solver|done..].
Qed.

Lemma checkCircularDependencies_Ok fs :
  distinctKeys fs →
  checkCircularDependencies (Exn := Exn) fs = Ok tt →
  ∃ rank : symbol → nat,
    (∀ f, f ∈ fs → rank (symbol_of (provides f)) ≤ length fs)
    ∧ ∀ s t, dependsDirectly fs s t → rank t < rank s.
Proof.
  intros Hdistinct. unfold checkCircularDependencies. cbv zeta.
  set (fm := buildFactoryMap fs).
  pose proof (forOf_invariant (Exn := Exn)
    (fun done st =>
       (∃ rank bound, ranked fm (finished st) rank bound)
       ∧ stack st = ∅
       ∧ ∀ f, f ∈ done → symbol_of (provides f) ∈ visited st)
    (fun _ => True) True
    (fun f st => walk (S (length fs)) fm f [] st) fs
    {| visited := ∅; stack := ∅ |}) as Hloop.
  destruct (forOf _ _ _) as [st| |]; try done. intros _.
  destruct Hloop as ((rank & bound & Hdom & Hsize & Hbound & Hrank) & Hs & Hall).
  - split_and!; [|done|set_solver].
    exists (fun _ => 0), 0. unfold finished. simpl.
    split_and!; [set_solver|lia|set_solver..].
  - intros done f rest st1 Hrange (Hr & Hs & Hall).
    destruct (walk _ _ f [] st1) as [st'| |] eqn:Hw; try done.
    assert (Hf : fm !! symbol_of (provides f) = Some f).
    { apply buildFactoryMap_distinct; [done|]. rewrite Hrange. set_solver. }
    pose proof (walk_ranked _ _ _ _ _ _ (buildFactoryMap_key fs) Hf Hr Hw).
    apply walk_Ok in Hw as (Hs' & Hv & Hin & _).
    split_and!; [done|congruence|]. set_solver.
  - assert (Hfin : ∀ f, f ∈ fs → symbol_of (provides f) ∈ finished st).
    { intros f Hf. unfold finished. rewrite Hs. specialize (Hall f Hf).
      set_solver. }
    exists rank. split.
    + intros f Hf. specialize (Hbound _ (Hfin f Hf)).
      pose proof (buildFactoryMap_size fs).
      pose proof (subseteq_size _ _ Hdom). fold fm in H. lia.
    + intros s t (f & key & Hf & <- & Hkey & <- & Hprov).
      apply buildFactoryMap_provided in Hprov as [g Hg].
      refine (proj2 (Hrank _ f key g _ _ Hkey Hg)).
      * by apply Hfin.
      * by apply buildFactoryMap_distinct.
Qed.

(** *** Trails and cycles *)

Lemma link_dependsDirectly fs f g :
  f ∈ fs → link (buildFactoryMap fs) f g →
  g ∈ fs ∧ dependsDirectly fs (symbol_of (provides f)) (symbol_of (provides g)).
Proof.
  intros Hf (key & Hkey & Hg). apply buildFactoryMap_Some in Hg as [Hg Hsym].
  split; [done|]. exists f, key. split_and!; [done..|]. by exists g.
Qed.

Lemma linked_tc fs trail f final :
  f ∈ fs → linked (buildFactoryMap fs) (f :: trail ++ [final]) →
  tc (dependsDirectly fs) (symbol_of (provides f)) (symbol_of (provides final)).
Proof.
  revert f. induction trail as [|g trail IH]; intros f Hf; simpl.
  - intros [Hl _]. apply tc_once. by apply link_dependsDirectly.
  - intros [Hl Hrest]. apply link_dependsDirectly in Hl as [Hg Hd]; [|done].
    eapply tc_l; [exact Hd|]. by apply IH.
Qed.

Lemma linked_elems fs f trail :
  f ∈ fs → linked (buildFactoryMap fs) (f :: trail) →
  ∀ g, g ∈ f :: trail → g ∈ fs.
Proof.
  revert f. induction trail as [|h trail IH]; intros f Hf Hl g Hg.
  - apply list_elem_of_singleton in Hg. by subst.
  - apply elem_of_cons in Hg as [->|Hg]; [done|].
    destruct Hl as [Hl Hrest].
    apply link_dependsDirectly in Hl as [Hh _]; [|done]. by eapply IH.
Qed.

Lemma linked_app_r fm (before rest : list Factory) :
  linked fm (before ++ rest) → linked fm rest.
Proof.
  induction before as [|x before IH]; [done|]. simpl.
  destruct (before ++ rest) as [|y l] eqn:Heq.
  - apply app_eq_nil in Heq as [_ ->]. done.
  - intros [_ Hl]. by apply IH.
Qed.

(** A trail that closes goes round a cycle of the graph. *)
Lemma closes_hasCycle fs f trail :
  f ∈ fs → linked (buildFactoryMap fs) (f :: trail) → closes ∅ (f :: trail) →
  hasCycle fs.
Proof.
  intros Hf Hlinked (earlier & final & Htrail & [Hempty|Hrepeat]); [set_solver|].
  apply list_elem_of_fmap in Hrepeat as (h & Hsym & Hh).
  apply list_elem_of_split in Hh as (before & after & ->).
  rewrite <- app_assoc in Htrail. simpl in Htrail.
  rewrite Htrail in Hlinked.
  pose proof (linked_app_r _ _ _ Hlinked) as Hsub.
  rewrite <- Htrail in Hlinked.
  pose proof (linked_elems fs f trail Hf Hlinked) as Hin.
  exists (symbol_of (provides h)).
  assert (Htc : tc (dependsDirectly fs) (symbol_of (provides h))
                   (symbol_of (provides final))).
  { apply (linked_tc fs after); [|exact Hsub].
    apply Hin. rewrite Htrail. set_solver. }
  by rewrite Hsym in Htc.
Qed.

Lemma rank_tc fs (rank : symbol → nat) s t :
  (∀ s t, dependsDirectly fs s t → rank t < rank s) →
  tc (dependsDirectly fs) s t → rank t < rank s.
Proof.
  intros Hrank. induction 1 as [s t H|s t u H _ IH].
  - by apply Hrank.
  - apply Hrank in H. lia.
Qed.

(** The cycle check: it always finishes, it passes an acyclic list, and
    it rejects a list of factories with distinct keys that has a cycle. *)
Lemma checkCircularDependencies_acyclic fs :
  ¬ hasCycle fs → checkCircularDependencies (Exn := Exn) fs = Ok tt.
Proof.
  intros Hacyclic. pose proof (checkCircularDependencies_total fs) as Htotal.
  destruct (checkCircularDependencies fs) as [[]|e|] eqn:Hcheck; try done.
  apply checkCircularDependencies_Throw in Hcheck
    as (f & trail & Hf & _ & Hlinked & Hcloses).
  destruct Hacyclic. by eapply closes_hasCycle.
Qed.

End Graph.

(** ** Module assembly *)

Section Assembly.
Context {W Value Exn : Type}.
Implicit Types (f g : ServiceFactory W Value Exn)
  (fs flattened : list (ServiceFactory W Value Exn)) (s t : symbol)
  (key : ServiceKey).

(** The factories of the list that provide the key [s], in order. *)
Definition providers s flattened : list (ServiceFactory W Value Exn) :=
  filter (fun f => symbol_of (provides f) = s) flattened.

Definition byKey flattened : list (symbol * ServiceFactory W Value Exn) :=
  foldl (fun byKey f => ServiceModule.Map_set byKey (symbol_of (provides f)) f)
        [] flattened.

Lemma Map_set_to_map {V : Type} (m : list (symbol * V)) k v :
  (list_to_map (ServiceModule.Map_set m k v) : gmap symbol V)
  = <[k := v]> (list_to_map m).
Proof.
  induction m as [|[k' v'] m IH]; [done|]. cbn [ServiceModule.Map_set].
  destruct (decide (k' = k)) as [->|Hk]; rewrite !list_to_map_cons.
  - by rewrite insert_insert_eq.
  - rewrite IH. by apply insert_insert_ne.
Qed.

Lemma Map_set_keys {V : Type} (m : list (symbol * V)) k v :
  (ServiceModule.Map_set m k v).*1 = if decide (k ∈ m.*1) then m.*1 else m.*1 ++ [k].
Proof.
  induction m as [|[k' v'] m IH]; [done|]. cbn [ServiceModule.Map_set].
  destruct (decide (k' = k)) as [->|Hk]; rewrite !fmap_cons.
  - rewrite decide_True; [done|set_solver].
  - rewrite IH. simpl. destruct (decide (k ∈ m.*1)).
    + rewrite decide_True; [done|set_solver].
    + rewrite decide_False; [done|set_solver].
Qed.

Lemma Map_set_NoDup {V : Type} (m : list (symbol * V)) k v :
  NoDup m.*1 → NoDup (ServiceModule.Map_set m k v).*1.
Proof.
  intros Hnd. rewrite Map_set_keys. case_decide; [done|].
  apply NoDup_app. split_and!; [done| |apply NoDup_singleton]. set_solver.
Qed.

Lemma byKey_spec flattened :
  NoDup (byKey flattened).*1
  ∧ (list_to_map (byKey flattened) : gmap symbol _) = buildFactoryMap flattened.
Proof.
  induction flattened as [|f flattened [IH1 IH2]] using rev_ind.
  - split; [constructor|done].
  - unfold byKey. rewrite foldl_app. simpl. fold (byKey flattened). split.
    + by apply Map_set_NoDup.
    + by rewrite Map_set_to_map, IH2, buildFactoryMap_snoc.
Qed.

Lemma lastWins_elem flattened f :
  f ∈ ServiceModule.lastWins flattened
  ↔ buildFactoryMap flattened !! symbol_of (provides f) = Some f.
Proof.
  destruct (byKey_spec flattened) as [Hnd Hmap].
  unfold ServiceModule.lastWins, ServiceModule.Map_values. fold (byKey flattened).
  rewrite list_elem_of_fmap. split.
  - intros ([k g] & -> & Hin). simpl.
    apply (elem_of_list_to_map (M := gmap symbol)) in Hin; [|done].
    rewrite Hmap in Hin. by rewrite (buildFactoryMap_key _ _ _ Hin).
  - intros Hf. exists (symbol_of (provides f), f). split; [done|].
    apply (elem_of_list_to_map (M := gmap symbol)); [done|]. by rewrite Hmap.
Qed.

Lemma buildFactoryMap_last flattened s :
  buildFactoryMap flattened !! s = last (providers s flattened).
Proof.
  unfold providers. induction flattened as [|f flattened IH] using rev_ind; [done|].
  rewrite buildFactoryMap_snoc, filter_app, lookup_insert.
  rewrite filter_cons, filter_nil. case_decide as Hs.
  - by rewrite last_snoc.
  - by rewrite app_nil_r.
Qed.

Lemma lastWins_distinct flattened :
  distinctKeys (ServiceModule.lastWins flattened).
Proof.
  destruct (byKey_spec flattened) as [Hnd Hmap].
  unfold distinctKeys, ServiceModule.lastWins, ServiceModule.Map_values.
  fold (byKey flattened).
  replace ((fun f => symbol_of (provides f)) <$> (byKey flattened).*2)
    with ((byKey flattened).*1); [done|].
  rewrite <- list_fmap_compose. apply list_fmap_ext.
  intros i [k f] Hi. simpl.
  apply list_elem_of_lookup_2 in Hi.
  apply (elem_of_list_to_map (M := gmap symbol)) in Hi; [|done].
  rewrite Hmap in Hi. by rewrite (buildFactoryMap_key _ _ _ Hi).
Qed.

Lemma lastWins_length flattened :
  length (ServiceModule.lastWins flattened)
  = size (list_to_set ((fun f => symbol_of (provides f)) <$> flattened)
          : gset symbol).
Proof.
  destruct (byKey_spec flattened) as [Hnd Hmap].
  unfold ServiceModule.lastWins, ServiceModule.Map_values.
  fold (byKey flattened). rewrite length_fmap.
  rewrite <- (map_size_list_to_map (M := gmap symbol)) by done.
  rewrite Hmap, <- size_dom. f_equal. clear.
  induction flattened as [|f flattened IH] using rev_ind; [done|].
  rewrite buildFactoryMap_snoc, dom_insert_L, IH, fmap_app, list_to_set_app_L.
  simpl. set_solver.
Qed.

Lemma lastWins_provided flattened s :
  provided (ServiceModule.lastWins flattened) s ↔ provided flattened s.
Proof.
  rewrite (buildFactoryMap_provided flattened). split.
  - intros (g & Hg & <-). apply lastWins_elem in Hg. by eexists.
  - intros [g Hg]. exists g. split; [|by eapply buildFactoryMap_key].
    apply lastWins_elem. by rewrite (buildFactoryMap_key _ _ _ Hg).
Qed.

Lemma lastWins_subseteq flattened f :
  f ∈ ServiceModule.lastWins flattened → f ∈ flattened.
Proof. intros Hf%lastWins_elem. by apply buildFactoryMap_Some in Hf as [Hf _]. Qed.

(** [get] looks the key up in the module: it finds the last factory of
    the flattened sequence that provides it. *)
Lemma lastWins_find flattened key :
  find (isSuitable key) (ServiceModule.lastWins flattened)
  = last (providers (symbol_of key) flattened).
Proof.
  rewrite <- buildFactoryMap_last.
  destruct (find _ _) as [f|] eqn:Hfind.
  - apply find_some in Hfind as [Hin Hs]. apply list_elem_of_In in Hin.
    apply bool_decide_eq_true in Hs. apply lastWins_elem in Hin. congruence.
  - destruct (buildFactoryMap flattened !! symbol_of key) as [g|] eqn:Hg; [|done].
    pose proof (buildFactoryMap_key _ _ _ Hg) as Hs.
    assert (Hin : g ∈ ServiceModule.lastWins flattened)
      by (apply lastWins_elem; congruence).
    apply list_elem_of_In in Hin.
    pose proof (find_none _ _ Hfind g Hin) as Hno.
    unfold isSuitable in Hno. by rewrite bool_decide_eq_true_2 in Hno.
Qed.

Lemma tc_mono {A : Type} (R1 R2 : relation A) x y :
  (∀ a b, R1 a b → R2 a b) → tc R1 x y → tc R2 x y.
Proof.
  intros Hsub. induction 1 as [x y H|x y z H _ IH].
  - apply tc_once. auto.
  - eapply tc_l; eauto.
Qed.

Lemma lastWins_hasCycle flattened :
  hasCycle (ServiceModule.lastWins flattened) → hasCycle flattened.
Proof.
  intros [s Hs]. exists s. revert Hs. apply tc_mono.
  intros a b (f & key & Hf & Ha & Hkey & Hb & Hprov). exists f, key.
  split_and!; [by apply lastWins_subseteq|done..|by apply lastWins_provided].
Qed.

Lemma lastWins_satisfiable flattened :
  satisfiable flattened → satisfiable (ServiceModule.lastWins flattened).
Proof.
  intros Hsat f key Hf Hkey. apply lastWins_provided.
  apply (Hsat f key); [by apply lastWins_subseteq|done].
Qed.
End Assembly.

(** ** The constructor and [from] *)

Section Construction.
Context {W Value Exn : Type}.
Implicit Types (f g : ServiceFactory W Value Exn)
  (fs flattened : list (ServiceFactory W Value Exn)) (s t : symbol)
  (key : ServiceKey) (m : ServiceModule W Value Exn).

Lemma missingDependencies_filter f fs :
  missingDependencies f fs
  = filter (fun key => isRegistered key fs = false) (expandedDeps f).
Proof.
  unfold missingDependencies, expandedDeps.
  induction (dependsOn f) as [|dependencyKey keys IH]; [done|].
  simpl. rewrite filter_app, IH. f_equal. unfold keysToCheck.
  destruct (values dependencyKey) as [vs|]; [done|].
  rewrite filter_cons, filter_nil.
  destruct (isRegistered dependencyKey fs); by case_decide.
Qed.

(** The keys collected for a factory are the keys it depends on that no
    factory provides. *)
Lemma missingDependencies_elem f fs key :
  key ∈ missingDependencies f fs
  ↔ key ∈ expandedDeps f ∧ ¬ provided fs (symbol_of key).
Proof.
  rewrite missingDependencies_filter, list_elem_of_filter.
  rewrite <- isRegistered_provided.
  destruct (isRegistered key fs); naive_solver.
Qed.

Definition missingMessage f fs : string :=
  (name (provides f) +:+ " will fail because it depends on:" +:+ LF +:+ " "
   +:+ join LF (map (fun dependencyKey => " -> " +:+ name dependencyKey)
                    (missingDependencies f fs)))%string.

Lemma checkMissingDependencies_spec f fs :
  checkMissingDependencies (Exn := Exn) f fs
  = if decide (missingDependencies f fs = []) then Ok tt
    else Throw (ServiceModuleInitError (missingMessage f fs)).
Proof.
  unfold checkMissingDependencies. cbv zeta.
  destruct (missingDependencies f fs) as [|key keys] eqn:Hm; [done|].
  rewrite bool_decide_eq_false_2 by done. rewrite decide_False by done.
  unfold missingMessage. by rewrite Hm.
Qed.

Definition hasMissing fs f : bool :=
  bool_decide (missingDependencies f fs ≠ []).

Lemma checkMissing_loop fs fs0 :
  forOf fs (fun f (_ : unit) => checkMissingDependencies (Exn := Exn) f fs0) tt
  = match find (hasMissing fs0) fs with
    | Some f => Throw (ServiceModuleInitError (missingMessage f fs0))
    | None => Ok tt
    end.
Proof.
  induction fs as [|f fs IH]; [done|]. simpl.
  rewrite checkMissingDependencies_spec. unfold hasMissing at 1.
  case_decide as Hm.
  - by rewrite bool_decide_eq_false_2 by (by intros []).
  - by rewrite bool_decide_eq_true_2.
Qed.

Lemma find_hasMissing_None fs :
  find (hasMissing fs) fs = None ↔ satisfiable fs.
Proof.
  split.
  - intros Hfind f key Hf Hkey.
    apply list_elem_of_In in Hf. pose proof (find_none _ _ Hfind f Hf) as Hno.
    apply bool_decide_eq_false in Hno.
    destruct (isRegistered key fs) eqn:Hreg; [by apply isRegistered_provided|].
    destruct Hno. intros Hnil.
    assert (Hin : key ∈ missingDependencies f fs).
    { apply missingDependencies_elem. split; [done|].
      rewrite <- isRegistered_provided. by rewrite Hreg. }
    rewrite Hnil in Hin. by apply elem_of_nil in Hin.
  - intros Hsat. destruct (find _ _) as [f|] eqn:Hfind; [|done].
    apply find_some in Hfind as [Hf Hm]. apply list_elem_of_In in Hf.
    apply bool_decide_eq_true in Hm.
    destruct (missingDependencies f fs) as [|key keys] eqn:Hkeys; [done|].
    assert (Hin : key ∈ missingDependencies f fs) by (rewrite Hkeys; set_solver).
    apply missingDependencies_elem in Hin as [Hin Hno].
    destruct Hno. by eapply Hsat.
Qed.

Lemma new_total fs : ServiceModule.new (Exn := Exn) fs ≠ OutOfFuel.
Proof.
  unfold ServiceModule.new.
  pose proof (checkCircularDependencies_total (Exn := Exn) fs).
  destruct (checkCircularDependencies fs); try done.
  rewrite checkMissing_loop. by destruct (find _ _).
Qed.

Lemma new_Ok fs :
  ¬ hasCycle fs → satisfiable fs →
  ServiceModule.new (Exn := Exn) fs = Ok {| factories := fs |}.
Proof.
  intros Hacyclic Hsat. unfold ServiceModule.new.
  rewrite checkCircularDependencies_acyclic by done.
  rewrite checkMissing_loop.
  by rewrite (proj2 (find_hasMissing_None fs) Hsat).
Qed.

Lemma new_inv fs m :
  ServiceModule.new (Exn := Exn) fs = Ok m →
  factories m = fs
  ∧ checkCircularDependencies (Exn := Exn) fs = Ok tt
  ∧ satisfiable fs.
Proof.
  unfold ServiceModule.new.
  destruct (checkCircularDependencies fs) as [[]| |]; try done.
  rewrite checkMissing_loop.
  destruct (find _ _) eqn:Hfind; [done|]. intros [= <-].
  split_and!; [done..|]. by apply find_hasMissing_None.
Qed.

Lemma new_missing fs f :
  ¬ hasCycle fs → find (hasMissing fs) fs = Some f →
  ServiceModule.new (Exn := Exn) fs
  = Throw (ServiceModuleInitError (missingMessage f fs)).
Proof.
  intros Hacyclic Hfind. unfold ServiceModule.new.
  rewrite checkCircularDependencies_acyclic by done.
  by rewrite checkMissing_loop, Hfind.
Qed.


(** Every module object is made by [from]: the constructor is private. *)
Definition validModule m : Prop := ∃ entries, ServiceModule.from entries = Ok m.

Lemma validModule_inv m :
  validModule m →
  distinctKeys (factories m) ∧ satisfiable (factories m)
  ∧ ∃ rank : symbol → nat,
      (∀ f, f ∈ factories m → rank (symbol_of (provides f)) ≤ length (factories m))
      ∧ ∀ s t, dependsDirectly (factories m) s t → rank t < rank s.
Proof.
  intros [entries Hfrom]. unfold ServiceModule.from in Hfrom.
  apply new_inv in Hfrom as (-> & Hcheck & Hsat).
  pose proof (lastWins_distinct (ServiceModule.flatten entries)) as Hd.
  split_and!; [done..|]. by apply checkCircularDependencies_Ok.
Qed.
End Construction.

(** ** Resolution: what every reachable state satisfies *)

Section Resolution.
Context {W Value Exn : Type}.
Variable modules : module_ref → ServiceModule W Value Exn.
Variable null : Value.

Abbreviation State := (Config W Value Exn).
Abbreviation Factory' := (ServiceFactory W Value Exn).
Implicit Types (σ : State) (f : Factory') (this : module_ref) (s : symbol)
  (p q r : pid) (ev : Event) (t : Task W Value Exn) (key : ServiceKey).

(** The factory that [get] finds for a key with the symbol [s]. *)
Definition owner this s : option Factory' :=
  find (fun factory => bool_decide (symbol_of (provides factory) = s))
       (factories (modules this)).

Lemma find_isSuitable this key :
  find (isSuitable key) (factories (modules this)) = owner this (symbol_of key).
Proof. done. Qed.

Lemma owner_symbol this s f : owner this s = Some f → symbol_of (provides f) = s.
Proof.
  intros H. apply find_some in H as [_ H]. by apply bool_decide_eq_true in H.
Qed.

(** The promises named by the events of a trace. *)
Definition result ev : option pid :=
  match ev with EvGet _ _ r => Some r | _ => None end.
Definition caller ev : option pid :=
  match ev with EvConstruct _ _ r _ => Some r | _ => None end.
Definition made ev : option pid :=
  match ev with EvConstruct _ _ _ q => Some q | _ => None end.

(** The promises of the constructor invocations of the factory for [s] in
    the module [this], in order. *)
Definition construction this s ev : option pid :=
  match ev with
  | EvConstruct this' s' _ q =>
      if decide (this' = this ∧ s' = s) then Some q else None
  | _ => None
  end.
Definition constructions σ this s : list pid :=
  omap (construction this s) (trace σ).

(** The promises returned by the calls of [this.get] for [s], in order. *)
Definition call this s ev : option pid :=
  match ev with
  | EvGet this' s' r => if decide (this' = this ∧ s' = s) then Some r else None
  | _ => None
  end.
Definition calls σ this s : list pid := omap (call this s) (trace σ).

Definition inRange (n : nat) ev : Prop :=
  match ev with
  | EvGet _ _ r => r < n
  | EvConstruct _ _ r q => r < n ∧ q < n
  | EvDispose _ _ => True
  end.

(** [initialize] returned the promise [q] to the call [r]. *)
Definition returnedBy σ this f r q : Prop :=
  match lifecycle f with
  | oneShot => EvConstruct this (symbol_of (provides f)) r q ∈ trace σ
  | singleton => cache σ !! (this, symbol_of (provides f)) = Some q
  end.

(** The state of the promise of a call of [this.get] for [s]. *)
Definition callOk σ this s r : Prop :=
  match tasks σ !! r with
  | Some (GetAwait this' f _) => this' = this ∧ owner this s = Some f
  | Some Pending => True
  | Some (Adopt q) => ∃ f, owner this s = Some f ∧ returnedBy σ this f r q
  | Some (Settled o) =>
      (∃ e, o = Rejected e)
      ∨ ∃ f q, owner this s = Some f ∧ returnedBy σ this f r q
               ∧ tasks σ !! q = Some (Settled o)
  | _ => False
  end.

Record Inv σ : Prop := {
  inv_calls : ∀ this s r, EvGet this s r ∈ trace σ → callOk σ this s r;
  inv_results : NoDup (omap result (trace σ));
  inv_single : ∀ this s f, owner this s = Some f → lifecycle f = singleton →
    length (constructions σ this s)
    = match cache σ !! (this, s) with Some _ => 1 | None => 0 end;
  inv_await : ∀ p this f deps, tasks σ !! p = Some (GetAwait this f deps) →
    owner this (symbol_of (provides f)) = Some f
    ∧ EvGet this (symbol_of (provides f)) p ∈ trace σ
    ∧ p ∉ omap caller (trace σ);
  inv_made : NoDup (omap made (trace σ));
  inv_callers : NoDup (omap caller (trace σ));
  inv_range : Forall (inRange (length (tasks σ))) (trace σ);
  inv_construct : ∀ this s r q, EvConstruct this s r q ∈ trace σ →
    EvGet this s r ∈ trace σ;
  inv_cache : ∀ this s q, cache σ !! (this, s) = Some q →
    q ∈ constructions σ this s;
}.

Lemma Inv_initial w : Inv (initial w).
Proof.
  split; simpl; try done; try constructor; set_solver.
Qed.

Lemma result_range σ r :
  Forall (inRange (length (tasks σ))) (trace σ) →
  r ∈ omap result (trace σ) → r < length (tasks σ).
Proof.
  intros Hr (ev & Hev & Hres)%list_elem_of_omap.
  rewrite Forall_forall in Hr. specialize (Hr ev Hev).
  destruct ev; simplify_eq/=. done.
Qed.

Lemma caller_range σ r :
  Forall (inRange (length (tasks σ))) (trace σ) →
  r ∈ omap caller (trace σ) → r < length (tasks σ).
Proof.
  intros Hr (ev & Hev & Hres)%list_elem_of_omap.
  rewrite Forall_forall in Hr. specialize (Hr ev Hev).
  destruct ev; simplify_eq/=. by destruct Hr.
Qed.

Lemma made_range σ q :
  Forall (inRange (length (tasks σ))) (trace σ) →
  q ∈ omap made (trace σ) → q < length (tasks σ).
Proof.
  intros Hr (ev & Hev & Hres)%list_elem_of_omap.
  rewrite Forall_forall in Hr. specialize (Hr ev Hev).
  destruct ev; simplify_eq/=. by destruct Hr.
Qed.

Lemma inRange_mono n n' ev : n ≤ n' → inRange n ev → inRange n' ev.
Proof. destruct ev; simpl; lia. Qed.

Lemma callOk_range σ this s r : callOk σ this s r → r < length (tasks σ).
Proof.
  unfold callOk. destruct (tasks σ !! r) eqn:H; [|done].
  intros _. by eapply lookup_lt_Some.
Qed.

(** *** The invariant and the updates of the state *)

Lemma Inv_same σ σ' :
  tasks σ' = tasks σ → cache σ' = cache σ → trace σ' = trace σ →
  Inv σ → Inv σ'.
Proof.
  destruct σ, σ'. simpl. intros -> -> -> [H1 H2 H3 H4 H5 H6 H7 H8 H9].
  by split.
Qed.

Lemma returnedBy_same σ σ' this f r q :
  cache σ' = cache σ → trace σ' = trace σ →
  returnedBy σ' this f r q = returnedBy σ this f r q.
Proof. unfold returnedBy. by intros -> ->. Qed.

(** A promise that is not settled moves on. *)
Lemma Inv_setTask σ p t0 t :
  Inv σ → tasks σ !! p = Some t0 → (∀ o, t0 ≠ Settled o) →
  (∀ this f deps, t ≠ GetAwait this f deps) →
  (∀ this s, EvGet this s p ∈ trace σ → callOk (setTask p t σ) this s p) →
  Inv (setTask p t σ).
Proof.
  intros [H1 H2 H3 H4 H5 H6 H7 H8 H9] Hp Ht0 Ht Hcall.
  split; simpl; try done.
  - intros this s r Hev. destruct (decide (r = p)) as [->|Hne]; [by apply Hcall|].
    specialize (H1 this s r Hev). unfold callOk in *. simpl.
    rewrite list_lookup_insert_ne by done.
    destruct (tasks σ !! r) as [[o| | | | |]|]; try done.
    destruct H1 as [?|(f & q & Hf & Hret & Hq)]; [by left|right].
    exists f, q. split_and!; [done..|].
    rewrite list_lookup_insert_ne; [done|]. intros ->.
    rewrite Hp in Hq. simplify_eq. by eapply Ht0.
  - intros p' this f deps Hp'. destruct (decide (p' = p)) as [->|Hne].
    + rewrite list_lookup_insert_eq in Hp' by (by eapply lookup_lt_Some).
      simplify_eq. by edestruct Ht.
    + rewrite list_lookup_insert_ne in Hp' by done. by eapply H4.
  - by rewrite length_insert.
Qed.

Lemma Inv_settle σ p t0 o :
  Inv σ → tasks σ !! p = Some t0 → (∀ o, t0 ≠ Settled o) →
  (∀ this s, EvGet this s p ∈ trace σ →
             callOk (setTask p (Settled o) σ) this s p) →
  Inv (settle p o σ).
Proof.
  intros HI Hp Ht0 Hcall.
  apply (Inv_same (setTask p (Settled o) σ)); [done..|].
  by eapply Inv_setTask.
Qed.

Lemma Inv_setWorld σ w : Inv σ → Inv (setWorld w σ).
Proof. by apply Inv_same. Qed.

Lemma callOk_newTask σ t this s r :
  callOk σ this s r → callOk (newTask t σ).2 this s r.
Proof.
  unfold callOk. simpl. intros H.
  destruct (tasks σ !! r) as [t'|] eqn:Hr; [|done].
  rewrite (lookup_app_l_Some _ _ _ _ Hr).
  destruct t' as [o| | | | |]; try done.
  destruct H as [?|(f & q & Hf & Hret & Hq)]; [by left|right].
  exists f, q. split_and!; [done..|]. by apply lookup_app_l_Some.
Qed.

(** A promise that is not the promise of a call is made. *)
Lemma Inv_newTask σ t :
  Inv σ → (∀ this f deps, t ≠ GetAwait this f deps) → Inv (newTask t σ).2.
Proof.
  intros [H1 H2 H3 H4 H5 H6 H7 H8 H9] Ht. split; simpl; try done.
  - intros this s r Hev. by apply (callOk_newTask σ t), H1.
  - intros p this f deps Hp. apply lookup_app_Some in Hp as [Hp|[_ Hp]].
    + by eapply H4.
    + destruct (p - length (tasks σ)); simplify_eq/=. by edestruct Ht.
  - rewrite length_app. eapply Forall_impl; [done|].
    intros ev. apply inRange_mono. lia.
Qed.

Lemma callOk_mono σ σ' this s r :
  (∀ i t, tasks σ !! i = Some t → tasks σ' !! i = Some t) →
  (∀ ev, ev ∈ trace σ → ev ∈ trace σ') →
  (∀ k q, cache σ !! k = Some q → cache σ' !! k = Some q) →
  callOk σ this s r → callOk σ' this s r.
Proof.
  intros Htasks Htrace Hcache. unfold callOk.
  assert (Hret : ∀ f q, returnedBy σ this f r q → returnedBy σ' this f r q).
  { intros f q. unfold returnedBy. destruct (lifecycle f); auto. }
  destruct (tasks σ !! r) as [t|] eqn:Hr; [|done].
  rewrite (Htasks _ _ Hr). destruct t as [o| | | | |]; try done.
  - intros [?|(f & q & Hf & Hq & Hs)]; [by left|right].
    exists f, q. split_and!; auto.
  - intros (f & Hf & Hq). exists f. auto.
Qed.

(** [get] has made the promise of a call. *)
Lemma Inv_call σ this s t :
  Inv σ →
  match t with
  | GetAwait this' f _ => this' = this ∧ owner this s = Some f
  | Settled (Rejected _) => True
  | _ => False
  end →
  Inv (log (EvGet this s (length (tasks σ))) (newTask t σ).2).
Proof.
  intros [H1 H2 H3 H4 H5 H6 H7 H8 H9] Ht.
  assert (Hnew : (tasks σ ++ [t]) !! length (tasks σ) = Some t)
    by apply list_lookup_middle, eq_refl.
  split; simpl.
  - intros this' s' r [Hev|Hev%list_elem_of_singleton]%elem_of_app.
    + apply (callOk_mono σ); simpl; [|set_solver|done|by apply H1].
      intros i t'. apply lookup_app_l_Some.
    + simplify_eq. unfold callOk. simpl. rewrite Hnew.
      destruct t as [[]| | | | |]; try done. left. by eexists.
  - rewrite omap_app. simpl. apply NoDup_app. split_and!; [done| |apply NoDup_singleton].
    intros r Hr ->%list_elem_of_singleton. apply result_range in Hr; [lia|done].
  - intros this' s' f Hf Hs. unfold constructions. simpl.
    rewrite omap_app. simpl. rewrite app_nil_r. by apply (H3 _ _ f).
  - intros p this' f deps Hp. rewrite omap_app. simpl. rewrite app_nil_r.
    apply lookup_app_Some in Hp as [Hp|[Hlen Hp]].
    + destruct (H4 _ _ _ _ Hp) as (? & ? & ?). split_and!; [done|set_solver|done].
    + destruct (p - length (tasks σ)) as [|n] eqn:Hn; simplify_eq/=.
      assert (p = length (tasks σ)) as -> by lia. destruct Ht as [-> Hf].
      rewrite (owner_symbol _ _ _ Hf). split_and!; [done|set_solver|].
      intros Hc. apply caller_range in Hc; [lia|done].
  - rewrite omap_app. simpl. by rewrite app_nil_r.
  - rewrite omap_app. simpl. by rewrite app_nil_r.
  - rewrite length_app. simpl. apply Forall_app. split.
    + eapply Forall_impl; [done|]. intros ev. apply inRange_mono. lia.
    + apply Forall_singleton. simpl. lia.
  - intros this' s' r q [Hev|Hev%list_elem_of_singleton]%elem_of_app; [|done].
    apply elem_of_app. left. by eapply H8.
  - intros this' s' q Hq. unfold constructions. simpl. rewrite omap_app.
    apply elem_of_app. left. by apply H9.
Qed.

(** The constructor of a factory is about to run for the call [p]. *)
Lemma Inv_construct σ this f p (cached : bool) :
  let s := symbol_of (provides f) in
  let σ1 := log (EvConstruct this s p (length (tasks σ))) (newTask Pending σ).2 in
  Inv σ → tasks σ !! p = Some Pending → EvGet this s p ∈ trace σ →
  p ∉ omap caller (trace σ) → owner this s = Some f →
  (if cached then lifecycle f = singleton ∧ cache σ !! (this, s) = None
   else lifecycle f = oneShot) →
  Inv (if cached then setCache (this, s) (length (tasks σ)) σ1 else σ1).
Proof.
  intros s σ1 [H1 H2 H3 H4 H5 H6 H7 H8 H9] Hp Hev Hcaller Hf Hcached.
  assert (Hlt : p < length (tasks σ)) by by eapply lookup_lt_Some.
  assert (Htasks : tasks (if cached then setCache (this, s) (length (tasks σ)) σ1
                          else σ1) = tasks σ ++ [Pending]) by by destruct cached.
  assert (Htrace : trace (if cached then setCache (this, s) (length (tasks σ)) σ1
                          else σ1)
                   = trace σ ++ [EvConstruct this s p (length (tasks σ))])
    by by destruct cached.
  assert (Hcache : ∀ k q, cache σ !! k = Some q →
            cache (if cached then setCache (this, s) (length (tasks σ)) σ1
                   else σ1) !! k = Some q).
  { intros k q Hk. destruct cached; [|done]. simpl.
    rewrite lookup_insert_ne; [done|]. intros <-. destruct Hcached. congruence. }
  split; rewrite ?Htasks, ?Htrace.
  - intros this' s' r [Hr|Hr%list_elem_of_singleton]%elem_of_app; [|done].
    apply (callOk_mono σ); [| |done|by apply H1].
    + intros i t. rewrite Htasks. apply lookup_app_l_Some.
    + rewrite Htrace. set_solver.
  - rewrite omap_app. simpl. by rewrite app_nil_r.
  - intros this' s' f' Hf' Hs. unfold constructions. rewrite Htrace, omap_app.
    simpl. rewrite length_app. specialize (H3 this' s' f' Hf' Hs).
    unfold constructions in H3. rewrite H3. case_decide as Hkey.
    + destruct Hkey as [Hthis Hsym]. subst this' s'.
      assert (f' = f) as -> by congruence.
      destruct cached; [|simpl in Hcached; congruence].
      destruct Hcached as [_ Hnone]. simpl.
      by rewrite Hnone, lookup_insert_eq.
    + simpl. destruct cached; simpl; [|by rewrite Nat.add_0_r].
      rewrite lookup_insert_ne by (intros [= -> ->]; by destruct Hkey).
      by rewrite Nat.add_0_r.
  - intros p' this' f' deps Hp'. rewrite omap_app. simpl.
    apply lookup_app_Some in Hp' as [Hp'|[Hlen Hp']].
    + destruct (H4 _ _ _ _ Hp') as (? & ? & ?).
      split_and!; [done|set_solver|].
      intros [?|Hq%list_elem_of_singleton]%elem_of_app; [done|congruence].
    + destruct (p' - length (tasks σ)); simplify_eq/=.
  - rewrite omap_app. simpl. apply NoDup_app.
    split_and!; [done| |apply NoDup_singleton].
    intros q Hq ->%list_elem_of_singleton. apply made_range in Hq; [lia|done].
  - rewrite omap_app. simpl. apply NoDup_app.
    split_and!; [done| |apply NoDup_singleton].
    by intros q Hq ->%list_elem_of_singleton.
  - rewrite length_app. simpl. apply Forall_app. split.
    + eapply Forall_impl; [done|]. intros ev. apply inRange_mono. lia.
    + apply Forall_singleton. simpl. lia.
  - intros this' s' r q [Hr|Hr%list_elem_of_singleton]%elem_of_app.
    + apply elem_of_app. left. by eapply H8.
    + simplify_eq. apply elem_of_app. by left.
  - intros this' s' q Hq. unfold constructions. rewrite Htrace, omap_app.
    apply elem_of_app. destruct cached; simpl in Hq.
    + apply lookup_insert_Some in Hq as [[[= <- <-] <-]|[_ Hq]].
      * right. simpl. rewrite decide_True by done. set_solver.
      * left. by apply H9.
    + left. by apply H9.
Qed.

Lemma Inv_disposed σ this s w :
  Inv σ → Inv (log (EvDispose this s) (setWorld w σ)).
Proof.
  intros [H1 H2 H3 H4 H5 H6 H7 H8 H9]. split; simpl.
  - intros this' s' r [Hr|Hr%list_elem_of_singleton]%elem_of_app; [|done].
    apply (callOk_mono σ); simpl; [done|set_solver|done|by apply H1].
  - rewrite omap_app. simpl. by rewrite app_nil_r.
  - intros this' s' f Hf Hs. unfold constructions. simpl.
    rewrite omap_app. simpl. rewrite app_nil_r. by apply (H3 _ _ f).
  - intros p this' f deps Hp. rewrite omap_app. simpl. rewrite app_nil_r.
    destruct (H4 _ _ _ _ Hp) as (? & ? & ?). split_and!; [done|set_solver|done].
  - rewrite omap_app. simpl. by rewrite app_nil_r.
  - rewrite omap_app. simpl. by rewrite app_nil_r.
  - apply Forall_app. split; [done|]. by apply Forall_singleton.
  - intros this' s' r q [Hr|Hr%list_elem_of_singleton]%elem_of_app; [|done].
    apply elem_of_app. left. by eapply H8.
  - intros this' s' q Hq. unfold constructions. simpl. rewrite omap_app.
    apply elem_of_app. left. by apply H9.
Qed.

(** *** What [get] and a constructor change *)

(** From [σ] to [σ']: promises were added, calls of [get] were logged for
    new promises, and the promises of [σ] other than [except] are as they
    were. *)
Record evolves (except : pid → Prop) σ σ' : Prop := {
  ev_tasks : ∀ i t, ¬ except i → tasks σ !! i = Some t → tasks σ' !! i = Some t;
  ev_length : length (tasks σ) ≤ length (tasks σ');
  ev_cache : cache σ' = cache σ;
  ev_trace : ∃ evs, trace σ' = trace σ ++ evs
    ∧ Forall (fun ev => ∃ this s r, ev = EvGet this s r ∧ length (tasks σ) ≤ r) evs;
}.

Lemma evolves_refl except σ : evolves except σ σ.
Proof. split; try done. exists []. by rewrite app_nil_r. Qed.

Lemma evolves_trans except σ1 σ2 σ3 :
  evolves except σ1 σ2 → evolves except σ2 σ3 → evolves except σ1 σ3.
Proof.
  intros [T1 L1 C1 (evs1 & E1 & F1)] [T2 L2 C2 (evs2 & E2 & F2)]. split.
  - auto.
  - lia.
  - congruence.
  - exists (evs1 ++ evs2). rewrite E2, E1, app_assoc. split; [done|].
    apply Forall_app. split; [done|]. eapply Forall_impl; [done|].
    intros ev (this & s & r & -> & Hr). exists this, s, r. split; [done|lia].
Qed.

Lemma evolves_weaken (except except' : pid → Prop) σ σ' :
  (∀ i, except i → except' i) → evolves except σ σ' → evolves except' σ σ'.
Proof. intros Hsub [T L C E]. split; auto. Qed.

Lemma evolves_in_trace except σ σ' ev :
  evolves except σ σ' → ev ∈ trace σ → ev ∈ trace σ'.
Proof. intros [_ _ _ (evs & -> & _)] Hev. set_solver. Qed.

Lemma evolves_callers except σ σ' :
  evolves except σ σ' → omap caller (trace σ') = omap caller (trace σ).
Proof.
  intros [_ _ _ (evs & -> & Hevs)]. rewrite omap_app.
  rewrite <- (app_nil_r (omap caller (trace σ))) at 2. f_equal.
  induction Hevs as [|ev evs (this & s & r & -> & _) _ IH]; [done|]. by simpl.
Qed.

Lemma evolves_new_get except σ σ' this s r :
  evolves except σ σ' → EvGet this s r ∈ trace σ' →
  EvGet this s r ∈ trace σ ∨ length (tasks σ) ≤ r.
Proof.
  intros [_ _ _ (evs & -> & Hevs)] [?|Hev]%elem_of_app; [by left|right].
  rewrite Forall_forall in Hevs.
  destruct (Hevs _ Hev) as (? & ? & ? & ? & ?). by simplify_eq.
Qed.

Lemma mapState_preserves {A B : Type} (P : State → State → Prop)
    (f : A → State → option (B * State)) xs σ ys σ' :
  (∀ σ, P σ σ) → (∀ σ1 σ2 σ3, P σ1 σ2 → P σ2 σ3 → P σ1 σ3) →
  (∀ x σ y σ', f x σ = Some (y, σ') → P σ σ') →
  ServiceModule.mapState f xs σ = Some (ys, σ') → P σ σ'.
Proof.
  intros Hrefl Htrans Hf. revert σ ys.
  induction xs as [|x xs IH]; intros σ ys; simpl.
  - by intros [= <- <-].
  - destruct (f x σ) as [[y σ1]|] eqn:Hx; [|done]. simpl.
    destruct (ServiceModule.mapState f xs σ1) as [[ys' σ2]|] eqn:Hxs; [|done].
    simpl. intros [= <- <-]. eauto.
Qed.

Lemma resolveDependency_preserves (P : State → State → Prop) recur this key σ a σ' :
  (∀ σ, P σ σ) →
  (∀ key σ p σ', recur this key σ = Some (p, σ') → P σ σ') →
  ServiceModule.resolveDependency recur this key σ = Some (a, σ') → P σ σ'.
Proof.
  intros Hrefl Hrec. unfold ServiceModule.resolveDependency.
  destruct (values key); [by intros [= <- <-]|].
  destruct (recur this key σ) as [[p σ1]|] eqn:Hr; [|done]. simpl.
  intros [= <- <-]. eauto.
Qed.

Lemma insert_last {A : Type} (l : list A) (x y : A) :
  <[length l := y]> (l ++ [x]) = l ++ [y].
Proof.
  rewrite insert_app_r_alt by done. by rewrite Nat.sub_diag.
Qed.

(** The two ways [get] ends. *)
Lemma get__unfold fuel this key σ :
  ServiceModule.get_ modules fuel this key σ
  = match owner this (symbol_of key) with
    | None =>
        Some (length (tasks σ),
              settle (length (tasks σ)) (Rejected (ServiceModule.notFound key))
                (log (EvGet this (symbol_of key) (length (tasks σ)))
                     (newTask Pending σ).2))
    | Some factory =>
        match fuel with
        | 0 => None
        | S fuel' =>
            '(dependencies, σ1) ←
              ServiceModule.mapState
                (ServiceModule.resolveDependency
                   (ServiceModule.get_ modules fuel') this)
                (dependsOn factory) σ;
            Some (length (tasks σ1),
                  log (EvGet this (symbol_of key) (length (tasks σ1)))
                      (newTask (GetAwait this factory dependencies) σ1).2)
        end
    end.
Proof. destruct fuel; reflexivity. Qed.

Lemma get__evolves fuel this key σ p σ' :
  ServiceModule.get_ modules fuel this key σ = Some (p, σ') →
  evolves (fun _ => False) σ σ' ∧ length (tasks σ) ≤ p.
Proof.
  revert this key σ p σ'.
  induction fuel as [|fuel IH]; intros this key σ p σ'; rewrite get__unfold;
    destruct (owner this (symbol_of key)) as [f|] eqn:Hf; try done.
  - intros [= <- <-]. split; [|done]. split; simpl.
    + intros i t _ Hi. rewrite insert_last. by apply lookup_app_l_Some.
    + rewrite length_insert, length_app. lia.
    + done.
    + eexists. split; [done|]. apply Forall_singleton. by eexists _, _, _.
  - destruct (ServiceModule.mapState _ _ σ) as [[deps σ1]|] eqn:Hmap; [|done].
    simpl. intros [= <- <-].
    assert (Hev : evolves (fun _ => False) σ σ1).
    { revert Hmap. apply mapState_preserves.
      - apply evolves_refl.
      - apply evolves_trans.
      - intros x σ2 y σ3. apply resolveDependency_preserves.
        + apply evolves_refl.
        + intros key' σ4 q σ5 Hget. by apply IH in Hget as [? _]. }
    pose proof (ev_length _ _ _ Hev). split; [|done].
    eapply evolves_trans; [exact Hev|]. split; simpl.
    + intros i t _ Hi. by apply lookup_app_l_Some.
    + rewrite length_app. lia.
    + done.
    + eexists. split; [done|]. apply Forall_singleton. by eexists _, _, _.
  - intros [= <- <-]. split; [|done]. split; simpl.
    + intros i t _ Hi. rewrite insert_last. by apply lookup_app_l_Some.
    + rewrite length_insert, length_app. lia.
    + done.
    + eexists. split; [done|]. apply Forall_singleton. by eexists _, _, _.
Qed.

Lemma get__Inv fuel this key σ p σ' :
  Inv σ → ServiceModule.get_ modules fuel this key σ = Some (p, σ') → Inv σ'.
Proof.
  revert this key σ p σ'.
  induction fuel as [|fuel IH]; intros this key σ p σ' HI; rewrite get__unfold;
    destruct (owner this (symbol_of key)) as [f|] eqn:Hf; try done.
  - intros [= <- <-].
    eapply Inv_same; [| | |apply (Inv_call σ this (symbol_of key)
      (Settled (Rejected (ServiceModule.notFound key))) HI I)]; try done.
    simpl. apply insert_last.
  - destruct (ServiceModule.mapState _ _ σ) as [[deps σ1]|] eqn:Hmap; [|done].
    simpl. intros [= <- <-]. apply Inv_call; [|done].
    revert HI. revert Hmap.
    apply (mapState_preserves (fun σ σ' => Inv σ → Inv σ')); [auto..|].
    intros x σ2 y σ3.
    apply (resolveDependency_preserves (fun σ σ' => Inv σ → Inv σ')); [auto|].
    intros key' σ4 q σ5 Hget HI'. by eapply IH.
  - intros [= <- <-].
    eapply Inv_same; [| | |apply (Inv_call σ this (symbol_of key)
      (Settled (Rejected (ServiceModule.notFound key))) HI I)]; try done.
    simpl. apply insert_last.
Qed.

Lemma get_evolves this key σ p σ' :
  ServiceModule.get modules this key σ = Some (p, σ') →
  evolves (fun _ => False) σ σ' ∧ length (tasks σ) ≤ p.
Proof. apply get__evolves. Qed.

Lemma get_Inv this key σ p σ' :
  Inv σ → ServiceModule.get modules this key σ = Some (p, σ') → Inv σ'.
Proof. apply get__Inv. Qed.

Lemma setTask_evolves p t σ : evolves (eq p) σ (setTask p t σ).
Proof.
  split; simpl; try done.
  - intros i t' Hne Hi. by rewrite list_lookup_insert_ne.
  - by rewrite length_insert.
  - exists []. by rewrite app_nil_r.
Qed.

Lemma settle_evolves p o σ : evolves (eq p) σ (settle p o σ).
Proof.
  split; simpl; try done.
  - intros i t' Hne Hi. by rewrite list_lookup_insert_ne.
  - by rewrite length_insert.
  - exists []. by rewrite app_nil_r.
Qed.

Lemma run_evolves prog p σ σ' :
  ServiceModule.run modules prog p σ = Some σ' → evolves (eq p) σ σ'.
Proof.
  revert σ σ'. induction prog as [v|e|action k IH|s key k IH];
    intros σ σ'; simpl.
  - intros [= <-]. apply settle_evolves.
  - intros [= <-]. apply settle_evolves.
  - intros Hrun. apply IH in Hrun. destruct Hrun as [T L C E]. by split.
  - unfold ServiceModule.ServiceSelector_get.
    destruct (ServiceModule.get _ _ _ σ) as [[r σ1]|] eqn:Hget; [|done]. simpl.
    intros [= <-]. apply get_evolves in Hget as [Hev _].
    eapply evolves_trans; [|apply setTask_evolves].
    eapply evolves_weaken; [|exact Hev]. done.
Qed.

Lemma run_Inv prog p σ σ' t0 :
  Inv σ → tasks σ !! p = Some t0 → (∀ o, t0 ≠ Settled o) →
  (∀ this s, EvGet this s p ∉ trace σ) →
  ServiceModule.run modules prog p σ = Some σ' → Inv σ'.
Proof.
  revert σ σ'. induction prog as [v|e|action k IH|s key k IH];
    intros σ σ' HI Hp Ht0 Hcall; simpl.
  - intros [= <-]. apply (Inv_settle σ p t0 _ HI Hp Ht0).
    intros ?? Hev. by destruct (Hcall _ _ Hev).
  - intros [= <-]. apply (Inv_settle σ p t0 _ HI Hp Ht0).
    intros ?? Hev. by destruct (Hcall _ _ Hev).
  - apply IH; [by apply Inv_setWorld|done..].
  - unfold ServiceModule.ServiceSelector_get.
    destruct (ServiceModule.get _ _ _ σ) as [[r σ1]|] eqn:Hget; [|done]. simpl.
    intros [= <-]. pose proof (get_Inv _ _ _ _ _ HI Hget) as HI1.
    apply get_evolves in Hget as [Hev _].
    apply (Inv_setTask σ1 p t0); [done| |done..|].
    { apply (ev_tasks _ _ _ Hev); [by intros []|done]. }
    intros this s' Hin. destruct (evolves_new_get _ _ _ _ _ _ Hev Hin) as [H|Hge].
    + by destruct (Hcall _ _ H).
    + apply lookup_lt_Some in Hp. lia.
Qed.

(** The promise of a call belongs to one call. *)
Lemma call_unique σ this s this' s' r :
  Inv σ → EvGet this s r ∈ trace σ → EvGet this' s' r ∈ trace σ →
  this' = this ∧ s' = s.
Proof.
  intros [_ Hnd _ _ _ _ _ _ _]. revert Hnd.
  induction (trace σ) as [|ev evs IH]; [set_solver|].
  intros Hnd H1 H2. apply elem_of_cons in H1, H2.
  assert (Hin : ∀ a b, EvGet a b r ∈ evs → r ∈ omap result evs).
  { intros a b Hab. apply list_elem_of_omap. by exists (EvGet a b r). }
  destruct H1 as [<-|H1], H2 as [H2|H2].
  - by simplify_eq.
  - simpl in Hnd. apply NoDup_cons in Hnd as [Hnd _]. by apply Hin in H2.
  - subst ev. simpl in Hnd. apply NoDup_cons in Hnd as [Hnd _]. by apply Hin in H1.
  - apply IH; [|done..]. destruct ev; simpl in Hnd; [|done..].
    by apply NoDup_cons in Hnd as [_ Hnd].
Qed.

(** *** The invariant and the steps *)

Lemma invoke_unfold this f p args (cached : bool) σ :
  ServiceModule.invoke modules this f p args cached σ
  = let s := symbol_of (provides f) in
    let σ1 := log (EvConstruct this s p (length (tasks σ))) (newTask Pending σ).2 in
    σ4 ← ServiceModule.run modules (construct f args) (length (tasks σ))
           (if cached then setCache (this, s) (length (tasks σ)) σ1 else σ1);
    Some (length (tasks σ), σ4).
Proof. by destruct cached. Qed.

Lemma invoke_Inv this f p args (cached : bool) σ q σ' :
  let s := symbol_of (provides f) in
  Inv σ → tasks σ !! p = Some Pending → EvGet this s p ∈ trace σ →
  p ∉ omap caller (trace σ) → owner this s = Some f →
  (if cached then lifecycle f = singleton ∧ cache σ !! (this, s) = None
   else lifecycle f = oneShot) →
  ServiceModule.invoke modules this f p args cached σ = Some (q, σ') →
  Inv σ' ∧ tasks σ' !! p = Some Pending
  ∧ EvConstruct this s p q ∈ trace σ'
  ∧ (cached = true → cache σ' !! (this, s) = Some q)
  ∧ (∀ ev, ev ∈ trace σ → ev ∈ trace σ').
Proof.
  intros s HI Hp Hev Hcaller Hf Hcached. rewrite invoke_unfold. cbv zeta.
  fold s.
  set (σ1 := log (EvConstruct this s p (length (tasks σ))) (newTask Pending σ).2).
  set (σ3 := if cached then setCache (this, s) (length (tasks σ)) σ1 else σ1).
  destruct (ServiceModule.run modules _ _ σ3) as [σ4|] eqn:Hrun; [|done]. simpl.
  intros [= <- <-].
  pose proof (Inv_construct σ this f p cached HI Hp Hev Hcaller Hf Hcached) as HI3.
  fold s σ1 σ3 in HI3.
  assert (Htasks : tasks σ3 = tasks σ ++ [Pending]) by (unfold σ3; by destruct cached).
  assert (Htrace : trace σ3 = trace σ ++ [EvConstruct this s p (length (tasks σ))])
    by (unfold σ3; by destruct cached).
  assert (Hlt : p < length (tasks σ)) by by eapply lookup_lt_Some.
  pose proof (run_evolves _ _ _ _ Hrun) as Hevolves.
  split_and!.
  - apply (run_Inv _ _ _ _ Pending HI3) in Hrun; [done| |done|].
    + rewrite Htasks. by apply list_lookup_middle.
    + intros this' s' Hin. rewrite Htrace in Hin.
      apply elem_of_app in Hin as [Hin|Hin%list_elem_of_singleton]; [|done].
      destruct HI as [_ _ _ _ _ _ Hrange _ _]. rewrite Forall_forall in Hrange.
      apply Hrange in Hin. simpl in Hin. lia.
  - apply (ev_tasks _ _ _ Hevolves); [lia|].
    rewrite Htasks. by apply lookup_app_l_Some.
  - apply (evolves_in_trace _ _ _ _ Hevolves). rewrite Htrace. set_solver.
  - intros ->. rewrite (ev_cache _ _ _ Hevolves). unfold σ3. simpl.
    apply lookup_insert_eq.
  - intros ev Hin. apply (evolves_in_trace _ _ _ _ Hevolves).
    rewrite Htrace. set_solver.
Qed.

Lemma initialize_Inv this f p args σ q σ' :
  let s := symbol_of (provides f) in
  Inv σ → tasks σ !! p = Some Pending → EvGet this s p ∈ trace σ →
  p ∉ omap caller (trace σ) → owner this s = Some f →
  ServiceModule.initialize modules this f p args σ = Some (q, σ') →
  Inv σ' ∧ tasks σ' !! p = Some Pending ∧ returnedBy σ' this f p q
  ∧ (∀ ev, ev ∈ trace σ → ev ∈ trace σ').
Proof.
  intros s HI Hp Hev Hcaller Hf. unfold ServiceModule.initialize, returnedBy.
  destruct (lifecycle f) eqn:Hlife.
  - intros Hinv.
    destruct (invoke_Inv this f p args false σ q σ' HI Hp Hev Hcaller Hf Hlife Hinv)
      as (? & ? & ? & _ & ?). done.
  - fold s. destruct (cache σ !! (this, s)) as [q'|] eqn:Hcache.
    + by intros [= <- <-].
    + intros Hinv.
      destruct (invoke_Inv this f p args true σ q σ' HI Hp Hev Hcaller Hf
                  (conj Hlife Hcache) Hinv) as (? & ? & _ & Hc & ?).
      split_and!; auto.
Qed.

Lemma fire_Inv p σ σ' :
  Inv σ → ServiceModule.fire modules null p σ = Some σ' → Inv σ'.
Proof.
  intros HI. unfold ServiceModule.fire.
  destruct (tasks σ !! p) as [[o| |this f deps|src|k awaited|src]|] eqn:Hp;
    try done.
  - (* get resumes *)
    destruct (inv_await σ HI _ _ _ _ Hp) as (Hf & Hev & Hcaller).
    destruct (firstRejected deps σ) as [e|].
    { intros [= <-]. apply (Inv_settle σ p _ _ HI Hp); [done|].
      intros this' s' _. unfold callOk. simpl.
      rewrite list_lookup_insert_eq by (by eapply lookup_lt_Some).
      left. by eexists. }
    destruct (allFulfilled deps σ) as [args|]; [|done]. simpl.
    destruct (ServiceModule.initialize _ _ _ _ _ _) as [[q σ1]|] eqn:Hinit;
      [|done]. simpl. intros [= <-].
    assert (HI0 : Inv (setTask p Pending σ)).
    { apply (Inv_setTask σ p _ _ HI Hp); [done..|].
      intros this' s' _. unfold callOk. simpl.
      by rewrite list_lookup_insert_eq by (by eapply lookup_lt_Some). }
    assert (Hp0 : tasks (setTask p Pending σ) !! p = Some Pending).
    { simpl. apply list_lookup_insert_eq. by eapply lookup_lt_Some. }
    destruct (initialize_Inv this f p args _ q σ1 HI0 Hp0 Hev Hcaller Hf Hinit)
      as (HI1 & Hp1 & Hret & Htrace).
    apply (Inv_setTask σ1 p _ _ HI1 Hp1); [done..|].
    intros this' s' Hev'. unfold callOk. simpl.
    rewrite list_lookup_insert_eq by (by eapply lookup_lt_Some).
    destruct (call_unique σ1 this _ this' s' p HI1 (Htrace _ Hev) Hev')
      as [-> ->].
    exists f. split; [done|]. by rewrite (returnedBy_same σ1).
  - (* the promise follows the one initialize returned *)
    destruct (outcomeOf σ src) as [o|] eqn:Hsrc; [|done]. simpl. intros [= <-].
    apply (Inv_settle σ p _ _ HI Hp); [done|].
    intros this s Hev. pose proof (inv_calls σ HI _ _ _ Hev) as Hcall.
    unfold callOk in *. simpl. rewrite Hp in Hcall.
    rewrite list_lookup_insert_eq by (by eapply lookup_lt_Some).
    destruct Hcall as (f & Hf & Hret). right. exists f, src.
    split_and!; [done|by rewrite (returnedBy_same σ)|].
    unfold outcomeOf in Hsrc.
    destruct (tasks σ !! src) as [[]|] eqn:Hs; simplify_eq.
    rewrite list_lookup_insert_ne; [done|]. intros ->. congruence.
  - (* a constructor resumes *)
    destruct (outcomeOf σ awaited) as [o|]; [|done]. simpl.
    apply (run_Inv _ _ _ _ _ HI Hp); [done|].
    intros this s Hev. pose proof (inv_calls σ HI _ _ _ Hev) as Hcall.
    unfold callOk in Hcall. by rewrite Hp in Hcall.
  - (* getOrNull resumes *)
    destruct (outcomeOf σ src) as [o|]; [|done]. simpl.
    assert (Hany : ∀ o', Inv (settle p o' σ)).
    { intros o'. apply (Inv_settle σ p _ _ HI Hp); [done|].
      intros this s Hev. pose proof (inv_calls σ HI _ _ _ Hev) as Hcall.
      unfold callOk in Hcall. by rewrite Hp in Hcall. }
    destruct o as [v|[]]; by intros [= <-].
Qed.

Lemma dispose_Inv this scope_ σ σ' thrown :
  Inv σ → ServiceModule.dispose modules this scope_ σ = (σ', thrown) → Inv σ'.
Proof.
  unfold ServiceModule.dispose.
  generalize (match scope_ with
              | Some s => filter (fun f => scope f = Some s) (factories (modules this))
              | None => factories (modules this)
              end).
  intros fs. revert σ. induction fs as [|f fs IH]; intros σ HI; simpl.
  - by intros [= <- _].
  - destruct (dispose f) as [hook|]; [|by apply IH].
    destruct (hook (world σ)) as [w [e|]].
    + intros [= <- _]. by apply Inv_disposed.
    + apply IH. by apply Inv_disposed.
Qed.

Lemma step_Inv σ σ' : Inv σ → ServiceModule.step modules null σ σ' → Inv σ'.
Proof.
  intros HI Hstep. revert HI.
  destruct Hstep as [this key σ0 p σ1 Hget|this key σ0 p σ1 Hget
                    |this scope_ σ0 σ1 thrown Hd|p σ0 σ1 Hfire]; intros HI.
  - by eapply get_Inv.
  - unfold ServiceModule.getOrNull in Hget.
    destruct (ServiceModule.get _ _ _ σ0) as [[q σ2]|] eqn:Hq; [|done].
    simpl in Hget. injection Hget as <- <-.
    apply (Inv_newTask σ2 (OrNullAwait q)); [by eapply get_Inv|done].
  - by eapply dispose_Inv.
  - by eapply fire_Inv.
Qed.

Lemma reachable_Inv σ : ServiceModule.reachable modules null σ → Inv σ.
Proof.
  intros [w Hsteps].
  assert (Hgen : ∀ σ0, rtc (ServiceModule.step modules null) σ0 σ → Inv σ0 → Inv σ).
  { clear. induction 1; [done|]. intros HI. eauto using step_Inv. }
  apply (Hgen _ Hsteps), Inv_initial.
Qed.
End Resolution.

(** ** Singleton and transient factories *)

Section Lifecycles.
Context {W Value Exn : Type}.
Variable modules : module_ref → ServiceModule W Value Exn.
Variable null : Value.
Implicit Types (σ : Config W Value Exn) (f : ServiceFactory W Value Exn)
  (this : module_ref) (s : symbol) (p q r : pid) (ev : Event).

(** The calls that ran the constructor of the factory for [s], in order. *)
Definition constructing this s ev : option pid :=
  match ev with
  | EvConstruct this' s' r _ =>
      if decide (this' = this ∧ s' = s) then Some r else None
  | _ => None
  end.
Definition constructors σ this s : list pid :=
  omap (constructing this s) (trace σ).

Lemma elem_of_calls σ this s r :
  r ∈ calls σ this s ↔ EvGet this s r ∈ trace σ.
Proof.
  unfold calls. rewrite list_elem_of_omap. split.
  - intros (ev & Hev & Hcall). destruct ev; simplify_eq/=.
    case_decide as Heq; simplify_eq. by destruct Heq as [-> ->].
  - intros Hev. eexists. split; [done|]. simpl. by rewrite decide_True.
Qed.

Lemma elem_of_constructors σ this s r :
  r ∈ constructors σ this s ↔ ∃ q, EvConstruct this s r q ∈ trace σ.
Proof.
  unfold constructors. rewrite list_elem_of_omap. split.
  - intros (ev & Hev & Hcall). destruct ev; simplify_eq/=.
    case_decide as Heq; simplify_eq. destruct Heq as [-> ->]. by eexists.
  - intros [q Hev]. eexists. split; [done|]. simpl. by rewrite decide_True.
Qed.

Lemma constructors_length σ this s :
  length (constructors σ this s) = length (constructions σ this s).
Proof.
  unfold constructors, constructions.
  induction (trace σ) as [|ev evs IH]; [done|].
  destruct ev as [| this' s' r q |]; simpl; try done.
  destruct (decide (this' = this ∧ s' = s)); simpl; [by f_equal|done].
Qed.

Lemma NoDup_omap_finer {A B : Type} (g h : A → option B) (l : list A) :
  (∀ x y, h x = Some y → g x = Some y) → NoDup (omap g l) → NoDup (omap h l).
Proof.
  intros Hfine. induction l as [|x l IH]; [done|]. simpl.
  destruct (h x) as [y|] eqn:Hh.
  - rewrite (Hfine _ _ Hh). intros [Hnew Hnd]%NoDup_cons.
    apply NoDup_cons. split; [|by apply IH].
    rewrite list_elem_of_omap in *. intros (z & Hz & Hhz). apply Hnew.
    exists z. split; [done|]. by apply Hfine.
  - destruct (g x); [intros [_ Hnd]%NoDup_cons|]; by apply IH.
Qed.

Lemma NoDup_calls σ this s : Inv modules σ → NoDup (calls σ this s).
Proof.
  intros HI. apply (NoDup_omap_finer result); [|by destruct HI].
  intros [] y; simpl; try done. by case_decide.
Qed.

Lemma NoDup_constructors σ this s : Inv modules σ → NoDup (constructors σ this s).
Proof.
  intros HI. apply (NoDup_omap_finer caller); [|by destruct HI].
  intros [] y; simpl; try done. by case_decide.
Qed.

Lemma callOk_fulfilled σ this s r v f :
  callOk modules σ this s r → owner modules this s = Some f →
  outcomeOf σ r = Some (Fulfilled v) →
  ∃ q, returnedBy σ this f r q ∧ outcomeOf σ q = Some (Fulfilled v).
Proof.
  unfold callOk, outcomeOf. intros Hcall Hf Hr.
  destruct (tasks σ !! r) as [[]|]; simplify_eq.
  destruct Hcall as [[e [=]]|(f' & q & Hf' & Hret & Hq)].
  assert (f' = f) as -> by congruence. exists q. by rewrite Hq.
Qed.

(** A singleton factory: in every reachable state its constructor has run at
    most once, and the calls of [get] that have fulfilled all carry the
    outcome of that one run, which is the cached promise. *)
Lemma singleton_once σ this s f :
  ServiceModule.reachable modules null σ →
  owner modules this s = Some f → lifecycle f = singleton →
  length (constructions σ this s) ≤ 1
  ∧ ∀ r v, r ∈ calls σ this s → outcomeOf σ r = Some (Fulfilled v) →
      ∃ q, constructions σ this s = [q] ∧ outcomeOf σ q = Some (Fulfilled v).
Proof.
  intros HI%reachable_Inv Hf Hlife.
  pose proof (inv_single _ σ HI this s f Hf Hlife) as Hcount. split.
  - rewrite Hcount. destruct (cache σ !! (this, s)); lia.
  - intros r v Hr%elem_of_calls Hv.
    destruct (callOk_fulfilled σ this s r v f (inv_calls _ σ HI _ _ _ Hr) Hf Hv)
      as (q & Hret & Hq).
    unfold returnedBy in Hret. rewrite Hlife, (owner_symbol _ _ _ _ Hf) in Hret.
    exists q. split; [|done]. rewrite Hret in Hcount.
    apply (inv_cache _ σ HI) in Hret.
    destruct (constructions σ this s) as [|q' [|]]; simplify_eq/=.
    by apply list_elem_of_singleton in Hret as ->.
Qed.

(** A transient factory: every call of [get] that has fulfilled ran the
    constructor itself and carries the outcome of its own run; no run
    serves two calls, no call runs it twice, and every run belongs to a
    call. *)
Lemma oneShot_per_call σ this s f :
  ServiceModule.reachable modules null σ →
  owner modules this s = Some f → lifecycle f = oneShot →
  (∀ r v, r ∈ calls σ this s → outcomeOf σ r = Some (Fulfilled v) →
     ∃ q, EvConstruct this s r q ∈ trace σ ∧ outcomeOf σ q = Some (Fulfilled v))
  ∧ NoDup (constructions σ this s) ∧ NoDup (constructors σ this s)
  ∧ (∀ r, r ∈ constructors σ this s → r ∈ calls σ this s)
  ∧ length (constructions σ this s) ≤ length (calls σ this s)
  ∧ (Forall (fun r => ∃ v, outcomeOf σ r = Some (Fulfilled v)) (calls σ this s) →
     length (constructions σ this s) = length (calls σ this s)).
Proof.
  intros HI%reachable_Inv Hf Hlife.
  assert (Hown : ∀ r v, r ∈ calls σ this s → outcomeOf σ r = Some (Fulfilled v) →
     ∃ q, EvConstruct this s r q ∈ trace σ ∧ outcomeOf σ q = Some (Fulfilled v)).
  { intros r v Hr%elem_of_calls Hv.
    destruct (callOk_fulfilled σ this s r v f (inv_calls _ σ HI _ _ _ Hr) Hf Hv)
      as (q & Hret & Hq).
    unfold returnedBy in Hret. rewrite Hlife, (owner_symbol _ _ _ _ Hf) in Hret.
    by exists q. }
  assert (Hsub : ∀ r, r ∈ constructors σ this s → r ∈ calls σ this s).
  { intros r [q Hq]%elem_of_constructors. apply elem_of_calls.
    by apply (inv_construct _ σ HI) in Hq. }
  pose proof (NoDup_constructors σ this s HI) as Hnd.
  pose proof (NoDup_calls σ this s HI) as Hndc.
  split_and!; [done| |done|done| |].
  - apply (NoDup_omap_finer made); [|by destruct HI].
    intros [] y; simpl; try done. by case_decide.
  - rewrite <- constructors_length.
    by apply submseteq_length, NoDup_submseteq.
  - intros Hall. rewrite <- constructors_length. apply Nat.le_antisymm.
    + by apply submseteq_length, NoDup_submseteq.
    + apply submseteq_length, NoDup_submseteq; [done|].
      intros r Hr. rewrite Forall_forall in Hall. destruct (Hall r Hr) as [v Hv].
      destruct (Hown r v Hr Hv) as (q & Hq & _).
      apply elem_of_constructors. by exists q.
Qed.
End Lifecycles.

(** ** Settled promises and the order of settlement *)

Section Settled.
Context {W Value Exn : Type}.
Implicit Types (σ : Config W Value Exn) (p q r : pid).

(** Every settled promise is in the record of settlements. *)
Definition settledOk σ : Prop :=
  ∀ q o, tasks σ !! q = Some (Settled o) → q ∈ settlements σ.

Lemma settledOk_settle σ p o : settledOk σ → settledOk (settle p o σ).
Proof.
  intros H q o'. simpl. destruct (decide (q = p)) as [->|Hne]; [set_solver|].
  rewrite list_lookup_insert_ne by done. intros Hq%H. set_solver.
Qed.

Lemma settledOk_setTask σ p t :
  settledOk σ → (∀ o, t ≠ Settled o) → settledOk (setTask p t σ).
Proof.
  intros H Ht q o'. simpl. destruct (decide (q = p)) as [->|Hne].
  - intros Hq. apply list_lookup_insert_Some in Hq as [(_ & Heq & _)|[? _]];
      [by destruct (Ht o')|done].
  - rewrite list_lookup_insert_ne by done. apply H.
Qed.

Lemma settledOk_newTask σ t :
  settledOk σ → (∀ o, t ≠ Settled o) → settledOk (newTask t σ).2.
Proof.
  intros H Ht q o'. simpl. intros [Hq|[_ Hq]]%lookup_app_Some; [by eapply H|].
  destruct (q - length (tasks σ)); simplify_eq/=. by edestruct Ht.
Qed.

Lemma settledOk_same σ σ' :
  tasks σ' = tasks σ → settlements σ' = settlements σ →
  settledOk σ → settledOk σ'.
Proof. unfold settledOk. by intros -> ->. Qed.

End Settled.

Section Settlement.
Context {W Value Exn : Type}.
Variable modules : module_ref → ServiceModule W Value Exn.
Variable null : Value.
Implicit Types (σ : Config W Value Exn) (f : ServiceFactory W Value Exn)
  (this : module_ref) (s : symbol) (p q r : pid) (ev : Event).

Lemma get__settledOk fuel this key σ p σ' :
  settledOk σ → ServiceModule.get_ modules fuel this key σ = Some (p, σ') →
  settledOk σ'.
Proof.
  revert this key σ p σ'.
  induction fuel as [|fuel IH]; intros this key σ p σ' HI; rewrite get__unfold;
    destruct (owner modules this (symbol_of key)) as [f|] eqn:Hf; try done.
  - intros [= <- <-]. apply settledOk_settle.
    apply (settledOk_same (newTask Pending σ).2); [done..|].
    by apply settledOk_newTask.
  - destruct (ServiceModule.mapState _ _ σ) as [[deps σ1]|] eqn:Hmap; [|done].
    simpl. intros [= <- <-].
    apply (settledOk_same (newTask (GetAwait this f deps) σ1).2); [done..|].
    apply settledOk_newTask; [|done]. revert HI. revert Hmap.
    apply (mapState_preserves (fun σ σ' => settledOk σ → settledOk σ')); [auto..|].
    intros x σ2 y σ3.
    apply (resolveDependency_preserves (fun σ σ' => settledOk σ → settledOk σ'));
      [auto|].
    intros key' σ4 q σ5 Hget HI'. by eapply IH.
  - intros [= <- <-]. apply settledOk_settle.
    apply (settledOk_same (newTask Pending σ).2); [done..|].
    by apply settledOk_newTask.
Qed.

Lemma run_settledOk prog p σ σ' :
  settledOk σ → ServiceModule.run modules prog p σ = Some σ' → settledOk σ'.
Proof.
  revert σ σ'. induction prog as [v|e|action k IH|s key k IH];
    intros σ σ' HI; simpl.
  - intros [= <-]. by apply settledOk_settle.
  - intros [= <-]. by apply settledOk_settle.
  - apply IH. by apply (settledOk_same σ).
  - unfold ServiceModule.ServiceSelector_get, ServiceModule.get.
    destruct (ServiceModule.get_ _ _ _ _ σ) as [[r σ1]|] eqn:Hget; [|done].
    simpl. intros [= <-]. apply settledOk_setTask; [|done].
    by eapply get__settledOk.
Qed.

Lemma initialize_settledOk this f p args σ q σ' :
  settledOk σ →
  ServiceModule.initialize modules this f p args σ = Some (q, σ') → settledOk σ'.
Proof.
  intros HI. unfold ServiceModule.initialize.
  assert (Hinvoke : ∀ cached,
    ServiceModule.invoke modules this f p args cached σ = Some (q, σ') →
    settledOk σ').
  { intros cached. rewrite invoke_unfold. cbv zeta.
    destruct (ServiceModule.run _ _ _ _) as [σ4|] eqn:Hrun; [|done]. simpl.
    intros [= <- <-]. revert Hrun. apply run_settledOk.
    apply (settledOk_same (newTask Pending σ).2); [by destruct cached..|].
    by apply settledOk_newTask. }
  destruct (lifecycle f); [by apply Hinvoke|].
  destruct (cache σ !! _); [by intros [= <- <-]|by apply Hinvoke].
Qed.

Lemma dispose_frame this scope_ σ σ' thrown :
  ServiceModule.dispose modules this scope_ σ = (σ', thrown) →
  tasks σ' = tasks σ ∧ cache σ' = cache σ ∧ settlements σ' = settlements σ
  ∧ omap caller (trace σ') = omap caller (trace σ).
Proof.
  unfold ServiceModule.dispose.
  generalize (match scope_ with
              | Some s => filter (fun f => scope f = Some s) (factories (modules this))
              | None => factories (modules this)
              end).
  intros fs. revert σ. induction fs as [|f fs IH]; intros σ; simpl.
  - by intros [= <- _].
  - destruct (dispose f) as [hook|]; [|by apply IH].
    destruct (hook (world σ)) as [w [e|]].
    + intros [= <- _]. simpl. rewrite omap_app. simpl. by rewrite app_nil_r.
    + intros (? & ? & ? & Hc)%IH. simpl in *. split_and!; [done..|].
      rewrite Hc, omap_app. simpl. by rewrite app_nil_r.
Qed.

Lemma step_settledOk σ σ' :
  settledOk σ → ServiceModule.step modules null σ σ' → settledOk σ'.
Proof.
  intros HI Hstep. revert HI.
  destruct Hstep as [this key σ0 p σ1 Hget|this key σ0 p σ1 Hget
                    |this scope_ σ0 σ1 thrown Hd|p σ0 σ1 Hfire]; intros HI.
  - by eapply get__settledOk.
  - unfold ServiceModule.getOrNull, ServiceModule.get in Hget.
    destruct (ServiceModule.get_ _ _ _ _ σ0) as [[q σ2]|] eqn:Hq; [|done].
    simpl in Hget. injection Hget as <- <-.
    apply settledOk_newTask; [by eapply get__settledOk|done].
  - apply dispose_frame in Hd as (Ht & _ & Hs & _). by apply (settledOk_same σ0).
  - unfold ServiceModule.fire in Hfire.
    destruct (tasks σ0 !! p) as [[o| |this f deps|src|k awaited|src]|]; try done.
    + destruct (firstRejected deps σ0).
      { injection Hfire as <-. by apply settledOk_settle. }
      destruct (allFulfilled deps σ0) as [args|]; [|done]. simpl in Hfire.
      destruct (ServiceModule.initialize _ _ _ _ _ _) as [[q σ2]|] eqn:Hinit;
        [|done]. injection Hfire as <-.
      apply settledOk_setTask; [|done].
      apply initialize_settledOk in Hinit; [done|]. by apply settledOk_setTask.
    + destruct (outcomeOf σ0 src); [|done]. injection Hfire as <-.
      by apply settledOk_settle.
    + destruct (outcomeOf σ0 awaited); [|done]. by eapply run_settledOk.
    + destruct (outcomeOf σ0 src) as [[v|[]]|]; try done; injection Hfire as <-;
        by apply settledOk_settle.
Qed.

Lemma reachable_settledOk σ :
  ServiceModule.reachable modules null σ → settledOk σ.
Proof.
  intros [w Hsteps].
  assert (Hgen : ∀ σ0, rtc (ServiceModule.step modules null) σ0 σ →
                       settledOk σ0 → settledOk σ).
  { clear. induction 1; [done|]. intros HI. eauto using step_settledOk. }
  apply (Hgen _ Hsteps). by intros q o.
Qed.
End Settlement.

(** ** What a step keeps *)

Section Steps.
Context {W Value Exn : Type}.
Variable modules : module_ref → ServiceModule W Value Exn.
Variable null : Value.
Implicit Types (σ : Config W Value Exn) (f : ServiceFactory W Value Exn)
  (this : module_ref) (s : symbol) (p q r : pid) (ev : Event).

Lemma initialize_frame this f p args σ q σ' :
  ServiceModule.initialize modules this f p args σ = Some (q, σ') →
  (∀ i t, tasks σ !! i = Some t → tasks σ' !! i = Some t)
  ∧ (∀ r, r ∈ omap caller (trace σ') → r ∈ omap caller (trace σ) ∨ r = p).
Proof.
  unfold ServiceModule.initialize.
  assert (Hinvoke : ∀ cached,
    ServiceModule.invoke modules this f p args cached σ = Some (q, σ') →
    (∀ i t, tasks σ !! i = Some t → tasks σ' !! i = Some t)
    ∧ (∀ r, r ∈ omap caller (trace σ') → r ∈ omap caller (trace σ) ∨ r = p)).
  { intros cached. rewrite invoke_unfold. cbv zeta.
    destruct (ServiceModule.run _ _ _ _) as [σ4|] eqn:Hrun; [|done]. simpl.
    intros [= <- <-]. apply run_evolves in Hrun. split.
    - intros i t Hi. apply (ev_tasks _ _ _ Hrun).
      + apply lookup_lt_Some in Hi. lia.
      + destruct cached; simpl; by apply lookup_app_l_Some.
    - intros r. rewrite (evolves_callers _ _ _ Hrun).
      destruct cached; simpl; rewrite omap_app; simpl; set_solver. }
  destruct (lifecycle f); [by apply Hinvoke|].
  destruct (cache σ !! _); [|by apply Hinvoke].
  intros [= <- <-]. split; auto.
Qed.

(** A settled promise stays as it is, and a constructor only runs for a
    call that was waiting for its dependencies. *)
Lemma step_keeps σ σ' :
  ServiceModule.step modules null σ σ' →
  (∀ i o, tasks σ !! i = Some (Settled o) → tasks σ' !! i = Some (Settled o))
  ∧ (∀ r, r ∈ omap caller (trace σ') →
          r ∈ omap caller (trace σ)
          ∨ ∃ this f deps, tasks σ !! r = Some (GetAwait this f deps)).
Proof.
  intros [this key σ0 p σ1 Hget|this key σ0 p σ1 Hget
         |this scope_ σ0 σ1 thrown Hd|p σ0 σ1 Hfire].
  - apply get_evolves in Hget as [Hev _]. split.
    + intros i o Hi. apply (ev_tasks _ _ _ Hev); [by intros []|done].
    + intros r. rewrite (evolves_callers _ _ _ Hev). auto.
  - unfold ServiceModule.getOrNull in Hget.
    destruct (ServiceModule.get _ _ _ σ0) as [[q σ2]|] eqn:Hq; [|done].
    simpl in Hget. injection Hget as <- <-.
    apply get_evolves in Hq as [Hev _]. split.
    + intros i o Hi. simpl. apply lookup_app_l_Some.
      apply (ev_tasks _ _ _ Hev); [by intros []|done].
    + intros r. simpl. rewrite (evolves_callers _ _ _ Hev). auto.
  - apply dispose_frame in Hd as (Ht & _ & _ & Hc). rewrite Ht, Hc. auto.
  - unfold ServiceModule.fire in Hfire.
    destruct (tasks σ0 !! p) as [[o| |this f deps|src|k awaited|src]|] eqn:Hp;
      try done.
    + destruct (firstRejected deps σ0).
      { injection Hfire as <-. simpl. split; [|auto].
        intros i o Hi. rewrite list_lookup_insert_ne; [done|congruence]. }
      destruct (allFulfilled deps σ0) as [args|]; [|done]. simpl in Hfire.
      destruct (ServiceModule.initialize _ _ _ _ _ _) as [[q σ2]|] eqn:Hinit;
        [|done]. injection Hfire as <-.
      apply initialize_frame in Hinit as [Htasks Hcallers]. split.
      * intros i o Hi. simpl.
        assert (i ≠ p) by congruence.
        rewrite list_lookup_insert_ne by done. apply Htasks. simpl.
        by rewrite list_lookup_insert_ne.
      * intros r [?| ->]%Hcallers; [by left|right]. eauto.
    + destruct (outcomeOf σ0 src); [|done]. injection Hfire as <-. simpl.
      split; [|auto].
      intros i o' Hi. rewrite list_lookup_insert_ne; [done|congruence].
    + destruct (outcomeOf σ0 awaited); [|done]. apply run_evolves in Hfire.
      split.
      * intros i o' Hi. apply (ev_tasks _ _ _ Hfire); [congruence|done].
      * intros r. rewrite (evolves_callers _ _ _ Hfire). auto.
    + assert (Hany : ∀ o', (∀ i o, tasks σ0 !! i = Some (Settled o) →
                       tasks (settle p o' σ0) !! i = Some (Settled o))).
      { intros o' i o Hi. simpl.
        rewrite list_lookup_insert_ne; [done|congruence]. }
      destruct (outcomeOf σ0 src) as [[v|[]]|]; try done; injection Hfire as <-;
        (split; [apply Hany|auto]).
Qed.


End Steps.

(** ** [Promise.all] *)

Section PromiseAll.
Context {W Value Exn : Type}.
Implicit Types (σ : Config W Value Exn) (p q r : pid).

Lemma firstRejected_Some deps σ q e :
  settledOk σ → q ∈ promisesOf deps → rejectionOf σ q = Some e →
  ∃ q' e', firstRejected deps σ = Some e' ∧ q' ∈ promisesOf deps
           ∧ rejectionOf σ q' = Some e'.
Proof.
  intros Hok Hq He. unfold firstRejected.
  assert (Hin : q ∈ filter (fun p => p ∈ promisesOf deps
                                    ∧ is_Some (rejectionOf σ p)) (settlements σ)).
  { apply list_elem_of_filter. split; [by split|].
    unfold rejectionOf, outcomeOf in He.
    destruct (tasks σ !! q) as [[[]| | | | |]|] eqn:Hq'; simplify_eq.
    by eapply Hok. }
  destruct (filter _ _) as [|q' l] eqn:Hfilter; [by apply elem_of_nil in Hin|].
  assert (Hq' : q' ∈ filter (fun p => p ∈ promisesOf deps
                                     ∧ is_Some (rejectionOf σ p)) (settlements σ))
    by (rewrite Hfilter; set_solver).
  apply list_elem_of_filter in Hq' as [[Hdep [e' He']] _].
  exists q', e'. by rewrite He'.
Qed.

Lemma firstRejected_None deps σ :
  (∀ q, q ∈ promisesOf deps → rejectionOf σ q = None) →
  firstRejected deps σ = None.
Proof.
  intros Hnone. unfold firstRejected.
  destruct (filter _ _) as [|q' l] eqn:Hfilter; [done|].
  assert (Hq' : q' ∈ filter (fun p => p ∈ promisesOf deps
                                     ∧ is_Some (rejectionOf σ p)) (settlements σ))
    by (rewrite Hfilter; set_solver).
  apply list_elem_of_filter in Hq' as [[Hdep [e' He']] _].
  rewrite Hnone in He'; done.
Qed.

(** The values [Promise.all] fulfils with, element by element. *)
Definition resolvedAs σ (a : Awaited) (x : Resolved Value) : Prop :=
  match a with
  | ASelector sel => x = RSelector sel
  | APromise q => ∃ v, outcomeOf σ q = Some (Fulfilled v) ∧ x = RValue v
  end.

Lemma allFulfilled_Some deps σ args :
  allFulfilled deps σ = Some args ↔ Forall2 (resolvedAs σ) deps args.
Proof.
  unfold allFulfilled. rewrite mapM_Some.
  split; intros H; (eapply Forall2_impl; [exact H|]); clear H.
  - intros [sel|q] x; simpl; [by intros [= <-]|].
    destruct (outcomeOf σ q) as [[v|]|]; intros [= <-]. by exists v.
  - intros [sel|q] x; simpl; [by intros ->|]. by intros (v & -> & ->).
Qed.

Lemma resolvedAs_not_rejected deps σ args q :
  Forall2 (resolvedAs σ) deps args → q ∈ promisesOf deps →
  rejectionOf σ q = None.
Proof.
  intros Hall (a & Ha & Hq)%list_elem_of_omap.
  destruct a as [|q']; simplify_eq/=.
  apply list_elem_of_lookup in Ha as [i Hi].
  destruct (Forall2_lookup_l _ _ _ _ _ Hall Hi) as (x & _ & v & Hv & _).
  unfold rejectionOf. by rewrite Hv.
Qed.
End PromiseAll.

(** ** The calls of [get] *)

Section Calls.
Context {W Value Exn : Type}.
Variable modules : module_ref → ServiceModule W Value Exn.
Variable null : Value.
Implicit Types (σ : Config W Value Exn) (f : ServiceFactory W Value Exn)
  (this : module_ref) (s : symbol) (p q r : pid) (ev : Event)
  (key : ServiceKey).

(** *** [get] returns *)

Lemma mapState_total {A B : Type}
    (g : A → Config W Value Exn → option (B * Config W Value Exn)) xs σ :
  (∀ x σ, x ∈ xs → is_Some (g x σ)) → is_Some (ServiceModule.mapState g xs σ).
Proof.
  revert σ. induction xs as [|x xs IH]; intros σ Hg; simpl; [by eexists|].
  destruct (Hg x σ) as [[y σ1] ->]; [set_solver|]. simpl.
  destruct (IH σ1) as [[ys σ2] ->]; [intros; apply Hg; set_solver|].
  by eexists.
Qed.

Lemma owner_elem this s f :
  owner modules this s = Some f → f ∈ factories (modules this).
Proof. intros [H _]%find_some. by apply list_elem_of_In. Qed.

Lemma get__total (rank : symbol → nat) fuel this key σ :
  (∀ s t, dependsDirectly (factories (modules this)) s t → rank t < rank s) →
  (is_Some (owner modules this (symbol_of key)) → rank (symbol_of key) < fuel) →
  is_Some (ServiceModule.get_ modules fuel this key σ).
Proof.
  intros Hrank. revert key σ.
  induction fuel as [|fuel IH]; intros key σ Hfuel; rewrite get__unfold;
    destruct (owner modules this (symbol_of key)) as [f|] eqn:Hf;
    try by eexists.
  { assert (rank (symbol_of key) < 0) by eauto. lia. }
  destruct (mapState_total
              (ServiceModule.resolveDependency
                 (ServiceModule.get_ modules fuel) this) (dependsOn f) σ)
    as [[deps σ1] ->]; [|by eexists].
  intros dependencyKey σ' Hdep. unfold ServiceModule.resolveDependency.
  destruct (values dependencyKey) eqn:Hvalues; [by eexists|].
  destruct (IH dependencyKey σ') as [[q σ2] ->]; [|by eexists].
  intros [g Hg]. assert (rank (symbol_of key) < S fuel) by eauto.
  assert (rank (symbol_of dependencyKey) < rank (symbol_of key)); [|lia].
  apply Hrank. exists f, dependencyKey.
  split_and!; [by eapply owner_elem|by eapply owner_symbol| |done|].
  - unfold expandedDeps. apply list_elem_of_In, in_flat_map.
    exists dependencyKey. split; [by apply list_elem_of_In|].
    unfold keysToCheck. rewrite Hvalues. by left.
  - exists g. split; [by eapply owner_elem|by eapply owner_symbol].
Qed.

(** In a module made by [from], [get] returns a promise. *)
Lemma get_total this key σ :
  validModule (modules this) → is_Some (ServiceModule.get modules this key σ).
Proof.
  intros (_ & _ & rank & Hbound & Hrank)%validModule_inv.
  apply (get__total rank); [done|]. intros [f Hf].
  rewrite <- (owner_symbol _ _ _ _ Hf).
  specialize (Hbound f (owner_elem _ _ _ Hf)). lia.
Qed.

Lemma run_total prog p σ :
  (∀ this, validModule (modules this)) →
  is_Some (ServiceModule.run modules prog p σ).
Proof.
  intros Hvalid. revert σ.
  induction prog as [v|e|action k IH|sel key k IH]; intros σ; simpl;
    try by eexists.
  - apply IH.
  - unfold ServiceModule.ServiceSelector_get.
    destruct (get_total (selector_module sel) key σ) as [[r σ1] ->]; [done|].
    by eexists.
Qed.

Lemma initialize_total this f p args σ :
  (∀ this, validModule (modules this)) →
  is_Some (ServiceModule.initialize modules this f p args σ).
Proof.
  intros Hvalid. unfold ServiceModule.initialize.
  assert (Hinvoke : ∀ cached,
            is_Some (ServiceModule.invoke modules this f p args cached σ)).
  { intros cached. rewrite invoke_unfold. cbv zeta.
    destruct (run_total (construct f args) (length (tasks σ))
      (if cached
       then setCache (this, symbol_of (provides f)) (length (tasks σ))
              (log (EvConstruct this (symbol_of (provides f)) p (length (tasks σ)))
                   (newTask Pending σ).2)
       else log (EvConstruct this (symbol_of (provides f)) p (length (tasks σ)))
                (newTask Pending σ).2) Hvalid) as [σ4 ->].
    by eexists. }
  destruct (lifecycle f); [done|]. destruct (cache σ !! _); [by eexists|done].
Qed.

(** *** What [get] leaves behind *)

(** The element of the array given to [Promise.all] for a dependency key. *)
Definition dependencyOf σ this (dependencyKey : ServiceKey) (a : Awaited) : Prop :=
  match values dependencyKey with
  | Some _ =>
      a = ASelector {| selector_module := this; selector_key := dependencyKey |}
  | None => ∃ q, a = APromise q ∧ EvGet this (symbol_of dependencyKey) q ∈ trace σ
  end.

Lemma get__logged fuel this key σ p σ' :
  ServiceModule.get_ modules fuel this key σ = Some (p, σ') →
  EvGet this (symbol_of key) p ∈ trace σ'.
Proof.
  rewrite get__unfold. destruct (owner _ _ _).
  - destruct fuel; [done|].
    destruct (ServiceModule.mapState _ _ _) as [[deps σ1]|]; [|done]. simpl.
    intros [= <- <-]. simpl. set_solver.
  - intros [= <- <-]. simpl. set_solver.
Qed.

Lemma mapState_dependencies fuel this keys σ deps σ' :
  ServiceModule.mapState
    (ServiceModule.resolveDependency (ServiceModule.get_ modules fuel) this)
    keys σ = Some (deps, σ') →
  Forall2 (dependencyOf σ' this) keys deps.
Proof.
  revert σ deps. induction keys as [|key keys IH]; intros σ deps; simpl.
  - by intros [= <- <-].
  - destruct (ServiceModule.resolveDependency _ _ _ _) as [[a σ1]|] eqn:Ha;
      [|done]. simpl.
    destruct (ServiceModule.mapState _ keys σ1) as [[deps' σ2]|] eqn:Hrest;
      [|done]. simpl. intros [= <- <-]. constructor; [|by eapply IH].
    unfold ServiceModule.resolveDependency in Ha. unfold dependencyOf.
    destruct (values key); [by injection Ha as <- <-|].
    destruct (ServiceModule.get_ _ _ _ _ σ) as [[q σ3]|] eqn:Hget; [|done].
    simpl in Ha. injection Ha as <- <-. exists q. split; [done|].
    apply get__logged in Hget.
    assert (Hev : evolves (fun _ => False) σ3 σ2).
    { revert Hrest. apply mapState_preserves.
      - apply evolves_refl.
      - apply evolves_trans.
      - intros x σ4 y σ5. apply resolveDependency_preserves.
        + apply evolves_refl.
        + intros key' σ6 q' σ7 Hget'. by apply get__evolves in Hget' as [? _]. }
    by eapply evolves_in_trace.
Qed.

Lemma get_found this key σ p σ' f :
  owner modules this (symbol_of key) = Some f →
  ServiceModule.get modules this key σ = Some (p, σ') →
  ∃ deps, tasks σ' !! p = Some (GetAwait this f deps)
          ∧ Forall2 (dependencyOf σ' this) (dependsOn f) deps.
Proof.
  intros Hf. unfold ServiceModule.get. rewrite get__unfold, Hf.
  destruct (ServiceModule.mapState _ _ _) as [[deps σ1]|] eqn:Hmap; [|done].
  simpl. intros [= <- <-]. exists deps. split.
  - simpl. by apply list_lookup_middle.
  - apply mapState_dependencies in Hmap. eapply Forall2_impl; [exact Hmap|].
    intros x a. unfold dependencyOf. destruct (values x); [done|].
    intros (q & -> & Hq). exists q. split; [done|]. simpl. set_solver.
Qed.

Lemma get_missing this key σ :
  owner modules this (symbol_of key) = None →
  ∃ σ', ServiceModule.get modules this key σ = Some (length (tasks σ), σ')
        ∧ outcomeOf σ' (length (tasks σ))
          = Some (Rejected (ServiceModule.notFound key))
        ∧ omap caller (trace σ') = omap caller (trace σ).
Proof.
  intros Hf. unfold ServiceModule.get. rewrite get__unfold, Hf.
  eexists. split; [done|]. unfold outcomeOf. simpl.
  rewrite insert_last, list_lookup_middle by done.
  split; [done|]. rewrite omap_app. simpl. by rewrite app_nil_r.
Qed.

(** *** [get] resumes *)

(** Every dependency has fulfilled: [initialize] is called with the values,
    in the order of [dependsOn], and the promise of the call follows the
    promise it returns. *)
Lemma fire_resolved p σ this f deps args :
  (∀ this, validModule (modules this)) →
  tasks σ !! p = Some (GetAwait this f deps) →
  Forall2 (resolvedAs σ) deps args →
  ∃ q σ1,
    ServiceModule.initialize modules this f p args (setTask p Pending σ)
      = Some (q, σ1)
    ∧ ServiceModule.fire modules null p σ = Some (setTask p (Adopt q) σ1).
Proof.
  intros Hvalid Hp Hall. unfold ServiceModule.fire. rewrite Hp.
  rewrite firstRejected_None
    by (intros q; by eapply resolvedAs_not_rejected).
  rewrite (proj2 (allFulfilled_Some deps σ args) Hall). simpl.
  destruct (initialize_total this f p args (setTask p Pending σ) Hvalid)
    as [[q σ1] Hinit].
  exists q, σ1. by rewrite Hinit.
Qed.

End Calls.

(** ** [getOrNull], [dispose] and the event loop *)

Section Methods.
Context {W Value Exn : Type}.
Variable modules : module_ref → ServiceModule W Value Exn.
Variable null : Value.
Implicit Types (σ : Config W Value Exn) (f : ServiceFactory W Value Exn)
  (fs : list (ServiceFactory W Value Exn))
  (this : module_ref) (s : symbol) (p q r : pid) (ev : Event)
  (key : ServiceKey).

Definition isNotFound (e : Error Exn) : bool :=
  match e with ServiceFactoryNotFoundError _ => true | _ => false end.

Lemma getOrNull_get this key σ :
  ServiceModule.getOrNull modules this key σ
  = '(src, σ1) ← ServiceModule.get modules this key σ;
    Some (length (tasks σ1), (newTask (OrNullAwait src) σ1).2).
Proof. unfold ServiceModule.getOrNull. by destruct (ServiceModule.get _ _ _ _) as [[]|]. Qed.

Lemma fire_orNull p src σ :
  tasks σ !! p = Some (OrNullAwait src) →
  ServiceModule.fire modules null p σ
  = match outcomeOf σ src with
    | None => None
    | Some (Fulfilled v) => Some (settle p (Fulfilled v) σ)
    | Some (Rejected e) =>
        if isNotFound e then Some (settle p (Fulfilled null) σ)
        else Some (settle p (Rejected e) σ)
    end.
Proof.
  intros Hp. unfold ServiceModule.fire. rewrite Hp.
  by destruct (outcomeOf σ src) as [[v|[]]|].
Qed.

(** The factories [dispose] selects, and those of them with a disposer. *)
Definition selectedFor (scope_ : option ServiceScope) fs :=
  match scope_ with
  | Some s => filter (fun f => scope f = Some s) fs
  | None => fs
  end.

Definition withDisposer fs := filter (fun f => is_Some (dispose f)) fs.

Definition disposals this fs : list Event :=
  (fun f => EvDispose this (symbol_of (provides f))) <$> fs.

Lemma dispose_spec this scope_ σ σ' thrown :
  ServiceModule.dispose modules this scope_ σ = (σ', thrown) →
  ∃ invoked,
    trace σ' = trace σ ++ disposals this invoked
    ∧ invoked `prefix_of` withDisposer (selectedFor scope_ (factories (modules this)))
    ∧ (thrown = None →
       invoked = withDisposer (selectedFor scope_ (factories (modules this))))
    ∧ (∀ e, thrown = Some e →
         ∃ f hook w, last invoked = Some f ∧ dispose f = Some hook
                     ∧ (hook w).2 = Some e)
    ∧ tasks σ' = tasks σ ∧ cache σ' = cache σ.
Proof.
  unfold ServiceModule.dispose.
  change (match scope_ with
          | Some s => filter (fun f => scope f = Some s) (factories (modules this))
          | None => factories (modules this)
          end) with (selectedFor scope_ (factories (modules this))).
  generalize (selectedFor scope_ (factories (modules this))).
  intros fs. revert σ. induction fs as [|f fs IH]; intros σ; simpl.
  - intros [= <- <-]. exists []. simpl. rewrite app_nil_r. by split_and!.
  - unfold withDisposer. rewrite filter_cons.
    destruct (dispose f) as [hook|] eqn:Hhook.
    + rewrite decide_True by by eexists.
      destruct (hook (world σ)) as [w [e|]] eqn:Hrun.
      * intros [= <- <-]. exists [f]. simpl. split_and!; try done.
        -- by apply prefix_cons, prefix_nil.
        -- intros e' [= <-]. exists f, hook, (world σ). by rewrite Hrun.
      * intros (invoked & Htrace & Hprefix & Hall & Hthrown & Ht & Hc)%IH.
        exists (f :: invoked). simpl in *. split_and!; try done.
        -- by rewrite Htrace, <- app_assoc.
        -- by apply prefix_cons.
        -- intros Hnone. by rewrite (Hall Hnone).
        -- intros e' He'. destruct (Hthrown e' He') as (g & hook' & w' & Hlast & ?).
           exists g, hook', w'. split; [|done].
           destruct invoked; [done|]. by rewrite last_cons, Hlast.
    + rewrite decide_False by (by intros [? [=]]). apply IH.
Qed.

(** The event loop only takes steps of the program. *)
Lemma next_step σ σ' :
  ServiceModule.next modules null σ = Some σ' →
  ServiceModule.step modules null σ σ'.
Proof.
  unfold ServiceModule.next. generalize (seq 0 (length (tasks σ))).
  intros ps. induction ps as [|p ps IH]; simpl; [done|].
  destruct (ServiceModule.fire modules null p σ) as [σ1|] eqn:Hfire; [|done].
  intros [= <-]. by eapply ServiceModule.step_fire.
Qed.

Lemma drain_steps n σ :
  rtc (ServiceModule.step modules null) σ (ServiceModule.drain modules null n σ).
Proof.
  revert σ. induction n as [|n IH]; intros σ; simpl; [done|].
  destruct (ServiceModule.next modules null σ) as [σ'|] eqn:Hnext; [|done].
  eapply rtc_l; [by apply next_step|apply IH].
Qed.

Lemma reachable_step σ σ' :
  ServiceModule.reachable modules null σ →
  rtc (ServiceModule.step modules null) σ σ' →
  ServiceModule.reachable modules null σ'.
Proof. intros [w Hw] Hsteps. exists w. by etrans. Qed.

Lemma reachable_get this key σ p σ' :
  ServiceModule.reachable modules null σ →
  ServiceModule.get modules this key σ = Some (p, σ') →
  ServiceModule.reachable modules null σ'.
Proof.
  intros Hr Hget. apply (reachable_step σ); [done|].
  apply rtc_once. by eapply ServiceModule.step_get.
Qed.

Lemma reachable_initial w : ServiceModule.reachable modules null (initial w).
Proof. by exists w. Qed.
End Methods.

(** * The scenarios of the specification and of the test suite *)

Local Open Scope string_scope.
Local Open Scope list_scope.

(** The application state is a counter, values and thrown values are
    strings, and there is one module object. *)
Abbreviation xFactory := (ServiceFactory nat string string).
Abbreviation xModule := (ServiceModule nat string string).

Definition Key1 : ServiceKey := Key 1 "Key1".
Definition Key2 : ServiceKey := Key 2 "Key2".
Definition Key3 : ServiceKey := Key 3 "Key3".

Definition factory (lifecycle_ : Lifecycle) (provides_ : ServiceKey)
    (dependsOn_ : list ServiceKey)
    (initialize_ : list (Resolved string) → Prog nat string string) : xFactory :=
  {| provides := provides_; dependsOn := dependsOn_; scope := None;
     lifecycle := lifecycle_; construct := initialize_; dispose := None |}.

Definition moduleOf (fs : list xFactory) : module_ref → xModule :=
  fun _ => {| factories := fs |}.



(** [provides: Key1, dependsOn: [Key2]], with [Key2] not registered. *)
Definition needsKey2 : xFactory :=
  factory oneShot Key1 [Key2] (fun _ => Return "value1").

Definition factory1a : xFactory :=
  factory oneShot Key1 [] (fun _ => Return "value1a").
Definition factory1b : xFactory :=
  factory oneShot Key1 [] (fun _ => Return "value1b").

(** The calls [get(key)] for the keys of [keys] are made from the state
    [σ], one after the other, before any promise job runs. *)
Definition callGets (fs : list xFactory) (keys : list ServiceKey)
    (σ : Config nat string string) : Config nat string string :=
  foldl (fun σ key =>
           match ServiceModule.get (moduleOf fs) 0 key σ with
           | Some (_, σ') => σ'
           | None => σ
           end) σ keys.


(** The calls are made and then the event loop is drained. *)
Definition thenGets (fs : list xFactory) (keys : list ServiceKey)
    (σ : Config nat string string) : Config nat string string :=
  ServiceModule.drain (moduleOf fs) "null" 64 (callGets fs keys σ).

Definition afterGets (fs : list xFactory) (keys : list ServiceKey)
  : Config nat string string :=
  thenGets fs keys (initial 0).

(** The same for one call of [getOrNull(key)]. *)
Definition afterGetOrNull (fs : list xFactory) (key : ServiceKey)
  : Config nat string string :=
  ServiceModule.drain (moduleOf fs) "null" 64
    match ServiceModule.getOrNull (moduleOf fs) 0 key (initial 0) with
    | Some (_, σ') => σ'
    | None => initial 0
    end.

Lemma callGets_reachable fs keys σ :
  ServiceModule.reachable (moduleOf fs) "null" σ →
  ServiceModule.reachable (moduleOf fs) "null" (callGets fs keys σ).
Proof.
  unfold callGets. revert σ.
  induction keys as [|key keys IH]; intros σ Hσ; simpl; [done|].
  apply IH.
  destruct (ServiceModule.get (moduleOf fs) 0 key σ) as [[p σ']|] eqn:Hget;
    [|done].
  by eapply reachable_get.
Qed.


Lemma thenGets_reachable fs keys σ :
  ServiceModule.reachable (moduleOf fs) "null" σ →
  ServiceModule.reachable (moduleOf fs) "null" (thenGets fs keys σ).
Proof.
  intros Hσ. unfold thenGets. eapply reachable_step; [|apply drain_steps].
  by apply callGets_reachable.
Qed.

Lemma afterGets_reachable fs keys :
  ServiceModule.reachable (moduleOf fs) "null" (afterGets fs keys).
Proof. apply thenGets_reachable, reachable_initial. Qed.

Local Close Scope string_scope.

(** * The claims *)

Local Open Scope string_scope.
Local Open Scope list_scope.

Lemma checked_acyclic {W Value Exn : Type} (fs : list (ServiceFactory W Value Exn)) :
  distinctKeys fs → checkCircularDependencies (Exn := Exn) fs = Ok tt →
  ¬ hasCycle fs.
Proof.
  intros Hdistinct Hcheck [s Hcycle].
  apply checkCircularDependencies_Ok in Hcheck as (rank & _ & Hrank); [|done].
  pose proof (rank_tc fs rank s s Hrank Hcycle). lia.
Qed.




(** C3, as stated, fails: the message has two spaces before the first
    arrow (one from the template, one from the line of the key), so it does
    not contain the text of the claim, which has one. *)
Lemma missing_message_has_two_spaces :
  ServiceModule.from [ServiceModule.EntryFactory needsKey2]
  = Throw (ServiceModuleInitError
             ("Key1 will fail because it depends on:" +:+ LF +:+ "  -> Key2"))
  ∧ index 0 ("Key1 will fail because it depends on:" +:+ LF +:+ " -> Key2")
          ("Key1 will fail because it depends on:" +:+ LF +:+ "  -> Key2")
    = None.
Proof. split; by vm_compute. Qed.

(** C3 (amended): for every factory set that passes the cycle check and in
    which some factory depends (directly or through the members of a
    selector key) on keys no factory provides, [from] fails with a
    module-init error for the first such factory of the module; the message
    is its label, " will fail because it depends on:", a line feed, a space,
    and the lines " -> label" of every missing key it needs, in the order of
    its dependencies, joined by line feeds. A factory that provides Key1
    and depends on the unregistered Key2 fails with "Key1 will fail because
    it depends on:\n  -> Key2", two spaces before the arrow. *)
Theorem from_rejects_missing :
  (∀ (W Value Exn : Type) (entries : list (@ServiceModule.Entry W Value Exn)) f,
     let fs := ServiceModule.lastWins (ServiceModule.flatten entries) in
     ¬ hasCycle fs → find (hasMissing fs) fs = Some f →
     ServiceModule.from entries
     = Throw (ServiceModuleInitError
                (name (provides f) +:+ " will fail because it depends on:"
                 +:+ LF +:+ " "
                 +:+ join LF (map (fun key => " -> " +:+ name key)
                                  (missingDependencies f fs))))
     ∧ missingDependencies f fs ≠ []
     ∧ ∀ key, key ∈ missingDependencies f fs
              ↔ key ∈ expandedDeps f ∧ ¬ provided fs (symbol_of key))
  ∧ ServiceModule.from [ServiceModule.EntryFactory needsKey2]
    = Throw (ServiceModuleInitError
               ("Key1 will fail because it depends on:" +:+ LF +:+ "  -> Key2")).
Proof.
  split; [|by vm_compute].
  intros W Value Exn entries f fs Hacyclic Hfind. split_and!.
  - exact (new_missing fs f Hacyclic Hfind).
  - apply find_some in Hfind as [_ Hm]. by apply bool_decide_eq_true in Hm.
  - apply missingDependencies_elem.
Qed.

Lemma from_rejects_missing_witness :
  ServiceModule.from [ServiceModule.EntryFactory needsKey2]
  = Throw (ServiceModuleInitError
             ("Key1" +:+ " will fail because it depends on:" +:+ LF +:+ " "
              +:+ join LF [" -> Key2"])).
Proof.
  refine (proj1 (proj1 from_rejects_missing nat string string
                   [ServiceModule.EntryFactory needsKey2] needsKey2 _ _)).
  - apply checked_acyclic; [|by vm_compute].
    apply NoDup_singleton.
  - by vm_compute.
Defined.

(** C4: for every entry sequence whose flattened factory list is acyclic
    and fully satisfiable, [from] succeeds; the module holds, for each
    provided key, the last factory of the flattened sequence that provides
    it, as it is, and no other factory; the number of its factories is the
    number of distinct provided keys; and [get] for a key finds that last
    factory and waits to call its [initialize]. With [factory1a] and
    [factory1b] both providing Key1, the module is [[factory1b]] and
    [get(Key1)] yields "value1b". *)
Theorem from_last_wins :
  (∀ (W Value Exn : Type) (entries : list (@ServiceModule.Entry W Value Exn)),
     let flattened := ServiceModule.flatten entries in
     ¬ hasCycle flattened → satisfiable flattened →
     ∃ m, ServiceModule.from entries = Ok m
       ∧ distinctKeys (factories m)
       ∧ (∀ f, f ∈ factories m
               ↔ last (providers (symbol_of (provides f)) flattened) = Some f)
       ∧ length (factories m)
         = size (list_to_set ((fun f => symbol_of (provides f)) <$> flattened)
                 : gset symbol)
       ∧ ∀ modules this key f σ,
           modules this = m →
           last (providers (symbol_of key) flattened) = Some f →
           ∃ p σ' deps,
             ServiceModule.get modules this key σ = Some (p, σ')
             ∧ tasks σ' !! p = Some (GetAwait this f deps))
  ∧ ServiceModule.from [ServiceModule.EntryFactory factory1a;
                        ServiceModule.EntryFactory factory1b]
    = Ok {| factories := [factory1b] |}
  ∧ outcomeOf (afterGets [factory1b] [Key1]) 0 = Some (Fulfilled "value1b").
Proof.
  split; [|split; by vm_compute].
  intros W Value Exn entries flattened Hacyclic Hsat.
  exists {| factories := ServiceModule.lastWins flattened |}.
  assert (Hfrom : ServiceModule.from (Exn := Exn) entries
                  = Ok {| factories := ServiceModule.lastWins flattened |}).
  { apply new_Ok.
    - intros Hcycle. by apply Hacyclic, lastWins_hasCycle.
    - by apply lastWins_satisfiable. }
  split_and!; simpl.
  - done.
  - apply lastWins_distinct.
  - intros f. by rewrite lastWins_elem, buildFactoryMap_last.
  - apply lastWins_length.
  - intros modules this key f σ Hm Hlast.
    assert (Hf : owner modules this (symbol_of key) = Some f).
    { unfold owner. rewrite Hm. simpl.
      by rewrite <- Hlast, <- lastWins_find. }
    destruct (get_total modules this key σ) as [[p σ'] Hget].
    { exists entries. by rewrite Hm. }
    destruct (get_found modules this key σ p σ' f Hf Hget) as (deps & Hp & _).
    by exists p, σ', deps.
Qed.

Lemma from_last_wins_witness :
  ∃ m, ServiceModule.from [ServiceModule.EntryFactory factory1a;
                           ServiceModule.EntryFactory factory1b] = Ok m
       ∧ length (factories m) = 1.
Proof.
  destruct (proj1 from_last_wins nat string string
              [ServiceModule.EntryFactory factory1a;
               ServiceModule.EntryFactory factory1b])
    as (m & Hm & _ & _ & Hlength & _).
  - intros [s Hcycle]. apply tc_nsteps in Hcycle as (n & Hn & Hsteps).
    destruct Hsteps as [|n x y z (f & key & Hf & _ & Hkey & _) _]; [lia|].
    vm_compute in Hf.
    apply elem_of_cons in Hf as [->|Hf];
      [|apply list_elem_of_singleton in Hf as ->];
      by apply elem_of_nil in Hkey.
  - apply find_hasMissing_None. by vm_compute.
  - exists m. split; [done|]. rewrite Hlength. by vm_compute.
Defined.

Local Open Scope string_scope.
Local Open Scope list_scope.

(** ** More scenarios *)

(** The decimal digit of a small counter. *)
Definition digit (n : nat) : string := String (ascii_of_nat (48 + n)) EmptyString.

(** [initialize: () => ({ id: ++counter })]. *)
Definition counting (lifecycle_ : Lifecycle) : xFactory :=
  factory lifecycle_ Key1 [] (fun _ => Update S (fun n => Return (digit n))).

(** Scenario 1: Key1 yields "v1"; Key2 depends on Key1 and yields
    "v2-" + v1. *)
Definition makesV1 : xFactory := factory oneShot Key1 [] (fun _ => Return "v1").
Definition makesV2 : xFactory :=
  factory oneShot Key2 [Key1]
    (fun dependencies =>
       match dependencies with
       | [RValue v1] => Return ("v2-" +:+ v1)
       | _ => Raise (Thrown "unexpected arguments")
       end).

(** A singleton that depends on a factory whose constructor throws. *)
Definition throwing : xFactory :=
  factory oneShot Key2 [] (fun _ => Raise (Thrown "Init error")).
Definition cachedOverThrowing : xFactory :=
  factory singleton Key1 [Key2] (fun _ => Return "instance").

(** A constructor that throws a [ServiceFactoryNotFoundError] of its own,
    as it does when it looks a key up in another container. *)
Definition throwsNotFound : xFactory :=
  factory oneShot Key1 []
    (fun _ => Raise (ServiceFactoryNotFoundError
                       "Could not find a suitable factory for Inner")).

(** The selector test: the application asks the selector for both
    members. *)
Definition Members : ServiceKey := SelectorKey 20 "Selector" [Key1; Key2].
Definition makesValue1 : xFactory :=
  factory oneShot Key1 [] (fun _ => Return "value1").
Definition makesValue2 : xFactory :=
  factory oneShot Key2 [] (fun _ => Return "value2").
Definition application : xFactory :=
  factory oneShot Key3 [Members]
    (fun dependencies =>
       match dependencies with
       | [RSelector selector] =>
           AwaitGet selector Key1 (fun o1 =>
           AwaitGet selector Key2 (fun o2 =>
           match o1, o2 with
           | Fulfilled v1, Fulfilled v2 => Return (v1 +:+ "+" +:+ v2)
           | Rejected e, _ | _, Rejected e => Raise e
           end))
       | _ => Raise (Thrown "unexpected arguments")
       end).

(** Two factories with disposers; the first disposer throws. *)
Definition Scope1 : ServiceScope := Scope 1.
Definition Scope2 : ServiceScope := Scope 2.
Definition disposable (provides_ : ServiceKey) (scope_ : option ServiceScope)
    (hook : option (nat → nat * option (Error string))) : xFactory :=
  {| provides := provides_; dependsOn := []; scope := scope_;
     lifecycle := singleton; construct := fun _ => Return "value";
     dispose := hook |}.
Definition countingDisposer : xFactory :=
  disposable Key2 (Some Scope2) (Some (fun n => (S n, None))).
Definition noDisposer : xFactory := disposable Key3 (Some Scope1) None.

Local Close Scope string_scope.

Local Open Scope string_scope.
Local Open Scope list_scope.
Local Open Scope nat_scope.

(** C1, as stated, fails: two calls of [get] for a singleton key whose
    dependency rejects run the singleton's constructor not once but never,
    and neither call resolves: both reject with the dependency's error. *)
Lemma singleton_never_constructed :
  let fs := [throwing; cachedOverThrowing] in
  let σ := afterGets fs [Key1; Key1] in
  validModule (moduleOf fs 0)
  ∧ ServiceModule.reachable (moduleOf fs) "null" σ
  ∧ ServiceModule.next (moduleOf fs) "null" σ = None
  ∧ owner (moduleOf fs) 0 1 = Some cachedOverThrowing
  ∧ calls σ 0 1 = [1; 3]
  ∧ outcomeOf σ 1 = Some (Rejected (Thrown "Init error"))
  ∧ outcomeOf σ 3 = Some (Rejected (Thrown "Init error"))
  ∧ constructions σ 0 1 = [].
Proof.
  intros fs σ. split_and!; try by vm_compute.
  - exists [ServiceModule.EntryFactory throwing;
            ServiceModule.EntryFactory cachedOverThrowing]. by vm_compute.
  - apply afterGets_reachable.
Qed.

(** C1 (amended): for every module and every singleton-scoped factory in
    it, whatever calls of [get] have been made, one after the other or
    before the earlier ones completed, and whatever promise jobs have run,
    the factory's constructor has run at most once; every call of [get]
    for its key that has resolved, has resolved to the instance of that one
    run, so all of them to the same instance (a call can also reject,
    without a run, when a dependency rejects). Two calls made together for
    a singleton whose constructor increments a counter both resolve to the
    instance "1", and so does a call made after the first has completed;
    the counter is 1. *)
Theorem singleton_constructed_once :
  (∀ (W Value Exn : Type) (modules : module_ref → ServiceModule W Value Exn)
     (null : Value) σ this s f,
     ServiceModule.reachable modules null σ →
     owner modules this s = Some f → lifecycle f = singleton →
     length (constructions σ this s) ≤ 1
     ∧ ∀ r v, r ∈ calls σ this s → outcomeOf σ r = Some (Fulfilled v) →
         ∃ q, constructions σ this s = [q]
              ∧ outcomeOf σ q = Some (Fulfilled v))
  ∧ (let σ := afterGets [counting singleton] [Key1; Key1] in
     calls σ 0 1 = [0; 1] ∧ constructions σ 0 1 = [2] ∧ world σ = 1
     ∧ outcomeOf σ 0 = Some (Fulfilled "1")
     ∧ outcomeOf σ 1 = Some (Fulfilled "1"))
  ∧ (let σ := thenGets [counting singleton] [Key1]
                (afterGets [counting singleton] [Key1]) in
     calls σ 0 1 = [0; 2] ∧ constructions σ 0 1 = [1] ∧ world σ = 1
     ∧ outcomeOf σ 0 = Some (Fulfilled "1")
     ∧ outcomeOf σ 2 = Some (Fulfilled "1")).
Proof.
  split_and!; try by vm_compute.
  intros W Value Exn modules null σ this s f. apply singleton_once.
Qed.

Lemma singleton_constructed_once_witness :
  let σ := afterGets [counting singleton] [Key1; Key1] in
  length (constructions σ 0 1) ≤ 1
  ∧ ∃ q, constructions σ 0 1 = [q] ∧ outcomeOf σ q = Some (Fulfilled "1").
Proof.
  intros σ.
  destruct (proj1 singleton_constructed_once nat string string
              (moduleOf [counting singleton]) "null" σ 0 1%positive
              (counting singleton)) as [Hle Hsame].
  - apply afterGets_reachable.
  - reflexivity.
  - reflexivity.
  - split; [exact Hle|]. apply (Hsame 1).
    + vm_compute. apply list_elem_of_In. simpl. auto.
    + vm_compute. reflexivity.
Defined.

(** C7, as stated, fails: two calls of [get] for a transient key whose
    constructor returns the string "value1b" run the constructor twice, and
    the two calls resolve to the same value, not to two distinct ones. *)
Lemma transient_instances_equal :
  let σ := afterGets [factory1b] [Key1; Key1] in
  ServiceModule.reachable (moduleOf [factory1b]) "null" σ
  ∧ calls σ 0 1 = [0; 1] ∧ length (constructions σ 0 1) = 2
  ∧ outcomeOf σ 0 = Some (Fulfilled "value1b")
  ∧ outcomeOf σ 1 = outcomeOf σ 0.
Proof.
  intros σ. split_and!; try by vm_compute. apply afterGets_reachable.
Qed.

(** C7 (amended): for every module and transient factory, every call of
    [get] for its key that has resolved ran [initialize] itself and
    resolved to the outcome of its own run; no run serves two calls, no
    call runs it twice, and every run belongs to a call of [get] for the
    key (also a call made inside a resolution tree), so that N calls that
    have all resolved mean N runs. The module shares no instance; whether
    the N values differ is up to the constructor. Two calls for a factory
    whose constructor increments a counter yield "1" and "2", and the
    counter is 2. *)
Theorem transient_constructed_per_call :
  (∀ (W Value Exn : Type) (modules : module_ref → ServiceModule W Value Exn)
     (null : Value) σ this s f,
     ServiceModule.reachable modules null σ →
     owner modules this s = Some f → lifecycle f = oneShot →
     (∀ r v, r ∈ calls σ this s → outcomeOf σ r = Some (Fulfilled v) →
        ∃ q, EvConstruct this s r q ∈ trace σ
             ∧ outcomeOf σ q = Some (Fulfilled v))
     ∧ NoDup (constructions σ this s) ∧ NoDup (constructors σ this s)
     ∧ (∀ r, r ∈ constructors σ this s → r ∈ calls σ this s)
     ∧ length (constructions σ this s) ≤ length (calls σ this s)
     ∧ (Forall (fun r => ∃ v, outcomeOf σ r = Some (Fulfilled v))
               (calls σ this s) →
        length (constructions σ this s) = length (calls σ this s)))
  ∧ (let σ := afterGets [counting oneShot] [Key1; Key1] in
     calls σ 0 1 = [0; 1] ∧ constructions σ 0 1 = [2; 3] ∧ world σ = 2
     ∧ outcomeOf σ 0 = Some (Fulfilled "1")
     ∧ outcomeOf σ 1 = Some (Fulfilled "2")).
Proof.
  split_and!; try by vm_compute.
  intros W Value Exn modules null σ this s f. apply oneShot_per_call.
Qed.

Lemma transient_constructed_per_call_witness :
  let σ := afterGets [counting oneShot] [Key1; Key1] in
  length (constructions σ 0 1) = length (calls σ 0 1).
Proof.
  intros σ.
  destruct (proj1 transient_constructed_per_call nat string string
              (moduleOf [counting oneShot]) "null" σ 0 1%positive
              (counting oneShot)) as (_ & _ & _ & _ & _ & Hall).
  - apply afterGets_reachable.
  - reflexivity.
  - reflexivity.
  - apply Hall. vm_compute. repeat constructor; by eexists.
Defined.

(** C6: for every key that a factory of the module provides, [get]
    resolves each entry of the factory's [dependsOn], in order: a selector
    key to a selector, any other key by a call of [get] for it; when every
    one of these has fulfilled, [get] calls the factory's [initialize] with
    the values in the order of [dependsOn] (for a transient factory that is
    the constructor itself), and its promise follows the promise
    [initialize] returns. With Key1 yielding "v1" and Key2 depending on
    Key1 with "v2-" + v1, [get(Key2)] yields "v2-v1". *)
Theorem get_initializes_in_order :
  (∀ (W Value Exn : Type) (modules : module_ref → ServiceModule W Value Exn)
     (null : Value) this key f σ,
     (∀ this, validModule (modules this)) →
     owner modules this (symbol_of key) = Some f →
     ∃ p σ1 deps,
       ServiceModule.get modules this key σ = Some (p, σ1)
       ∧ tasks σ1 !! p = Some (GetAwait this f deps)
       ∧ Forall2 (dependencyOf σ1 this) (dependsOn f) deps
       ∧ (∀ σ2 args,
            tasks σ2 !! p = Some (GetAwait this f deps) →
            Forall2 (resolvedAs σ2) deps args →
            ∃ q σ3,
              ServiceModule.initialize modules this f p args (setTask p Pending σ2)
                = Some (q, σ3)
              ∧ ServiceModule.fire modules null p σ2
                = Some (setTask p (Adopt q) σ3))
       ∧ (lifecycle f = oneShot →
          ∀ caller args σ2,
            ServiceModule.initialize modules this f caller args σ2
            = σ4 ← ServiceModule.run modules (construct f args)
                     (length (tasks σ2))
                     (log (EvConstruct this (symbol_of (provides f)) caller
                                       (length (tasks σ2)))
                          (newTask Pending σ2).2);
              Some (length (tasks σ2), σ4)))
  ∧ outcomeOf (afterGets [makesV1; makesV2] [Key2]) 1
    = Some (Fulfilled "v2-v1").
Proof.
  split; [|by vm_compute].
  intros W Value Exn modules null this key f σ Hvalid Hf.
  destruct (get_total modules this key σ (Hvalid this)) as [[p σ1] Hget].
  destruct (get_found modules this key σ p σ1 f Hf Hget) as (deps & Hp & Hdeps).
  exists p, σ1, deps. split_and!; [done..| |].
  - intros σ2 args. by apply fire_resolved.
  - intros Hlife caller args σ2. unfold ServiceModule.initialize.
    by rewrite Hlife, invoke_unfold.
Qed.

Lemma get_initializes_in_order_witness :
  ∃ p σ1 deps,
    ServiceModule.get (moduleOf [makesV1; makesV2]) 0 Key2 (initial 0)
      = Some (p, σ1)
    ∧ tasks σ1 !! p = Some (GetAwait 0 makesV2 deps)
    ∧ Forall2 (dependencyOf σ1 0) [Key1] deps.
Proof.
  destruct (proj1 get_initializes_in_order nat string string
              (moduleOf [makesV1; makesV2]) "null" 0 Key2 makesV2 (initial 0))
    as (p & σ1 & deps & Hget & Hp & Hdeps & _).
  - intros this. exists [ServiceModule.EntryFactory makesV1;
                         ServiceModule.EntryFactory makesV2]. by vm_compute.
  - reflexivity.
  - by exists p, σ1, deps.
Defined.

(** C8: for every module, selector key in a factory's [dependsOn] and
    member key, the dependency resolves, with no change of the state and so
    with no member resolved, to a selector bound to that module and that
    selector key, which is what [initialize] receives; and the selector's
    [get(memberKey)] is [module.get(memberKey)] on the same state, so with
    the same scoping and caching. The application of the selector test
    yields "value1+value2". *)
Theorem selector_is_transparent :
  (∀ (W Value Exn : Type) (modules : module_ref → ServiceModule W Value Exn)
     recur this dependencyKey members (σ : Config W Value Exn),
     values dependencyKey = Some members →
     let selector := {| selector_module := this; selector_key := dependencyKey |} in
     ServiceModule.resolveDependency recur this dependencyKey σ
       = Some (ASelector selector, σ)
     ∧ (∀ (σ' : Config W Value Exn) x,
          resolvedAs σ' (ASelector selector) x ↔ x = RSelector selector)
     ∧ (∀ memberKey σ',
          ServiceModule.ServiceSelector_get modules selector memberKey σ'
          = ServiceModule.get modules this memberKey σ')
     ∧ (∀ memberKey k p σ',
          ServiceModule.run modules (AwaitGet selector memberKey k) p σ'
          = '(r, σ1) ← ServiceModule.get modules this memberKey σ';
            Some (setTask p (Running k r) σ1)))
  ∧ outcomeOf (afterGets [makesValue1; makesValue2; application] [Key3]) 0
    = Some (Fulfilled "value1+value2")
  ∧ outcomeOf (afterGets [makesValue1; makesValue2; application] [Key1; Key2]) 0
    = Some (Fulfilled "value1")
  ∧ outcomeOf (afterGets [makesValue1; makesValue2; application] [Key1; Key2]) 1
    = Some (Fulfilled "value2").
Proof.
  split_and!; try by vm_compute.
  intros W Value Exn modules recur this dependencyKey members σ Hvalues selector.
  split_and!; try done.
  unfold ServiceModule.resolveDependency. by rewrite Hvalues.
Qed.

Lemma selector_is_transparent_witness :
  ServiceModule.resolveDependency
    (ServiceModule.get_ (moduleOf [makesValue1; makesValue2; application]) 4)
    0 Members (initial 0)
  = Some (ASelector {| selector_module := 0; selector_key := Members |},
          initial 0).
Proof.
  refine (proj1 (proj1 selector_is_transparent nat string string
                   (moduleOf [makesValue1; makesValue2; application])
                   _ 0 Members [Key1; Key2] (initial 0) _)).
  reflexivity.
Defined.


Local Open Scope string_scope.
Local Open Scope list_scope.
Local Open Scope nat_scope.


(** C5, as stated, fails: a factory provides Key1 and its constructor
    throws a [ServiceFactoryNotFoundError] (as a lookup in another
    container does). Then [get(Key1)] rejects with a factory-not-found
    error although the module provides Key1, and [getOrNull(Key1)] resolves
    to [null] although the error was raised inside [initialize]. *)
Lemma not_found_from_initialize :
  let inner := ServiceFactoryNotFoundError
                 "Could not find a suitable factory for Inner" in
  owner (moduleOf [throwsNotFound]) 0 (symbol_of Key1) = Some throwsNotFound
  ∧ calls (afterGets [throwsNotFound] [Key1]) 0 (symbol_of Key1) = [0]
  ∧ outcomeOf (afterGets [throwsNotFound] [Key1]) 0 = Some (Rejected inner)
  ∧ tasks (afterGetOrNull [throwsNotFound] Key1) !! 2 = Some (Settled (Rejected inner))
  ∧ constructions (afterGetOrNull [throwsNotFound] Key1) 0 (symbol_of Key1) = [2]
  ∧ outcomeOf (afterGetOrNull [throwsNotFound] Key1) 1 = Some (Fulfilled "null").
Proof. intros inner. split_and!; by vm_compute. Qed.

(** C5 (amended): for every module and key, [get] rejects at once with the
    factory-not-found error for that key when no factory of the module
    provides the key (compared by identity); when one does, its promise is
    pending and later takes whatever outcome dependency resolution and
    [initialize] produce. [getOrNull] is [get] followed by one conversion of
    that outcome: a rejection with a [ServiceFactoryNotFoundError], whether
    raised by the lookup or coming out of a dependency or of [initialize],
    becomes [null]; a value and every other rejection are passed on
    unchanged, the error being the same. *)
Theorem getOrNull_converts_not_found :
  ∀ (W Value Exn : Type) (modules : module_ref → ServiceModule W Value Exn)
    (null : Value) this key (σ : Config W Value Exn),
    (owner modules this (symbol_of key) = None →
     ∃ σ', ServiceModule.get modules this key σ = Some (length (tasks σ), σ')
           ∧ outcomeOf σ' (length (tasks σ))
             = Some (Rejected (ServiceFactoryNotFoundError
                                 ("Could not find a suitable factory for "
                                  +:+ name key))))
    ∧ (∀ f p σ', owner modules this (symbol_of key) = Some f →
         ServiceModule.get modules this key σ = Some (p, σ') →
         outcomeOf σ' p = None)
    ∧ ServiceModule.getOrNull modules this key σ
      = ('(src, σ1) ← ServiceModule.get modules this key σ;
         Some (length (tasks σ1), (newTask (OrNullAwait src) σ1).2))
    ∧ ∀ σ2 p src, tasks σ2 !! p = Some (OrNullAwait src) →
        ServiceModule.fire modules null p σ2
        = match outcomeOf σ2 src with
          | None => None
          | Some (Fulfilled v) => Some (settle p (Fulfilled v) σ2)
          | Some (Rejected e) =>
              if isNotFound e then Some (settle p (Fulfilled null) σ2)
              else Some (settle p (Rejected e) σ2)
          end.
Proof.
  intros W Value Exn modules null this key σ. split_and!.
  - intros Hf. destruct (get_missing modules this key σ Hf) as (σ' & ? & ? & _).
    by exists σ'.
  - intros f p σ' Hf Hget.
    destruct (get_found modules this key σ p σ' f Hf Hget) as (deps & Hp & _).
    unfold outcomeOf. by rewrite Hp.
  - apply getOrNull_get.
  - intros σ2 p src. apply fire_orNull.
Qed.

Lemma getOrNull_converts_not_found_witness :
  ∃ σ', ServiceModule.get (moduleOf [makesV1]) 0 Key2 (initial 0) = Some (0, σ')
        ∧ outcomeOf σ' 0
          = Some (Rejected (ServiceFactoryNotFoundError
                              "Could not find a suitable factory for Key2")).
Proof.
  refine (proj1 (getOrNull_converts_not_found nat string string
                   (moduleOf [makesV1]) "null" 0 Key2 (initial 0)) _).
  reflexivity.
Defined.




(** * Further properties of the module *)

Local Open Scope string_scope.
Local Open Scope list_scope.
Local Open Scope nat_scope.

(** ** Assembly: what [from] accepts, and the order of the factories *)

Section Merging.
Context {W Value Exn : Type}.
Implicit Types (f g : ServiceFactory W Value Exn)
  (fs flattened : list (ServiceFactory W Value Exn)) (s t : symbol)
  (m : ServiceModule W Value Exn).

(** The key of a factory, as [from] and the checks compare it. *)
Definition keyOf f : symbol := symbol_of (provides f).

Lemma Map_set_fresh {V : Type} (entries : list (symbol * V)) k v :
  k ∉ entries.*1 → ServiceModule.Map_set entries k v = entries ++ [(k, v)].
Proof.
  induction entries as [|[k' v'] entries IH]; [done|].
  cbn [ServiceModule.Map_set]. rewrite fmap_cons, not_elem_of_cons. simpl.
  intros [Hne Hfresh]. rewrite decide_False by done. by rewrite IH.
Qed.

Lemma byKey_snoc flattened f :
  byKey (flattened ++ [f])
  = ServiceModule.Map_set (byKey flattened) (keyOf f) f.
Proof. unfold byKey. by rewrite foldl_app. Qed.

(** The keys of a list, each once, at the place where it first occurs. *)
Fixpoint firstOccurrences (keys : list symbol) : list symbol :=
  match keys with
  | [] => []
  | k :: keys' => k :: filter (fun k' => k' ≠ k) (firstOccurrences keys')
  end.

Lemma elem_of_firstOccurrences keys k : k ∈ firstOccurrences keys ↔ k ∈ keys.
Proof.
  induction keys as [|k0 keys IH]; [done|]. simpl.
  rewrite !elem_of_cons, list_elem_of_filter, IH.
  destruct (decide (k = k0)); naive_solver.
Qed.

Lemma firstOccurrences_snoc keys k :
  firstOccurrences (keys ++ [k])
  = if decide (k ∈ keys) then firstOccurrences keys
    else firstOccurrences keys ++ [k].
Proof.
  induction keys as [|k0 keys IH]; [done|]. simpl. rewrite IH. clear IH.
  destruct (decide (k ∈ k0 :: keys)) as [Hin|Hout];
    destruct (decide (k ∈ keys)) as [Hin'|Hout']; simpl.
  - done.
  - apply elem_of_cons in Hin as [->|?]; [|done].
    rewrite filter_app, filter_cons, decide_False by (by intros []).
    by rewrite filter_nil, app_nil_r.
  - destruct Hout. apply elem_of_cons. by right.
  - rewrite filter_app, filter_cons, decide_True, filter_nil; [done|].
    intros ->. destruct Hout. apply elem_of_cons. by left.
Qed.

(** The keys of the [Map] are the keys of the list in the order of their
    first occurrences. *)
Lemma byKey_keys flattened :
  (byKey flattened).*1 = firstOccurrences (keyOf <$> flattened).
Proof.
  induction flattened as [|f flattened IH] using rev_ind; [done|].
  rewrite byKey_snoc, Map_set_keys, IH, fmap_app.
  change (keyOf <$> [f]) with [keyOf f]. rewrite firstOccurrences_snoc.
  destruct (decide (keyOf f ∈ keyOf <$> flattened)) as [Hold|Hnew].
  - by rewrite decide_True by (by apply elem_of_firstOccurrences).
  - by rewrite decide_False by (by rewrite elem_of_firstOccurrences).
Qed.

Lemma lastWins_keys flattened :
  keyOf <$> ServiceModule.lastWins flattened
  = firstOccurrences (keyOf <$> flattened).
Proof.
  rewrite <- byKey_keys.
  destruct (byKey_spec flattened) as [Hnd Hmap].
  unfold ServiceModule.lastWins, ServiceModule.Map_values. fold (byKey flattened).
  rewrite <- list_fmap_compose. symmetry. apply list_fmap_ext.
  intros i [k f] Hi. simpl. apply list_elem_of_lookup_2 in Hi.
  apply (elem_of_list_to_map (M := gmap symbol)) in Hi; [|done].
  rewrite Hmap in Hi. unfold keyOf. by rewrite (buildFactoryMap_key _ _ _ Hi).
Qed.

(** A list in which no key occurs twice goes through the [Map] unchanged. *)
Lemma lastWins_distinct_id fs :
  distinctKeys fs → ServiceModule.lastWins fs = fs.
Proof.
  intros Hdistinct. unfold ServiceModule.lastWins, ServiceModule.Map_values.
  fold (byKey fs).
  assert (Hall : byKey fs = (fun f => (keyOf f, f)) <$> fs).
  { induction fs as [|f fs IH] using rev_ind; [done|].
    unfold distinctKeys in Hdistinct. rewrite fmap_app in Hdistinct.
    apply NoDup_app in Hdistinct as (Hnd & Hfresh & _).
    rewrite byKey_snoc, IH by done. rewrite Map_set_fresh; [by rewrite fmap_app|].
    rewrite <- list_fmap_compose. intros Hin.
    apply (Hfresh (keyOf f)); [done|]. simpl. set_solver. }
  rewrite Hall, <- list_fmap_compose. apply list_fmap_id.
Qed.

Lemma provided_elem fs s : provided fs s ↔ s ∈ keyOf <$> fs.
Proof.
  unfold provided. rewrite list_elem_of_fmap. unfold keyOf. naive_solver.
Qed.

(** What [from] accepts: exactly the entries whose factories, the
    overridden ones left out, have no cycle and no missing dependency. *)
Lemma from_Ok_iff (entries : list (@ServiceModule.Entry W Value Exn)) m :
  ServiceModule.from entries = Ok m
  ↔ m = {| factories := ServiceModule.lastWins (ServiceModule.flatten entries) |}
    ∧ ¬ hasCycle (ServiceModule.lastWins (ServiceModule.flatten entries))
    ∧ satisfiable (ServiceModule.lastWins (ServiceModule.flatten entries)).
Proof.
  unfold ServiceModule.from. split.
  - intros Hnew. apply new_inv in Hnew as (Hm & Hcheck & Hsat).
    split_and!; [destruct m; simpl in Hm; by subst| |done].
    intros [s Hcycle].
    apply checkCircularDependencies_Ok in Hcheck as (rank & _ & Hrank);
      [|apply lastWins_distinct].
    pose proof (rank_tc _ rank s s Hrank Hcycle). lia.
  - intros (-> & Hacyclic & Hsat). by apply new_Ok.
Qed.

(** *** Modules merged *)

Lemma validModule_new m :
  validModule m →
  ServiceModule.new (Exn := Exn) (factories m) = Ok m ∧ ¬ hasCycle (factories m).
Proof.
  intros [entries Hfrom]. pose proof Hfrom as Hinv.
  apply from_Ok_iff in Hinv as (Hm & Hacyclic & _).
  unfold ServiceModule.from in Hfrom. rewrite Hm. simpl. by rewrite Hm in Hfrom.
Qed.

(** In two lists of factories that are each complete and share no key, an
    edge of the joint graph is an edge of one of them, and so is a path. *)
Lemma dependsDirectly_app fs1 fs2 s t :
  satisfiable fs1 → satisfiable fs2 →
  dependsDirectly (fs1 ++ fs2) s t →
  dependsDirectly fs1 s t ∨ dependsDirectly fs2 s t.
Proof.
  intros Hsat1 Hsat2 (f & key & Hf & Hs & Hkey & Ht & _).
  apply elem_of_app in Hf as [Hf|Hf]; [left|right]; exists f, key;
    split_and!; try done; subst t; eauto.
Qed.

Lemma dependsDirectly_provided fs s t :
  dependsDirectly fs s t → provided fs s ∧ provided fs t.
Proof. intros (f & key & Hf & Hs & _ & _ & Ht). split; [by exists f|done]. Qed.

Lemma tc_dependsDirectly_app fs1 fs2 s t :
  satisfiable fs1 → satisfiable fs2 →
  (∀ s, provided fs1 s → ¬ provided fs2 s) →
  tc (dependsDirectly (fs1 ++ fs2)) s t →
  tc (dependsDirectly fs1) s t ∨ tc (dependsDirectly fs2) s t.
Proof.
  intros Hsat1 Hsat2 Hdisjoint.
  assert (Hsrc : ∀ fs a b, tc (dependsDirectly fs) a b → provided fs a).
  { intros fs a b Htc. destruct Htc as [a b H|a b c H _];
      by apply dependsDirectly_provided in H as [? _]. }
  induction 1 as [s t Hedge|s t u Hedge _ IH].
  - apply (dependsDirectly_app _ _ _ _ Hsat1 Hsat2) in Hedge as [?|?];
      [left|right]; by apply tc_once.
  - apply (dependsDirectly_app _ _ _ _ Hsat1 Hsat2) in Hedge as [Hedge|Hedge].
    + destruct IH as [IH|IH]; [left; by eapply tc_l|].
      apply dependsDirectly_provided in Hedge as [_ Ht].
      apply Hsrc in IH. by destruct (Hdisjoint t).
    + destruct IH as [IH|IH]; [|right; by eapply tc_l].
      apply dependsDirectly_provided in Hedge as [_ Ht].
      apply Hsrc in IH. by destruct (Hdisjoint t).
Qed.

(** *** The order of the entries *)

Lemma provided_Permutation fs fs' s :
  fs ≡ₚ fs' → provided fs s → provided fs' s.
Proof. intros Hp (g & Hg & Hs). exists g. by rewrite <- Hp. Qed.

Lemma hasCycle_Permutation fs fs' : fs ≡ₚ fs' → hasCycle fs → hasCycle fs'.
Proof.
  intros Hp [s Hcycle]. exists s. revert Hcycle. apply tc_mono.
  intros a b (f & key & Hf & Ha & Hkey & Hb & Hprov). exists f, key.
  split_and!; [by rewrite <- Hp|done..|by eapply provided_Permutation].
Qed.

Lemma satisfiable_Permutation fs fs' :
  fs ≡ₚ fs' → satisfiable fs → satisfiable fs'.
Proof.
  intros Hp Hsat f key Hf Hkey. apply (provided_Permutation fs); [done|].
  apply (Hsat f key); [by rewrite Hp|done].
Qed.
End Merging.

(** ** What a call of [get] does before it returns *)

Section Calling.
Context {W Value Exn : Type}.
Variable modules : module_ref → ServiceModule W Value Exn.
Implicit Types (σ : Config W Value Exn) (f g : ServiceFactory W Value Exn)
  (this : module_ref) (s : symbol) (p q r : pid) (ev : Event)
  (key : ServiceKey) (t : Task W Value Exn).

Lemma mapState_preserves_in {A B : Type}
    (P : Config W Value Exn → Config W Value Exn → Prop)
    (h : A → Config W Value Exn → option (B * Config W Value Exn)) xs σ ys σ' :
  (∀ σ, P σ σ) → (∀ σ1 σ2 σ3, P σ1 σ2 → P σ2 σ3 → P σ1 σ3) →
  (∀ x σ y σ', x ∈ xs → h x σ = Some (y, σ') → P σ σ') →
  ServiceModule.mapState h xs σ = Some (ys, σ') → P σ σ'.
Proof.
  intros Hrefl Htrans. revert σ ys.
  induction xs as [|x xs IH]; intros σ ys Hh; simpl.
  - by intros [= <- <-].
  - destruct (h x σ) as [[y σ1]|] eqn:Hx; [|done]. simpl.
    destruct (ServiceModule.mapState h xs σ1) as [[ys' σ2]|] eqn:Hxs; [|done].
    simpl. intros [= <- <-]. eapply Htrans.
    + eapply Hh; [|done]. set_solver.
    + eapply IH; [|done]. intros x' σ3 y' σ4 Hx'. apply Hh. set_solver.
Qed.

Lemma owner_is_Some this s :
  is_Some (owner modules this s) ↔ provided (factories (modules this)) s.
Proof.
  split.
  - intros [f Hf]. exists f. split; [by eapply owner_elem|by eapply owner_symbol].
  - intros (g & Hg & Hs). unfold owner.
    destruct (find _ _) as [f|] eqn:Hfind; [by eexists|].
    apply list_elem_of_In in Hg. pose proof (find_none _ _ Hfind g Hg) as Hno.
    simpl in Hno. by rewrite bool_decide_eq_true_2 in Hno.
Qed.

(** The application state is not touched. *)
Lemma get__world fuel this key σ p σ' :
  ServiceModule.get_ modules fuel this key σ = Some (p, σ') → world σ' = world σ.
Proof.
  revert this key σ p σ'.
  induction fuel as [|fuel IH]; intros this key σ p σ'; rewrite get__unfold;
    destruct (owner modules this (symbol_of key)) as [f|]; try done.
  - by intros [= <- <-].
  - destruct (ServiceModule.mapState _ _ σ) as [[deps σ1]|] eqn:Hmap; [|done].
    simpl. intros [= <- <-]. simpl. revert Hmap.
    apply (mapState_preserves (fun σ σ' => world σ' = world σ)); [done|congruence|].
    intros x σ2 y σ3.
    apply (resolveDependency_preserves (fun σ σ' => world σ' = world σ)); [done|].
    intros key' σ4 q σ5. apply IH.
  - by intros [= <- <-].
Qed.

(** The promise returned is one of the new ones. *)
Lemma get__fresh fuel this key σ p σ' :
  ServiceModule.get_ modules fuel this key σ = Some (p, σ') →
  p < length (tasks σ')
  ∧ ∀ v, outcomeOf σ' p ≠ Some (Fulfilled v).
Proof.
  rewrite get__unfold. destruct (owner modules this (symbol_of key)) as [f|].
  - destruct fuel; [done|].
    destruct (ServiceModule.mapState _ _ σ) as [[deps σ1]|]; [|done].
    simpl. intros [= <- <-]. simpl. rewrite length_app. simpl. split; [lia|].
    intros v. unfold outcomeOf. simpl. by rewrite list_lookup_middle.
  - intros [= <- <-]. simpl. rewrite length_insert, length_app. simpl.
    split; [lia|]. intros v. unfold outcomeOf. simpl.
    by rewrite insert_last, list_lookup_middle.
Qed.

Lemma evolves_constructions except σ σ' this s :
  evolves except σ σ' → constructions σ' this s = constructions σ this s.
Proof.
  unfold constructions. intros [_ _ _ (evs & -> & Hevs)]. rewrite omap_app.
  rewrite <- (app_nil_r (omap _ (trace σ))) at 2. f_equal.
  induction Hevs as [|ev evs (this' & s' & r & -> & _) _ IH]; [done|]. by simpl.
Qed.

(** In a module whose factories have every dependency registered, a call
    for a registered key finds the factory of every plain dependency, all
    the way down: every promise it makes waits for dependencies, and none
    is rejected at the call. *)
Definition allFound this σ σ' : Prop :=
  settlements σ' = settlements σ
  ∧ length (tasks σ) ≤ length (tasks σ')
  ∧ (∀ i t, tasks σ !! i = Some t → tasks σ' !! i = Some t)
  ∧ ∀ i, length (tasks σ) ≤ i → i < length (tasks σ') →
      ∃ g deps, tasks σ' !! i = Some (GetAwait this g deps)
                ∧ g ∈ factories (modules this).

Lemma allFound_refl this σ : allFound this σ σ.
Proof. split_and!; try done. intros i ??. lia. Qed.

Lemma allFound_trans this σ1 σ2 σ3 :
  allFound this σ1 σ2 → allFound this σ2 σ3 → allFound this σ1 σ3.
Proof.
  intros (S1 & L1 & T1 & N1) (S2 & L2 & T2 & N2). split_and!.
  - congruence.
  - lia.
  - auto.
  - intros i Hi Hi'. destruct (decide (i < length (tasks σ2))) as [Hlt|Hge].
    + destruct (N1 i Hi Hlt) as (g & deps & Hg & Hin). exists g, deps. auto.
    + apply N2; lia.
Qed.

Lemma get__allFound fuel this key σ p σ' :
  satisfiable (factories (modules this)) →
  is_Some (owner modules this (symbol_of key)) →
  ServiceModule.get_ modules fuel this key σ = Some (p, σ') →
  allFound this σ σ'.
Proof.
  intros Hsat. revert key σ p σ'.
  induction fuel as [|fuel IH]; intros key σ p σ' [f Hf]; rewrite get__unfold, Hf;
    [done|].
  destruct (ServiceModule.mapState _ _ σ) as [[deps σ1]|] eqn:Hmap; [|done].
  simpl. intros [= <- <-].
  assert (Hdeps : allFound this σ σ1).
  { revert Hmap. apply mapState_preserves_in.
    - apply allFound_refl.
    - apply allFound_trans.
    - intros dependencyKey σ2 a σ3 Hin. unfold ServiceModule.resolveDependency.
      destruct (values dependencyKey) eqn:Hvalues.
      + intros [= <- <-]. apply allFound_refl.
      + destruct (ServiceModule.get_ _ _ _ _ σ2) as [[q σ4]|] eqn:Hget; [|done].
        simpl. intros [= <- <-]. eapply IH; [|done].
        apply owner_is_Some. apply (Hsat f); [by eapply owner_elem|].
        unfold expandedDeps. apply list_elem_of_In, in_flat_map.
        exists dependencyKey. split; [by apply list_elem_of_In|].
        unfold keysToCheck. rewrite Hvalues. by left. }
  eapply allFound_trans; [exact Hdeps|]. split_and!; simpl.
  - done.
  - rewrite length_app. lia.
  - intros i t Hi. by apply lookup_app_l_Some.
  - rewrite length_app. simpl. intros i Hi Hi'.
    assert (i = length (tasks σ1)) as -> by lia.
    exists f, deps. split; [by apply list_lookup_middle|by eapply owner_elem].
Qed.
End Calling.

(** ** Dependencies come first *)

Section Waiting.
Context {W Value Exn : Type}.
Variable modules : module_ref → ServiceModule W Value Exn.
Variable null : Value.
Implicit Types (σ : Config W Value Exn) (f g : ServiceFactory W Value Exn)
  (this : module_ref) (s : symbol) (p q r : pid) (ev : Event)
  (key : ServiceKey) (t : Task W Value Exn).

(** What a suspended call holds: a call of [get] holds, for each entry of
    [dependsOn] in order, what was made for it, and the promises among
    these are older than its own; [getOrNull] waits for an older promise. *)
Definition awaiting σ p t : Prop :=
  match t with
  | GetAwait this f deps =>
      Forall2 (dependencyOf σ this) (dependsOn f) deps
      ∧ ∀ q, q ∈ promisesOf deps → q < p
  | OrNullAwait src => src < p
  | _ => True
  end.

Definition awaitOk σ : Prop := ∀ p t, tasks σ !! p = Some t → awaiting σ p t.

Lemma dependencyOf_mono σ σ' this dependencyKey a :
  (∀ ev, ev ∈ trace σ → ev ∈ trace σ') →
  dependencyOf σ this dependencyKey a → dependencyOf σ' this dependencyKey a.
Proof.
  intros Hsub. unfold dependencyOf. destruct (values dependencyKey); [done|].
  intros (q & -> & Hq). exists q. auto.
Qed.

Lemma awaiting_mono σ σ' p t :
  (∀ ev, ev ∈ trace σ → ev ∈ trace σ') → awaiting σ p t → awaiting σ' p t.
Proof.
  intros Hsub. destruct t as [| |this f deps| | |]; simpl; try done.
  intros [Hdeps Hrange]. split; [|done].
  eapply Forall2_impl; [exact Hdeps|]. intros d a. by apply dependencyOf_mono.
Qed.

Lemma awaitOk_frame σ σ' :
  (∀ ev, ev ∈ trace σ → ev ∈ trace σ') →
  (∀ p t, tasks σ' !! p = Some t → tasks σ !! p = Some t ∨ awaiting σ' p t) →
  awaitOk σ → awaitOk σ'.
Proof.
  intros Hsub Htasks Hok p t Hp. destruct (Htasks p t Hp) as [Hold|Hnew]; [|done].
  eapply awaiting_mono; [done|]. by apply Hok.
Qed.

Lemma awaitOk_same σ σ' :
  tasks σ' = tasks σ → (∀ ev, ev ∈ trace σ → ev ∈ trace σ') →
  awaitOk σ → awaitOk σ'.
Proof.
  intros Ht Hsub. apply awaitOk_frame; [done|]. intros p t. rewrite Ht. auto.
Qed.

Lemma awaitOk_insert σ σ' p t :
  tasks σ' = <[p := t]> (tasks σ) → (∀ ev, ev ∈ trace σ → ev ∈ trace σ') →
  awaiting σ' p t → awaitOk σ → awaitOk σ'.
Proof.
  intros Ht Hsub Hnew. apply awaitOk_frame; [done|]. intros p' t'. rewrite Ht.
  intros [(-> & -> & _)|[_ Hold]]%list_lookup_insert_Some; auto.
Qed.

Lemma awaitOk_snoc σ σ' t :
  tasks σ' = tasks σ ++ [t] → (∀ ev, ev ∈ trace σ → ev ∈ trace σ') →
  awaiting σ' (length (tasks σ)) t → awaitOk σ → awaitOk σ'.
Proof.
  intros Ht Hsub Hnew. apply awaitOk_frame; [done|]. intros p' t'. rewrite Ht.
  intros [Hold|[Hge Hlast]]%lookup_app_Some; [by left|right].
  apply list_lookup_singleton_Some in Hlast as [Hp' <-].
  by replace p' with (length (tasks σ)) by lia.
Qed.

Lemma mapState_evolves fuel this keys σ deps σ' :
  ServiceModule.mapState
    (ServiceModule.resolveDependency (ServiceModule.get_ modules fuel) this)
    keys σ = Some (deps, σ') →
  evolves (fun _ => False) σ σ'.
Proof.
  apply mapState_preserves.
  - apply evolves_refl.
  - apply evolves_trans.
  - intros x σ2 y σ3. apply resolveDependency_preserves.
    + apply evolves_refl.
    + intros key' σ4 q' σ5 Hget'. by apply get__evolves in Hget' as [? _].
Qed.

(** The promises made for the dependencies are among those that exist when
    the call's own promise is made. *)
Lemma mapState_promises fuel this keys σ deps σ' :
  ServiceModule.mapState
    (ServiceModule.resolveDependency (ServiceModule.get_ modules fuel) this)
    keys σ = Some (deps, σ') →
  ∀ q, q ∈ promisesOf deps → q < length (tasks σ').
Proof.
  revert σ deps. induction keys as [|key keys IH]; intros σ deps; simpl.
  - intros [= <- <-] q Hq. by apply elem_of_nil in Hq.
  - destruct (ServiceModule.resolveDependency _ _ _ _) as [[a σ1]|] eqn:Ha;
      [|done]. simpl.
    destruct (ServiceModule.mapState _ keys σ1) as [[deps' σ2]|] eqn:Hrest;
      [|done]. simpl. intros [= <- <-] q.
    unfold ServiceModule.resolveDependency in Ha.
    destruct (values key).
    { injection Ha as <- <-. simpl. by eapply IH. }
    destruct (ServiceModule.get_ _ _ _ _ σ) as [[q' σ3]|] eqn:Hget; [|done].
    simpl in Ha. injection Ha as <- <-. simpl.
    intros [->|Hq]%elem_of_cons; [|by eapply IH].
    apply get__fresh in Hget as [Hlt _].
    apply mapState_evolves in Hrest. pose proof (ev_length _ _ _ Hrest). lia.
Qed.

Lemma get__awaitOk fuel this key σ p σ' :
  awaitOk σ → ServiceModule.get_ modules fuel this key σ = Some (p, σ') →
  awaitOk σ'.
Proof.
  revert this key σ p σ'.
  induction fuel as [|fuel IH]; intros this key σ p σ' Hok; rewrite get__unfold;
    destruct (owner modules this (symbol_of key)) as [f|] eqn:Hf; try done.
  - intros [= <- <-]. revert Hok. eapply (awaitOk_snoc _ _ (Settled _)); simpl.
    + apply insert_last.
    + set_solver.
    + done.
  - destruct (ServiceModule.mapState _ _ σ) as [[deps σ1]|] eqn:Hmap; [|done].
    simpl. intros [= <- <-].
    assert (Hok1 : awaitOk σ1).
    { revert Hok. revert Hmap.
      apply (mapState_preserves (fun σ σ' => awaitOk σ → awaitOk σ')); [auto..|].
      intros x σ2 y σ3.
      apply (resolveDependency_preserves (fun σ σ' => awaitOk σ → awaitOk σ'));
        [auto|].
      intros key' σ4 q σ5 Hget Hok'. by eapply IH. }
    revert Hok1. apply (awaitOk_snoc _ _ (GetAwait this f deps)); simpl.
    + done.
    + set_solver.
    + split; [|by eapply mapState_promises].
      apply mapState_dependencies in Hmap.
      eapply Forall2_impl; [exact Hmap|]. intros d a.
      apply dependencyOf_mono. simpl. set_solver.
  - intros [= <- <-]. revert Hok. eapply (awaitOk_snoc _ _ (Settled _)); simpl.
    + apply insert_last.
    + set_solver.
    + done.
Qed.

Lemma run_awaitOk prog p σ σ' :
  awaitOk σ → ServiceModule.run modules prog p σ = Some σ' → awaitOk σ'.
Proof.
  revert σ σ'. induction prog as [v|e|action k IH|sel key k IH];
    intros σ σ' Hok; simpl.
  - intros [= <-]. revert Hok. by eapply (awaitOk_insert _ _ p (Settled _)).
  - intros [= <-]. revert Hok. by eapply (awaitOk_insert _ _ p (Settled _)).
  - apply IH. revert Hok. by apply awaitOk_same.
  - unfold ServiceModule.ServiceSelector_get, ServiceModule.get.
    destruct (ServiceModule.get_ _ _ _ _ σ) as [[r σ1]|] eqn:Hget; [|done].
    simpl. intros [= <-]. apply (get__awaitOk _ _ _ _ _ _ Hok) in Hget.
    revert Hget. by apply (awaitOk_insert _ _ p (Running k r)).
Qed.

Lemma initialize_awaitOk this f p args σ q σ' :
  awaitOk σ →
  ServiceModule.initialize modules this f p args σ = Some (q, σ') → awaitOk σ'.
Proof.
  intros Hok. unfold ServiceModule.initialize.
  assert (Hinvoke : ∀ cached,
    ServiceModule.invoke modules this f p args cached σ = Some (q, σ') →
    awaitOk σ').
  { intros cached. rewrite invoke_unfold. cbv zeta.
    destruct (ServiceModule.run _ _ _ _) as [σ4|] eqn:Hrun; [|done]. simpl.
    intros [= <- <-]. revert Hrun. apply run_awaitOk.
    revert Hok. apply (awaitOk_snoc _ _ Pending); destruct cached; simpl;
      try done; set_solver. }
  destruct (lifecycle f); [by apply Hinvoke|].
  destruct (cache σ !! _); [by intros [= <- <-]|by apply Hinvoke].
Qed.

Lemma step_awaitOk σ σ' :
  awaitOk σ → ServiceModule.step modules null σ σ' → awaitOk σ'.
Proof.
  intros Hok Hstep. revert Hok.
  destruct Hstep as [this key σ0 p σ1 Hget|this key σ0 p σ1 Hget
                    |this scope_ σ0 σ1 thrown Hd|p σ0 σ1 Hfire]; intros Hok.
  - by eapply get__awaitOk.
  - unfold ServiceModule.getOrNull, ServiceModule.get in Hget.
    destruct (ServiceModule.get_ _ _ _ _ σ0) as [[q σ2]|] eqn:Hq; [|done].
    simpl in Hget. injection Hget as <- <-.
    pose proof (get__awaitOk _ _ _ _ _ _ Hok Hq) as Hok2.
    apply get__fresh in Hq as [Hlt _].
    revert Hok2. by apply (awaitOk_snoc _ _ (OrNullAwait q)).
  - apply dispose_spec in Hd as (invoked & Htrace & _ & _ & _ & Ht & _).
    revert Hok. apply awaitOk_same; [done|]. rewrite Htrace. set_solver.
  - unfold ServiceModule.fire in Hfire.
    destruct (tasks σ0 !! p) as [[o| |this f deps|src|k awaited|src]|]; try done.
    + destruct (firstRejected deps σ0).
      { injection Hfire as <-. revert Hok.
        by eapply (awaitOk_insert _ _ p (Settled _)). }
      destruct (allFulfilled deps σ0) as [args|]; [|done]. simpl in Hfire.
      destruct (ServiceModule.initialize _ _ _ _ _ _) as [[q σ2]|] eqn:Hinit;
        [|done]. injection Hfire as <-.
      apply initialize_awaitOk in Hinit.
      * revert Hinit. by apply (awaitOk_insert _ _ p (Adopt q)).
      * revert Hok. by apply (awaitOk_insert _ _ p Pending).
    + destruct (outcomeOf σ0 src); [|done]. injection Hfire as <-.
      revert Hok. by eapply (awaitOk_insert _ _ p (Settled _)).
    + destruct (outcomeOf σ0 awaited); [|done]. by eapply run_awaitOk.
    + destruct (outcomeOf σ0 src) as [[v|[]]|]; try done; injection Hfire as <-;
        revert Hok; by eapply (awaitOk_insert _ _ p (Settled _)).
Qed.

Lemma reachable_awaitOk σ :
  ServiceModule.reachable modules null σ → awaitOk σ.
Proof.
  intros [w Hsteps].
  assert (Hgen : ∀ σ0, rtc (ServiceModule.step modules null) σ0 σ →
                       awaitOk σ0 → awaitOk σ).
  { clear. induction 1; [done|]. intros HI. eauto using step_awaitOk. }
  apply (Hgen _ Hsteps). by intros p t.
Qed.

(** *** The events of a step *)

(** No constructor among the events. *)
Definition callsOnly (evs : list Event) : Prop :=
  ∀ this s r q, EvConstruct this s r q ∉ evs.

Lemma evolves_callsOnly except σ σ' :
  evolves except σ σ' → ∃ evs, trace σ' = trace σ ++ evs ∧ callsOnly evs.
Proof.
  intros [_ _ _ (evs & Htrace & Hevs)]. exists evs. split; [done|].
  intros this s r q Hin. rewrite Forall_forall in Hevs.
  by destruct (Hevs _ Hin) as (? & ? & ? & ? & _).
Qed.

Lemma initialize_events this f p args σ q σ' :
  ServiceModule.initialize modules this f p args σ = Some (q, σ') →
  ∃ evs, trace σ' = trace σ ++ evs
    ∧ ∀ this' s r q', EvConstruct this' s r q' ∈ evs →
        this' = this ∧ s = symbol_of (provides f) ∧ r = p.
Proof.
  unfold ServiceModule.initialize.
  assert (Hinvoke : ∀ cached,
    ServiceModule.invoke modules this f p args cached σ = Some (q, σ') →
    ∃ evs, trace σ' = trace σ ++ evs
      ∧ ∀ this' s r q', EvConstruct this' s r q' ∈ evs →
          this' = this ∧ s = symbol_of (provides f) ∧ r = p).
  { intros cached. rewrite invoke_unfold. cbv zeta.
    destruct (ServiceModule.run _ _ _ _) as [σ4|] eqn:Hrun; [|done]. simpl.
    intros [= <- <-]. apply run_evolves, evolves_callsOnly in Hrun
      as (evs & Htrace & Hevs).
    eexists (_ :: evs). split.
    - rewrite Htrace. destruct cached; simpl; by rewrite <- app_assoc.
    - intros this' s r q' [Heq|Hin]%elem_of_cons; [by simplify_eq|].
      by destruct (Hevs _ _ _ _ Hin). }
  destruct (lifecycle f); [by apply Hinvoke|].
  destruct (cache σ !! _); [|by apply Hinvoke].
  intros [= <- <-]. exists []. rewrite app_nil_r. split; [done|].
  intros ???? Hin. by apply elem_of_nil in Hin.
Qed.

(** A step only adds events, and a constructor runs only for a call of
    [get] that was waiting and whose dependencies have all fulfilled. *)
Lemma step_events σ σ' :
  ServiceModule.step modules null σ σ' →
  ∃ evs, trace σ' = trace σ ++ evs
    ∧ ∀ this s r q, EvConstruct this s r q ∈ evs →
        ∃ f deps args, tasks σ !! r = Some (GetAwait this f deps)
                       ∧ s = symbol_of (provides f)
                       ∧ Forall2 (resolvedAs σ) deps args.
Proof.
  assert (Hnone : ∀ σ0 σ1 evs, trace σ1 = trace σ0 ++ evs → callsOnly evs →
    ∃ evs, trace σ1 = trace σ0 ++ evs
      ∧ ∀ this s r q, EvConstruct this s r q ∈ evs →
          ∃ f deps args, tasks σ0 !! r = Some (GetAwait this f deps)
                         ∧ s = symbol_of (provides f)
                         ∧ Forall2 (resolvedAs σ0) deps args).
  { intros σ0 σ1 evs Htrace Hevs. exists evs. split; [done|].
    intros this s r q Hin. by destruct (Hevs _ _ _ _ Hin). }
  assert (Hsame : ∀ σ0 σ1, trace σ1 = trace σ0 →
    ∃ evs, trace σ1 = trace σ0 ++ evs
      ∧ ∀ this s r q, EvConstruct this s r q ∈ evs →
          ∃ f deps args, tasks σ0 !! r = Some (GetAwait this f deps)
                         ∧ s = symbol_of (provides f)
                         ∧ Forall2 (resolvedAs σ0) deps args).
  { intros σ0 σ1 Htrace. apply (Hnone _ _ []); [by rewrite app_nil_r|].
    intros ???? Hin. by apply elem_of_nil in Hin. }
  intros [this key σ0 p σ1 Hget|this key σ0 p σ1 Hget
         |this scope_ σ0 σ1 thrown Hd|p σ0 σ1 Hfire].
  - apply get_evolves in Hget as [(evs & ? & ?)%evolves_callsOnly _]. eauto.
  - unfold ServiceModule.getOrNull in Hget.
    destruct (ServiceModule.get _ _ _ σ0) as [[q σ2]|] eqn:Hq; [|done].
    simpl in Hget. injection Hget as <- <-.
    apply get_evolves in Hq as [(evs & ? & ?)%evolves_callsOnly _].
    apply (Hnone _ _ evs); done.
  - apply dispose_spec in Hd as (invoked & Htrace & _).
    apply (Hnone _ _ _ Htrace). intros this' s r q. unfold disposals.
    rewrite list_elem_of_fmap. by intros (? & ? & _).
  - unfold ServiceModule.fire in Hfire.
    destruct (tasks σ0 !! p) as [[o| |this f deps|src|k awaited|src]|] eqn:Hp;
      try done.
    + destruct (firstRejected deps σ0).
      { injection Hfire as <-. by apply Hsame. }
      destruct (allFulfilled deps σ0) as [args|] eqn:Hall; [|done].
      simpl in Hfire.
      destruct (ServiceModule.initialize _ _ _ _ _ _) as [[q σ2]|] eqn:Hinit;
        [|done]. injection Hfire as <-.
      apply initialize_events in Hinit as (evs & Htrace & Hevs).
      exists evs. split; [done|]. intros this' s r q' Hin.
      destruct (Hevs _ _ _ _ Hin) as (-> & -> & ->).
      exists f, deps, args. split_and!; [done..|]. by apply allFulfilled_Some.
    + destruct (outcomeOf σ0 src); [|done]. injection Hfire as <-.
      by apply Hsame.
    + destruct (outcomeOf σ0 awaited); [|done].
      apply run_evolves, evolves_callsOnly in Hfire as (evs & ? & ?). eauto.
    + destruct (outcomeOf σ0 src) as [[v|[]]|]; try done; injection Hfire as <-;
        by apply Hsame.
Qed.

(** *** Constructors run after the dependencies *)

(** Every plain dependency of the factory has been asked for, and that
    call has fulfilled. *)
Definition dependenciesDone σ this f : Prop :=
  Forall (fun dependencyKey =>
            values dependencyKey = None →
            ∃ q v, EvGet this (symbol_of dependencyKey) q ∈ trace σ
                   ∧ outcomeOf σ q = Some (Fulfilled v))
         (dependsOn f).

Definition constructOk σ : Prop :=
  ∀ this s r q, EvConstruct this s r q ∈ trace σ →
    ∃ f, owner modules this s = Some f ∧ dependenciesDone σ this f.

Lemma step_outcomeOf σ σ' q o :
  ServiceModule.step modules null σ σ' →
  outcomeOf σ q = Some o → outcomeOf σ' q = Some o.
Proof.
  intros [Hkeep _]%step_keeps. unfold outcomeOf.
  destruct (tasks σ !! q) as [[]|] eqn:Hq; try done.
  intros [= <-]. by rewrite (Hkeep _ _ Hq).
Qed.

Lemma dependenciesDone_resolved σ this f deps args :
  Forall2 (dependencyOf σ this) (dependsOn f) deps →
  Forall2 (resolvedAs σ) deps args →
  dependenciesDone σ this f.
Proof.
  unfold dependenciesDone. generalize (dependsOn f). intros keys Hdeps.
  revert args. induction Hdeps as [|d a keys deps Hd _ IH]; intros args Hargs;
    [constructor|].
  apply Forall2_cons_inv_l in Hargs as (x & args' & Hx & Hargs' & ->).
  constructor; [|by eapply IH].
  intros Hvalues. unfold dependencyOf in Hd. rewrite Hvalues in Hd.
  destruct Hd as (q & -> & Hq). destruct Hx as (v & Hv & _). by exists q, v.
Qed.

Lemma step_constructOk σ σ' :
  Inv modules σ → awaitOk σ → constructOk σ →
  ServiceModule.step modules null σ σ' → constructOk σ'.
Proof.
  intros HI Hok Hc Hstep.
  destruct (step_events σ σ' Hstep) as (evs & Htrace & Hevs).
  assert (Hmono : ∀ this f, dependenciesDone σ this f → dependenciesDone σ' this f).
  { intros this f. unfold dependenciesDone. intros Hdone.
    eapply Forall_impl; [exact Hdone|]. intros d Hd Hvalues.
    destruct (Hd Hvalues) as (q & v & Hq & Hv).
    exists q, v. split; [rewrite Htrace; set_solver|by eapply step_outcomeOf]. }
  intros this s r q. rewrite Htrace.
  intros [Hold|Hnew]%elem_of_app.
  - destruct (Hc _ _ _ _ Hold) as (f & Hf & Hdone). exists f. auto.
  - destruct (Hevs _ _ _ _ Hnew) as (f & deps & args & Hr & -> & Hargs).
    exists f. split; [by destruct (inv_await _ _ HI _ _ _ _ Hr)|].
    apply Hmono. destruct (Hok _ _ Hr) as [Hdeps _].
    by eapply dependenciesDone_resolved.
Qed.

Lemma reachable_constructOk σ :
  ServiceModule.reachable modules null σ → constructOk σ.
Proof.
  intros [w Hsteps].
  assert (Hgen : ∀ σ0, rtc (ServiceModule.step modules null) σ0 σ →
            Inv modules σ0 → awaitOk σ0 → constructOk σ0 → constructOk σ).
  { clear. induction 1 as [|σ1 σ2 σ3 Hstep _ IH]; [done|]. intros HI Hok Hc.
    apply IH; [by eapply step_Inv|by eapply step_awaitOk|by eapply step_constructOk]. }
  apply (Hgen _ Hsteps); [apply Inv_initial|by intros p t|].
  intros this s r q Hin. by apply elem_of_nil in Hin.
Qed.
End Waiting.

(** ** The event loop drained *)

Section Evaluation.
Context {W Value Exn : Type}.
Implicit Types (σ : Config W Value Exn) (t : Task W Value Exn) (p q : pid).

(** A constructor that does not call back into the container, run from an
    application state: the state it leaves and its outcome. [None]: it asks
    a selector for a member. *)
Fixpoint eval (prog : Prog W Value Exn) (w : W)
  : option (W * Outcome Value Exn) :=
  match prog with
  | Return v => Some (w, Fulfilled v)
  | Raise e => Some (w, Rejected e)
  | Update action k => eval (k (action w)) (action w)
  | AwaitGet _ _ _ => None
  end.

(** The arguments [get] passes to [initialize]: a value for a plain key, the
    selector bound to the module for a selector key, in the order of
    [dependsOn]. *)
Definition argumentsFor (this : module_ref) (f : ServiceFactory W Value Exn)
    (args : list (Resolved Value)) : Prop :=
  Forall2 (fun dependencyKey x =>
             match values dependencyKey with
             | Some _ => x = RSelector {| selector_module := this;
                                          selector_key := dependencyKey |}
             | None => ∃ v, x = RValue v
             end) (dependsOn f) args.

(** The jobs a promise still needs before it is settled: a call of [get]
    resumes once when its dependencies have settled and once more when
    [initialize]'s promise has. *)
Definition pendingJobs t : nat :=
  match t with
  | Settled _ => 0
  | GetAwait _ _ _ => 2
  | Pending | Adopt _ | Running _ _ | OrNullAwait _ => 1
  end.

Definition jobsLeft σ : nat := sum_list_with pendingJobs (tasks σ).

Lemma jobs_insert (l : list (Task W Value Exn)) p t t' :
  l !! p = Some t →
  sum_list_with pendingJobs (<[p := t']> l) + pendingJobs t
  = sum_list_with pendingJobs l + pendingJobs t'.
Proof.
  revert p. induction l as [|t0 l IH]; intros [|p]; csimpl; try done.
  - intros [= ->]. lia.
  - intros Hp. specialize (IH _ Hp). lia.
Qed.

Lemma jobs_unsettled (l : list (Task W Value Exn)) :
  0 < sum_list_with pendingJobs l →
  ∃ p t, l !! p = Some t ∧ ∀ o, t ≠ Settled o.
Proof.
  induction l as [|t0 l IH]; csimpl; [lia|]. intros Hpos.
  destruct (decide (pendingJobs t0 = 0)) as [Hzero|Hjob].
  - destruct IH as (p & t & Hp & Ht); [lia|]. by exists (S p), t.
  - exists 0, t0. split; [done|]. by intros o ->.
Qed.

Lemma jobs_settled (l : list (Task W Value Exn)) p t :
  sum_list_with pendingJobs l = 0 → l !! p = Some t → ∃ o, t = Settled o.
Proof.
  revert p. induction l as [|t0 l IH]; intros [|p]; csimpl; try done.
  - intros Hsum [= ->]. destruct t; simpl in Hsum; try lia. by eexists.
  - intros Hsum. apply IH. lia.
Qed.

Lemma jobsLeft_bound σ : jobsLeft σ ≤ 2 * length (tasks σ).
Proof.
  unfold jobsLeft. induction (tasks σ) as [|t l IH]; csimpl; [lia|].
  destruct t; simpl; lia.
Qed.

Lemma mapM_total {A B : Type} (h : A → option B) (l : list A) :
  Forall (fun x => is_Some (h x)) l → is_Some (mapM h l).
Proof.
  intros Hall. induction Hall as [|x l [y Hy] _ [ys Hys]]; [by eexists|].
  exists (y :: ys). apply mapM_Some. constructor; [done|]. by apply mapM_Some.
Qed.

(** When every promise given to [Promise.all] has settled, it has settled. *)
Lemma all_settled deps σ :
  settledOk σ →
  (∀ q, q ∈ promisesOf deps → is_Some (outcomeOf σ q)) →
  is_Some (firstRejected deps σ) ∨ is_Some (allFulfilled deps σ).
Proof.
  intros Hok Hall.
  destruct (firstRejected deps σ) as [e|] eqn:Hfirst; [left; by eexists|right].
  apply mapM_total, Forall_forall. intros [sel|q] Hin; [by eexists|].
  assert (Hq : q ∈ promisesOf deps).
  { apply list_elem_of_omap. by exists (APromise q). }
  destruct (Hall q Hq) as [[v|e] Ho]; rewrite Ho; [by eexists|].
  destruct (firstRejected_Some deps σ q e Hok Hq) as (? & ? & ? & _);
    [|congruence].
  unfold rejectionOf. by rewrite Ho.
Qed.

Lemma firstRejected_elem deps σ e :
  firstRejected deps σ = Some e →
  ∃ q, q ∈ promisesOf deps ∧ outcomeOf σ q = Some (Rejected e).
Proof.
  unfold firstRejected.
  destruct (filter _ _) as [|q l] eqn:Hfilter; [done|]. intros He.
  assert (Hq : q ∈ filter (fun p => p ∈ promisesOf deps
                                    ∧ is_Some (rejectionOf σ p)) (settlements σ))
    by (rewrite Hfilter; set_solver).
  apply list_elem_of_filter in Hq as [[Hdep _] _].
  exists q. split; [done|]. unfold rejectionOf in He.
  by destruct (outcomeOf σ q) as [[]|]; simplify_eq.
Qed.

Lemma resolved_argumentsFor σ this f deps args :
  Forall2 (dependencyOf σ this) (dependsOn f) deps →
  Forall2 (resolvedAs σ) deps args →
  argumentsFor this f args.
Proof.
  unfold argumentsFor. generalize (dependsOn f). intros keys Hdeps.
  revert args. induction Hdeps as [|d a keys deps Hd _ IH]; intros args Hargs.
  - apply Forall2_nil_inv_l in Hargs as ->. constructor.
  - apply Forall2_cons_inv_l in Hargs as (x & args' & Hx & Hargs' & ->).
    constructor; [|by apply IH].
    unfold dependencyOf in Hd. destruct (values d).
    + by subst a.
    + destruct Hd as (q & -> & _). destruct Hx as (v & _ & ->). by exists v.
Qed.
End Evaluation.

Section Draining.
Context {W Value Exn : Type}.
Variable modules : module_ref → ServiceModule W Value Exn.
Variable null : Value.
(** What is known of the outcomes of the constructors. *)
Variable good : Outcome Value Exn → Prop.
Implicit Types (σ : Config W Value Exn) (f g : ServiceFactory W Value Exn)
  (this : module_ref) (s : symbol) (p q r : pid) (ev : Event)
  (key : ServiceKey) (t : Task W Value Exn).

(** Every constructor of the modules ends by itself, with a good outcome. *)
Definition constructorsEnd : Prop :=
  ∀ this f args w, f ∈ factories (modules this) → argumentsFor this f args →
    ∃ w' o, eval (construct f args) w = Some (w', o) ∧ good o.

Lemma run_eval prog p σ w o :
  eval prog (world σ) = Some (w, o) →
  ServiceModule.run modules prog p σ = Some (settle p o (setWorld w σ)).
Proof.
  revert σ. induction prog as [v|e|action k IH|sel key k IH]; intros σ; simpl.
  - by intros [= <- <-].
  - by intros [= <- <-].
  - intros Heval. by rewrite (IH _ (setWorld (action (world σ)) σ)).
  - done.
Qed.

(** [initialize] hands out the cached promise, or runs the constructor to
    its end. *)
Lemma initialize_closed this f p args σ q σ' :
  (∀ w, ∃ w' o, eval (construct f args) w = Some (w', o) ∧ good o) →
  ServiceModule.initialize modules this f p args σ = Some (q, σ') →
  (cache σ !! (this, symbol_of (provides f)) = Some q ∧ σ' = σ)
  ∨ ∃ w' o, eval (construct f args) (world σ) = Some (w', o) ∧ good o
      ∧ q = length (tasks σ)
      ∧ tasks σ' = tasks σ ++ [Settled o]
      ∧ trace σ' = trace σ ++ [EvConstruct this (symbol_of (provides f)) p q]
      ∧ ∀ k q', cache σ' !! k = Some q' → cache σ !! k = Some q' ∨ q' = q.
Proof.
  intros Hends. unfold ServiceModule.initialize.
  assert (Hinvoke : ∀ cached,
    ServiceModule.invoke modules this f p args cached σ = Some (q, σ') →
    ∃ w' o, eval (construct f args) (world σ) = Some (w', o) ∧ good o
      ∧ q = length (tasks σ)
      ∧ tasks σ' = tasks σ ++ [Settled o]
      ∧ trace σ' = trace σ ++ [EvConstruct this (symbol_of (provides f)) p q]
      ∧ ∀ k q', cache σ' !! k = Some q' → cache σ !! k = Some q' ∨ q' = q).
  { intros cached. rewrite invoke_unfold. cbv zeta.
    destruct (Hends (world σ)) as (w & o & Heval & Hgood).
    rewrite (run_eval _ _ _ w o) by (by destruct cached). simpl.
    intros [= <- <-]. exists w, o. split_and!; try done.
    - destruct cached; simpl; apply insert_last.
    - by destruct cached.
    - intros k q'. destruct cached; simpl; [|auto].
      intros [[<- <-]|[_ Hold]]%lookup_insert_Some; auto. }
  destruct (lifecycle f); [right; by apply (Hinvoke false)|].
  destruct (cache σ !! _) eqn:Hcache; [|right; by apply (Hinvoke true)].
  intros [= <- <-]. by left.
Qed.

(** *** No promise is left half-way *)

Definition settledWell σ q : Prop := ∃ o, outcomeOf σ q = Some o ∧ good o.

Definition quietTask σ t : Prop :=
  match t with
  | Pending | Running _ _ => False
  | Adopt made => settledWell σ made
  | _ => True
  end.

Record Quiet σ : Prop := {
  quiet_tasks : ∀ p t, tasks σ !! p = Some t → quietTask σ t;
  quiet_cache : ∀ k q, cache σ !! k = Some q → settledWell σ q;
}.

(** How a suspended promise resumes: what it was, what it becomes, and the
    promise made on the way. *)
Inductive resumed σ : Task W Value Exn → Task W Value Exn
                      → list (Task W Value Exn) → Prop :=
| resumed_rejects this f deps e :
    firstRejected deps σ = Some e →
    resumed σ (GetAwait this f deps) (Settled (Rejected e)) []
| resumed_cached this f deps made :
    cache σ !! (this, symbol_of (provides f)) = Some made →
    resumed σ (GetAwait this f deps) (Adopt made) []
| resumed_constructs this f deps o :
    good o →
    resumed σ (GetAwait this f deps) (Adopt (length (tasks σ))) [Settled o]
| resumed_adopts src o :
    outcomeOf σ src = Some o →
    resumed σ (Adopt src) (Settled o) []
| resumed_orNull src o :
    outcomeOf σ src = Some o →
    resumed σ (OrNullAwait src)
      (Settled match o with
               | Rejected (ServiceFactoryNotFoundError _) => Fulfilled null
               | _ => o
               end) [].

Lemma fire_resumed p σ σ' :
  constructorsEnd → Inv modules σ → awaitOk σ → Quiet σ →
  ServiceModule.fire modules null p σ = Some σ' →
  ∃ t t' new, tasks σ !! p = Some t ∧ resumed σ t t' new
    ∧ tasks σ' = <[p := t']> (tasks σ) ++ new
    ∧ ∀ k q, cache σ' !! k = Some q →
        cache σ !! k = Some q ∨ (q = length (tasks σ) ∧ new ≠ []).
Proof.
  intros Hends HI Hok Hquiet. unfold ServiceModule.fire.
  destruct (tasks σ !! p) as [[o| |this f deps|src|k awaited|src]|] eqn:Hp;
    try done.
  - destruct (firstRejected deps σ) as [e|] eqn:Hfirst.
    { intros [= <-]. exists (GetAwait this f deps), (Settled (Rejected e)), [].
      split_and!; [done|by constructor|simpl; by rewrite app_nil_r|auto]. }
    destruct (allFulfilled deps σ) as [args|] eqn:Hall; [|done]. simpl.
    destruct (ServiceModule.initialize _ _ _ _ _ _) as [[q σ1]|] eqn:Hinit;
      [|done]. simpl. intros [= <-].
    assert (Hlt : p < length (tasks σ)) by (by eapply lookup_lt_Some).
    apply initialize_closed in Hinit
      as [[Hcache ->]|(w' & o & _ & Hgood & -> & Htasks & _ & Hcache)].
    + exists (GetAwait this f deps), (Adopt q), [].
      split_and!; [done|by constructor| |auto]. simpl.
      by rewrite list_insert_insert_eq, app_nil_r.
    + exists (GetAwait this f deps), (Adopt (length (tasks σ))), [Settled o].
      simpl in *. rewrite length_insert.
      split_and!; [done|by constructor| |].
      * rewrite Htasks, insert_app_l by (by rewrite length_insert).
        by rewrite list_insert_insert_eq.
      * intros k' q' [?| ->]%Hcache; [by left|right].
        by rewrite length_insert.
    + intros w. apply (Hends this f args w).
      * destruct (inv_await _ _ HI _ _ _ _ Hp) as (Hf & _). by eapply owner_elem.
      * destruct (Hok _ _ Hp) as [Hdeps _].
        eapply resolved_argumentsFor; [exact Hdeps|]. by apply allFulfilled_Some.
  - destruct (outcomeOf σ src) as [o|] eqn:Hsrc; [|done]. simpl. intros [= <-].
    exists (Adopt src), (Settled o), [].
    split_and!; [done|by constructor|simpl; by rewrite app_nil_r|auto].
  - by destruct (quiet_tasks _ Hquiet _ _ Hp).
  - destruct (outcomeOf σ src) as [o|] eqn:Hsrc; [|done]. simpl. intros Hfire.
    exists (OrNullAwait src),
      (Settled match o with
               | Rejected (ServiceFactoryNotFoundError _) => Fulfilled null
               | _ => o
               end), [].
    split_and!; [done|by constructor| |].
    + destruct o as [v|[]]; injection Hfire as <-; simpl; by rewrite app_nil_r.
    + destruct o as [v|[]]; injection Hfire as <-; auto.
Qed.

Lemma resumed_fewer σ t t' new :
  resumed σ t t' new →
  pendingJobs t' < pendingJobs t ∧ sum_list_with pendingJobs new = 0.
Proof. destruct 1; simpl; split; lia. Qed.

Lemma fire_fewer p σ σ' :
  constructorsEnd → Inv modules σ → awaitOk σ → Quiet σ →
  ServiceModule.fire modules null p σ = Some σ' →
  jobsLeft σ' < jobsLeft σ.
Proof.
  intros Hends HI Hok Hquiet Hfire.
  destruct (fire_resumed p σ σ' Hends HI Hok Hquiet Hfire)
    as (t & t' & new & Hp & Hres & Htasks & _).
  apply resumed_fewer in Hres as [Hlt Hnew]. unfold jobsLeft.
  rewrite Htasks, sum_list_with_app, Hnew.
  pose proof (jobs_insert (tasks σ) p t t' Hp). lia.
Qed.

Lemma settledWell_step σ σ' q :
  ServiceModule.step modules null σ σ' → settledWell σ q → settledWell σ' q.
Proof. intros Hstep (o & Ho & Hgood). exists o. split; [|done]. by eapply step_outcomeOf. Qed.

Lemma Quiet_frame σ σ' :
  ServiceModule.step modules null σ σ' →
  (∀ p t, tasks σ' !! p = Some t → tasks σ !! p = Some t ∨ quietTask σ' t) →
  (∀ k q, cache σ' !! k = Some q → cache σ !! k = Some q ∨ settledWell σ' q) →
  Quiet σ → Quiet σ'.
Proof.
  intros Hstep Htasks Hcache [Ht Hc]. split.
  - intros p t Hp. destruct (Htasks p t Hp) as [Hold|Hnew]; [|done].
    specialize (Ht _ _ Hold). destruct t; try done. by eapply settledWell_step.
  - intros k q Hq. destruct (Hcache k q Hq) as [Hold|Hnew]; [|done].
    eapply settledWell_step; [done|]. by eapply Hc.
Qed.

(** The promises a call of [get] makes wait for dependencies or are
    rejected. *)
Definition bornWaiting t : Prop :=
  match t with GetAwait _ _ _ | Settled _ => True | _ => False end.

Lemma get__born fuel this key σ p σ' :
  ServiceModule.get_ modules fuel this key σ = Some (p, σ') →
  ∀ i t, tasks σ' !! i = Some t → tasks σ !! i = Some t ∨ bornWaiting t.
Proof.
  revert this key σ p σ'.
  induction fuel as [|fuel IH]; intros this key σ p σ'; rewrite get__unfold;
    destruct (owner modules this (symbol_of key)) as [f|]; try done.
  - intros [= <- <-] i t. simpl. rewrite insert_last.
    intros [?|[_ Hlast]]%lookup_app_Some; [by left|right].
    apply list_lookup_singleton_Some in Hlast as [_ <-]. done.
  - destruct (ServiceModule.mapState _ _ σ) as [[deps σ1]|] eqn:Hmap; [|done].
    simpl. intros [= <- <-] i t. simpl.
    intros [Hold|[_ Hlast]]%lookup_app_Some.
    + revert i t Hold. revert Hmap.
      apply (mapState_preserves
               (fun σ σ' => ∀ i t, tasks σ' !! i = Some t →
                                   tasks σ !! i = Some t ∨ bornWaiting t));
        [auto|..].
      * intros σ2 σ3 σ4 H23 H34 i t [?|?]%H34; auto.
      * intros x σ2 y σ3.
        apply (resolveDependency_preserves
                 (fun σ σ' => ∀ i t, tasks σ' !! i = Some t →
                                     tasks σ !! i = Some t ∨ bornWaiting t));
          [auto|]. intros key' σ4 q σ5. apply IH.
    + right. apply list_lookup_singleton_Some in Hlast as [_ <-]. done.
  - intros [= <- <-] i t. simpl. rewrite insert_last.
    intros [?|[_ Hlast]]%lookup_app_Some; [by left|right].
    apply list_lookup_singleton_Some in Hlast as [_ <-]. done.
Qed.

Lemma bornWaiting_quiet σ t : bornWaiting t → quietTask σ t.
Proof. by destruct t. Qed.

Lemma step_Quiet σ σ' :
  constructorsEnd → Inv modules σ → awaitOk σ → Quiet σ →
  ServiceModule.step modules null σ σ' → Quiet σ'.
Proof.
  intros Hends HI Hok Hquiet Hstep. pose proof Hstep as Hcases.
  destruct Hcases as [this key σ0 p σ1 Hget|this key σ0 p σ1 Hget
                     |this scope_ σ0 σ1 thrown Hd|p σ0 σ1 Hfire].
  - revert Hquiet. apply Quiet_frame; [done| |].
    + intros i t [?|?%(bornWaiting_quiet σ1)]%(get__born _ _ _ _ _ _ Hget); auto.
    + apply get_evolves in Hget as [Hev _]. rewrite (ev_cache _ _ _ Hev). auto.
  - revert Hquiet. apply Quiet_frame; [done| |];
      unfold ServiceModule.getOrNull, ServiceModule.get in Hget;
      destruct (ServiceModule.get_ _ _ _ _ σ0) as [[q σ2]|] eqn:Hq; try done;
      simpl in Hget; injection Hget as <- <-; simpl.
    + intros i t [Hi|[_ Hlast]]%lookup_app_Some.
      * apply (get__born _ _ _ _ _ _ Hq) in Hi as [?|Hb]; [by left|right].
        by destruct t.
      * right. apply list_lookup_singleton_Some in Hlast as [_ <-]. done.
    + apply get__evolves in Hq as [Hev _]. rewrite (ev_cache _ _ _ Hev). auto.
  - apply dispose_frame in Hd as (Ht & Hc & _).
    revert Hquiet. apply Quiet_frame; [done| |]; rewrite ?Ht, ?Hc; auto.
  - destruct (fire_resumed p σ0 σ1 Hends HI Hok Hquiet Hfire)
      as (t & t' & new & Hp & Hres & Htasks & Hcache).
    assert (Hlt : p < length (tasks σ0)) by (by eapply lookup_lt_Some).
    assert (Hnew : ∀ o, new = [Settled o] → good o →
              settledWell σ1 (length (tasks σ0))).
    { intros o -> Hgood. exists o. split; [|done]. unfold outcomeOf.
      rewrite Htasks, lookup_app_r by (by rewrite length_insert).
      by rewrite length_insert, Nat.sub_diag. }
    apply (Quiet_frame σ0 σ1 Hstep); [| |done].
    + intros i t0. rewrite Htasks.
      intros [Hi|[_ Hlast]]%lookup_app_Some.
      * apply list_lookup_insert_Some in Hi as [(-> & <- & _)|[_ Hold]];
          [right|by left].
        destruct Hres; simpl; try done.
        -- eapply settledWell_step; [done|]. by eapply quiet_cache.
        -- by eapply Hnew.
      * right. destruct Hres; try by apply elem_of_nil in Hlast.
        all: try (by rewrite lookup_nil in Hlast).
        apply list_lookup_singleton_Some in Hlast as [_ <-]. done.
    + intros k q [?|[-> Hne]]%Hcache; [by left|right].
      destruct Hres; try done. by eapply Hnew.
Qed.

Lemma reachable_Quiet σ :
  constructorsEnd → ServiceModule.reachable modules null σ → Quiet σ.
Proof.
  intros Hends [w Hsteps].
  assert (Hgen : ∀ σ0, rtc (ServiceModule.step modules null) σ0 σ →
            Inv modules σ0 → awaitOk σ0 → Quiet σ0 → Quiet σ).
  { clear -Hends. induction 1 as [|σ1 σ2 σ3 Hstep _ IH]; [done|].
    intros HI Hok Hq.
    apply IH; [by eapply step_Inv|by eapply step_awaitOk|by eapply step_Quiet]. }
  apply (Hgen _ Hsteps); [apply Inv_initial|by intros p t|]. by split.
Qed.
End Draining.

(** *** Some promise can always resume *)

Section Progress.
Context {W Value Exn : Type}.
Variable modules : module_ref → ServiceModule W Value Exn.
Variable null : Value.
Variable good : Outcome Value Exn → Prop.
Implicit Types (σ : Config W Value Exn) (f g : ServiceFactory W Value Exn)
  (this : module_ref) (s : symbol) (p q r : pid) (ev : Event)
  (key : ServiceKey) (t : Task W Value Exn).

Lemma firstJob_is_Some ps σ q :
  q ∈ ps → is_Some (ServiceModule.fire modules null q σ) →
  is_Some (ServiceModule.firstJob modules null ps σ).
Proof.
  induction ps as [|p ps IH]; [by intros ?%elem_of_nil|]. simpl.
  intros [->|Hq]%elem_of_cons Hfire.
  - destruct Hfire as [σ' ->]. by eexists.
  - destruct (ServiceModule.fire modules null p σ); [by eexists|auto].
Qed.

Lemma firstJob_fire ps σ σ' :
  ServiceModule.firstJob modules null ps σ = Some σ' →
  ∃ p, ServiceModule.fire modules null p σ = Some σ'.
Proof.
  induction ps as [|p ps IH]; simpl; [done|].
  destruct (ServiceModule.fire modules null p σ) as [σ1|] eqn:Hfire; [|done].
  intros [= <-]. by exists p.
Qed.

Lemma initialize_ends this f p args σ :
  (∀ w, ∃ w' o, eval (construct f args) w = Some (w', o) ∧ good o) →
  is_Some (ServiceModule.initialize modules this f p args σ).
Proof.
  intros Hends. unfold ServiceModule.initialize.
  assert (Hinvoke : ∀ cached,
            is_Some (ServiceModule.invoke modules this f p args cached σ)).
  { intros cached. rewrite invoke_unfold. cbv zeta.
    destruct (Hends (world σ)) as (w & o & Heval & _).
    rewrite (run_eval _ _ _ _ w o) by (by destruct cached). by eexists. }
  destruct (lifecycle f); [done|]. destruct (cache σ !! _); [by eexists|done].
Qed.

Lemma unsettled_fires σ :
  constructorsEnd modules good → Inv modules σ → awaitOk σ →
  Quiet good σ → settledOk σ →
  ∀ p, p < length (tasks σ) → outcomeOf σ p = None →
       ∃ q, q < length (tasks σ)
            ∧ is_Some (ServiceModule.fire modules null q σ).
Proof.
  intros Hends HI Hok Hquiet Hsettled p.
  induction (lt_wf p) as [p _ IH]. intros Hlt Hnone.
  destruct (lookup_lt_is_Some_2 _ _ Hlt) as [t Hp].
  pose proof (quiet_tasks _ _ Hquiet _ _ Hp) as Hq.
  pose proof (Hok _ _ Hp) as Hwait.
  unfold outcomeOf in Hnone. rewrite Hp in Hnone.
  destruct t as [o| |this f deps|made|k awaited|src]; try done.
  - destruct Hwait as [Hdeps Holder].
    destruct (decide (Forall (fun q => is_Some (outcomeOf σ q)) (promisesOf deps)))
      as [Hall|Hsome].
    + exists p. split; [done|]. unfold ServiceModule.fire. rewrite Hp.
      rewrite Forall_forall in Hall.
      destruct (all_settled deps σ Hsettled Hall) as [[e ->]|[args Hargs]];
        [by eexists|].
      destruct (firstRejected deps σ); [by eexists|]. rewrite Hargs. simpl.
      destruct (initialize_ends this f p args (setTask p Pending σ))
        as [[q σ1] ->]; [|by eexists].
      intros w. apply (Hends this f args w).
      * destruct (inv_await _ _ HI _ _ _ _ Hp) as (Hf & _). by eapply owner_elem.
      * eapply resolved_argumentsFor; [exact Hdeps|]. by apply allFulfilled_Some.
    + apply not_Forall_Exists, Exists_exists in Hsome as (q & Hin & Hnot);
        [|apply _].
      apply (IH q); [by apply Holder|specialize (Holder q Hin); lia|].
      by apply eq_None_not_Some.
  - destruct Hq as (o & Ho & _). exists p. split; [done|].
    unfold ServiceModule.fire. rewrite Hp, Ho. by eexists.
  - destruct (outcomeOf σ src) as [o|] eqn:Hsrc.
    + exists p. split; [done|]. unfold ServiceModule.fire. rewrite Hp, Hsrc.
      simpl. destruct o as [v|[]]; by eexists.
    + simpl in Hwait. apply (IH src); [done|lia|done].
Qed.

Lemma next_is_Some σ :
  constructorsEnd modules good → Inv modules σ → awaitOk σ →
  Quiet good σ → settledOk σ →
  0 < jobsLeft σ → is_Some (ServiceModule.next modules null σ).
Proof.
  intros Hends HI Hok Hquiet Hsettled Hpos.
  apply jobs_unsettled in Hpos as (p & t & Hp & Ht).
  destruct (unsettled_fires σ Hends HI Hok Hquiet Hsettled p) as (q & Hlt & Hfire).
  - by eapply lookup_lt_Some.
  - unfold outcomeOf. rewrite Hp. destruct t; try done. by destruct (Ht o).
  - unfold ServiceModule.next. apply (firstJob_is_Some _ _ q); [|done].
    apply elem_of_seq. lia.
Qed.

Lemma next_None σ :
  (∀ p, p < length (tasks σ) → is_Some (outcomeOf σ p)) →
  ServiceModule.next modules null σ = None.
Proof.
  intros Hall. unfold ServiceModule.next.
  destruct (ServiceModule.firstJob _ _ _ _) as [σ'|] eqn:Hnext; [|done].
  apply firstJob_fire in Hnext as [p Hfire]. unfold ServiceModule.fire in Hfire.
  destruct (tasks σ !! p) as [t|] eqn:Hp; [|done].
  destruct (Hall p) as [o Ho]; [by eapply lookup_lt_Some|].
  unfold outcomeOf in Ho. rewrite Hp in Ho. by destruct t.
Qed.

(** Draining the event loop settles every promise, in as many jobs as
    were left. *)
Lemma drain_settles n σ :
  constructorsEnd modules good →
  ServiceModule.reachable modules null σ → jobsLeft σ ≤ n →
  jobsLeft (ServiceModule.drain modules null n σ) = 0.
Proof.
  intros Hends. revert σ. induction n as [|n IH]; intros σ Hreach Hle; simpl;
    [lia|].
  pose proof (reachable_Inv _ _ _ Hreach) as HI.
  pose proof (reachable_awaitOk _ _ _ Hreach) as Hok.
  pose proof (reachable_Quiet _ _ _ _ Hends Hreach) as Hquiet.
  pose proof (reachable_settledOk _ _ _ Hreach) as Hsettled.
  destruct (ServiceModule.next modules null σ) as [σ'|] eqn:Hnext.
  - apply IH.
    + apply (reachable_step _ _ σ); [done|]. by apply rtc_once, next_step.
    + apply firstJob_fire in Hnext as [p Hfire].
      pose proof (fire_fewer _ _ _ _ _ _ Hends HI Hok Hquiet Hfire). lia.
  - destruct (decide (jobsLeft σ = 0)) as [|Hpos]; [done|].
    destruct (next_is_Some σ Hends HI Hok Hquiet Hsettled) as [σ' Hσ']; [lia|].
    congruence.
Qed.

Lemma steps_outcomeOf σ σ' q o :
  rtc (ServiceModule.step modules null) σ σ' →
  outcomeOf σ q = Some o → outcomeOf σ' q = Some o.
Proof. induction 1; [done|]. eauto using step_outcomeOf. Qed.

Lemma steps_trace σ σ' ev :
  rtc (ServiceModule.step modules null) σ σ' → ev ∈ trace σ → ev ∈ trace σ'.
Proof.
  induction 1 as [|σ1 σ2 σ3 Hstep _ IH]; [done|]. intros Hev. apply IH.
  apply step_events in Hstep as (evs & -> & _). set_solver.
Qed.

Lemma drained σ :
  constructorsEnd modules good →
  ServiceModule.reachable modules null σ →
  let σ' := ServiceModule.drain modules null (jobsLeft σ) σ in
  (∀ p, p < length (tasks σ') → is_Some (outcomeOf σ' p))
  ∧ ServiceModule.next modules null σ' = None
  ∧ (∀ p o, outcomeOf σ p = Some o → outcomeOf σ' p = Some o)
  ∧ (∀ ev, ev ∈ trace σ → ev ∈ trace σ').
Proof.
  intros Hends Hreach σ'.
  assert (Hall : ∀ p, p < length (tasks σ') → is_Some (outcomeOf σ' p)).
  { intros p Hlt. destruct (lookup_lt_is_Some_2 _ _ Hlt) as [t Hp].
    destruct (jobs_settled (tasks σ') p t) as [o ->]; [|done|].
    - by apply drain_settles.
    - unfold outcomeOf. rewrite Hp. by eexists. }
  split_and!; [done|by apply next_None| |].
  - intros p o. apply steps_outcomeOf, drain_steps.
  - intros ev. apply steps_trace, drain_steps.
Qed.
End Progress.

(** ** Calls that cannot fail *)

Section Success.
Context {W Value Exn : Type}.
Variable modules : module_ref → ServiceModule W Value Exn.
Variable null : Value.
Implicit Types (σ : Config W Value Exn) (f g : ServiceFactory W Value Exn)
  (this : module_ref) (s : symbol) (p q r : pid) (ev : Event)
  (key : ServiceKey) (t : Task W Value Exn).

Definition fulfilled (o : Outcome Value Exn) : Prop := ∃ v, o = Fulfilled v.

(** The only rejections: a call of [get] for a key that no factory of the
    module provides. *)
Definition rejectedCall σ p (e : Error Exn) : Prop :=
  isNotFound e = true
  ∧ ∃ this s, EvGet this s p ∈ trace σ ∧ owner modules this s = None.

Definition rejectionsOk σ : Prop :=
  ∀ p e, outcomeOf σ p = Some (Rejected e) → rejectedCall σ p e.

Lemma rejectionsOk_frame σ σ' :
  (∀ ev, ev ∈ trace σ → ev ∈ trace σ') →
  (∀ p e, outcomeOf σ' p = Some (Rejected e) →
          outcomeOf σ p = Some (Rejected e) ∨ rejectedCall σ' p e) →
  rejectionsOk σ → rejectionsOk σ'.
Proof.
  intros Hsub Hnew Hok p e Hp. destruct (Hnew p e Hp) as [Hold|?]; [|done].
  destruct (Hok p e Hold) as (? & this & s & ? & ?).
  split; [done|]. exists this, s. auto.
Qed.

Lemma rejectionsOk_snoc σ σ' t :
  tasks σ' = tasks σ ++ [t] → (∀ ev, ev ∈ trace σ → ev ∈ trace σ') →
  (∀ e, t = Settled (Rejected e) → rejectedCall σ' (length (tasks σ)) e) →
  rejectionsOk σ → rejectionsOk σ'.
Proof.
  intros Ht Hsub Hnew. apply rejectionsOk_frame; [done|].
  intros p e. unfold outcomeOf. rewrite Ht.
  destruct ((tasks σ ++ [t]) !! p) as [t'|] eqn:Hp; [|done].
  apply lookup_app_Some in Hp as [->|[Hge Hlast]]; [by left|].
  apply list_lookup_singleton_Some in Hlast as [Hp' <-].
  replace p with (length (tasks σ)) by lia.
  destruct t as [[]| | | | |]; try done. intros [= <-]. right. by apply Hnew.
Qed.

Lemma get__rejectionsOk fuel this key σ p σ' :
  rejectionsOk σ → ServiceModule.get_ modules fuel this key σ = Some (p, σ') →
  rejectionsOk σ'.
Proof.
  revert this key σ p σ'.
  assert (Hmissing : ∀ this key σ,
    owner modules this (symbol_of key) = None → rejectionsOk σ →
    rejectionsOk
      (settle (length (tasks σ)) (Rejected (ServiceModule.notFound key))
         (log (EvGet this (symbol_of key) (length (tasks σ)))
            (newTask Pending σ).2))).
  { intros this key σ Hf.
    eapply (rejectionsOk_snoc _ _ (Settled (Rejected (ServiceModule.notFound key))));
      simpl.
    - apply insert_last.
    - set_solver.
    - intros e [= <-]. split; [done|]. exists this, (symbol_of key).
      split; [simpl; set_solver|done]. }
  induction fuel as [|fuel IH]; intros this key σ p σ' Hok; rewrite get__unfold;
    destruct (owner modules this (symbol_of key)) as [f|] eqn:Hf; try done.
  - intros [= <- <-]. by apply Hmissing.
  - destruct (ServiceModule.mapState _ _ σ) as [[deps σ1]|] eqn:Hmap; [|done].
    simpl. intros [= <- <-].
    assert (Hok1 : rejectionsOk σ1).
    { revert Hok. revert Hmap.
      apply (mapState_preserves (fun σ σ' => rejectionsOk σ → rejectionsOk σ'));
        [auto..|].
      intros x σ2 y σ3.
      apply (resolveDependency_preserves
               (fun σ σ' => rejectionsOk σ → rejectionsOk σ')); [auto|].
      intros key' σ4 q σ5 Hget Hok'. by eapply IH. }
    revert Hok1. apply (rejectionsOk_snoc _ _ (GetAwait this f deps)); simpl;
      [done|set_solver|done].
  - intros [= <- <-]. by apply Hmissing.
Qed.

Lemma plain_expanded f dependencyKey :
  dependencyKey ∈ dependsOn f → values dependencyKey = None →
  dependencyKey ∈ expandedDeps f.
Proof.
  intros Hin Hvalues. unfold expandedDeps. apply list_elem_of_In, in_flat_map.
  exists dependencyKey. split; [by apply list_elem_of_In|].
  unfold keysToCheck. rewrite Hvalues. by left.
Qed.

(** The promise held for a dependency is the promise of a call of [get] for
    a plain key of [dependsOn]. *)
Lemma dependency_call σ this (keys : list ServiceKey) deps q :
  Forall2 (dependencyOf σ this) keys deps → q ∈ promisesOf deps →
  ∃ dependencyKey, dependencyKey ∈ keys ∧ values dependencyKey = None
                   ∧ EvGet this (symbol_of dependencyKey) q ∈ trace σ.
Proof.
  induction 1 as [|d a keys deps Hd _ IH]; [by intros ?%elem_of_nil|].
  unfold dependencyOf in Hd. destruct (values d) eqn:Hvalues.
  - subst a. simpl. intros (d' & ? & ? & ?)%IH. exists d'. set_solver.
  - destruct Hd as (q' & -> & Hq'). simpl.
    intros [->|(d' & ? & ? & ?)%IH]%elem_of_cons.
    + exists d. set_solver.
    + exists d'. set_solver.
Qed.

(** In modules with every dependency registered, a dependency of a waiting
    call has not been rejected. *)
Lemma dependencies_not_rejected σ p this f deps e :
  (∀ this, satisfiable (factories (modules this))) →
  Inv modules σ → awaitOk σ → rejectionsOk σ →
  tasks σ !! p = Some (GetAwait this f deps) → firstRejected deps σ ≠ Some e.
Proof.
  intros Hsat HI Hok Hrej Hp (q & Hq & Hout)%firstRejected_elem.
  destruct (Hrej q e Hout) as (_ & this' & s' & Hcall & Hnone).
  destruct (Hok _ _ Hp) as [Hdeps _].
  destruct (dependency_call _ _ _ _ _ Hdeps Hq) as (d & Hd & Hvalues & Hcall').
  destruct (call_unique _ _ _ _ _ _ _ HI Hcall' Hcall) as [-> ->].
  destruct (inv_await _ _ HI _ _ _ _ Hp) as (Hf & _).
  assert (Hsome : is_Some (owner modules this (symbol_of d))).
  { apply owner_is_Some, (Hsat this f); [by eapply owner_elem|].
    by apply plain_expanded. }
  rewrite Hnone in Hsome. by destruct Hsome.
Qed.

Lemma step_rejectionsOk σ σ' :
  constructorsEnd modules fulfilled →
  (∀ this, satisfiable (factories (modules this))) →
  Inv modules σ → awaitOk σ → Quiet fulfilled σ → rejectionsOk σ →
  ServiceModule.step modules null σ σ' → rejectionsOk σ'.
Proof.
  intros Hends Hsat HI Hok Hquiet Hrej Hstep.
  destruct (step_events _ _ _ _ Hstep) as (evs & Htrace & _).
  assert (Hsub : ∀ ev, ev ∈ trace σ → ev ∈ trace σ')
    by (intros ev; rewrite Htrace; set_solver).
  clear evs Htrace. revert Hsub.
  destruct Hstep as [this key σ0 p σ1 Hget|this key σ0 p σ1 Hget
                    |this scope_ σ0 σ1 thrown Hd|p σ0 σ1 Hfire]; intros Hsub.
  - by eapply get__rejectionsOk.
  - unfold ServiceModule.getOrNull, ServiceModule.get in Hget.
    destruct (ServiceModule.get_ _ _ _ _ σ0) as [[q σ2]|] eqn:Hq; [|done].
    simpl in Hget. injection Hget as <- <-.
    pose proof (get__rejectionsOk _ _ _ _ _ _ Hrej Hq) as Hrej2.
    revert Hrej2. by apply (rejectionsOk_snoc _ _ (OrNullAwait q)).
  - apply dispose_frame in Hd as (Ht & _). revert Hrej.
    apply rejectionsOk_frame; [done|]. unfold outcomeOf. rewrite Ht. auto.
  - destruct (fire_resumed _ _ _ p σ0 σ1 Hends HI Hok Hquiet Hfire)
      as (t & t' & new & Hp & Hres & Htasks & _).
    apply (rejectionsOk_frame σ0 σ1 Hsub); [|done].
    intros i e. unfold outcomeOf. rewrite Htasks.
    destruct ((<[p := t']> (tasks σ0) ++ new) !! i) as [t0|] eqn:Hi; [|done].
    destruct t0 as [o| | | | |]; try done. intros [= ->].
    apply lookup_app_Some in Hi as [Hi|[_ Hlast]].
    + apply list_lookup_insert_Some in Hi as [(-> & -> & _)|[_ Hold]];
        [|left; by rewrite Hold].
      exfalso. inversion Hres as [this f deps e' Hfirst| | |src o Hsrc|src o Hsrc];
        subst.
      * by eapply (dependencies_not_rejected σ0 i).
      * destruct (quiet_tasks _ _ Hquiet _ _ Hp) as (o' & Ho' & v & ->).
        congruence.
      * destruct o as [v|e']; [done|].
        destruct (Hrej src e' Hsrc) as [Hnot _]. by destruct e'.
    + exfalso. inversion Hres as [| |this f deps o [v ->]| |]; subst;
        try (by rewrite lookup_nil in Hlast).
      by apply list_lookup_singleton_Some in Hlast as [_ [=]].
Qed.

Lemma reachable_rejectionsOk σ :
  constructorsEnd modules fulfilled →
  (∀ this, satisfiable (factories (modules this))) →
  ServiceModule.reachable modules null σ → rejectionsOk σ.
Proof.
  intros Hends Hsat [w Hsteps].
  assert (Hgen : ∀ σ0, rtc (ServiceModule.step modules null) σ0 σ →
            Inv modules σ0 → awaitOk σ0 → Quiet fulfilled σ0 →
            rejectionsOk σ0 → rejectionsOk σ).
  { clear -Hends Hsat. induction 1 as [|σ1 σ2 σ3 Hstep _ IH]; [done|].
    intros HI Hok Hq Hrej.
    apply IH; [by eapply step_Inv|by eapply step_awaitOk
              |by eapply step_Quiet|by eapply step_rejectionsOk]. }
  apply (Hgen _ Hsteps); [apply Inv_initial|by intros p t|by split|].
  by intros p e.
Qed.

(** A call of [get] for a registered key is never rejected, and it is
    fulfilled once the event loop has been drained. *)
Lemma registered_fulfilled σ this s p :
  constructorsEnd modules fulfilled →
  (∀ this, validModule (modules this)) →
  ServiceModule.reachable modules null σ →
  EvGet this s p ∈ trace σ → is_Some (owner modules this s) →
  (∀ e, outcomeOf σ p ≠ Some (Rejected e))
  ∧ ∃ v, outcomeOf (ServiceModule.drain modules null (jobsLeft σ) σ) p
         = Some (Fulfilled v).
Proof.
  intros Hends Hvalid Hreach Hcall Hsome.
  assert (Hsat : ∀ this, satisfiable (factories (modules this))).
  { intros this'. by destruct (validModule_inv _ (Hvalid this')) as (_ & ? & _). }
  assert (Hnever : ∀ σ', ServiceModule.reachable modules null σ' →
            EvGet this s p ∈ trace σ' → ∀ e, outcomeOf σ' p ≠ Some (Rejected e)).
  { intros σ' Hreach' Hcall' e Hout.
    destruct (reachable_rejectionsOk σ' Hends Hsat Hreach' p e Hout)
      as (_ & this' & s' & Hcall'' & Hnone).
    destruct (call_unique _ _ _ _ _ _ _ (reachable_Inv _ _ _ Hreach') Hcall' Hcall'')
      as [-> ->].
    rewrite Hnone in Hsome. by destruct Hsome. }
  split; [by apply Hnever|].
  destruct (drained modules null fulfilled σ Hends Hreach)
    as (Hall & _ & _ & Htrace).
  set (σ' := ServiceModule.drain modules null (jobsLeft σ) σ) in *.
  assert (Hreach' : ServiceModule.reachable modules null σ').
  { apply (reachable_step _ _ σ); [done|apply drain_steps]. }
  destruct (Hall p) as [[v|e] Ho]; [|by exists v|].
  - pose proof (reachable_Inv _ _ _ Hreach') as HI.
    pose proof (inv_range _ _ HI) as Hrange. rewrite Forall_forall in Hrange.
    by apply (Hrange _ (Htrace _ Hcall)).
  - by destruct (Hnever σ' Hreach' (Htrace _ Hcall) e).
Qed.
End Success.

(** ** What the calls resolve to *)

Section Values.
Context {W Value Exn : Type}.
Variable modules : module_ref → ServiceModule W Value Exn.
Variable null : Value.
Implicit Types (σ : Config W Value Exn) (f g : ServiceFactory W Value Exn)
  (this : module_ref) (s : symbol) (p q r : pid) (ev : Event)
  (key : ServiceKey) (t : Task W Value Exn).

(** The values a module makes for a key: what the constructor of the
    factory for the key returns, from some application state, when it is
    given arguments made for its [dependsOn], entry by entry: for a selector
    key the selector bound to the module, for a plain key a value the module
    makes for that key. *)
Inductive yields this : symbol → Value → Prop :=
| yields_constructed s f args w w' v :
    owner modules this s = Some f →
    yieldsAll this (dependsOn f) args →
    eval (construct f args) w = Some (w', Fulfilled v) →
    yields this s v
with yieldsAll this : list ServiceKey → list (Resolved Value) → Prop :=
| yieldsAll_nil : yieldsAll this [] []
| yieldsAll_selector dependencyKey members keys args :
    values dependencyKey = Some members →
    yieldsAll this keys args →
    yieldsAll this (dependencyKey :: keys)
      (RSelector {| selector_module := this; selector_key := dependencyKey |}
       :: args)
| yieldsAll_plain dependencyKey v keys args :
    values dependencyKey = None →
    yields this (symbol_of dependencyKey) v →
    yieldsAll this keys args →
    yieldsAll this (dependencyKey :: keys) (RValue v :: args).

(** Every constructor that was invoked has ended, and what it returned is
    a value the module makes for the key. *)
Definition constructedOk σ : Prop :=
  ∀ this s r q, EvConstruct this s r q ∈ trace σ →
    ∃ o, outcomeOf σ q = Some o ∧ ∀ v, o = Fulfilled v → yields this s v.

Lemma elem_of_constructions σ this s q :
  q ∈ constructions σ this s ↔ ∃ r, EvConstruct this s r q ∈ trace σ.
Proof.
  unfold constructions. rewrite list_elem_of_omap. split.
  - intros (ev & Hev & Hmade). destruct ev; simplify_eq/=.
    case_decide as Heq; simplify_eq. destruct Heq as [-> ->]. by eexists.
  - intros [r Hev]. eexists. split; [done|]. simpl. by rewrite decide_True.
Qed.

Lemma call_yields σ this s p v :
  Inv modules σ → constructedOk σ →
  EvGet this s p ∈ trace σ → outcomeOf σ p = Some (Fulfilled v) →
  yields this s v.
Proof.
  intros HI Hc Hcall Hv.
  pose proof (inv_calls _ _ HI _ _ _ Hcall) as Hok.
  unfold callOk in Hok. unfold outcomeOf in Hv.
  destruct (tasks σ !! p) as [[o| | | | |]|] eqn:Hp; simplify_eq.
  destruct Hok as [[e [=]]|(f & q & Hf & Hret & Hq)].
  assert (Hev : ∃ r, EvConstruct this s r q ∈ trace σ).
  { unfold returnedBy in Hret. rewrite (owner_symbol _ _ _ _ Hf) in Hret.
    destruct (lifecycle f); [by exists p|].
    apply (inv_cache _ _ HI) in Hret. by apply elem_of_constructions. }
  destruct Hev as [r Hev]. destruct (Hc _ _ _ _ Hev) as (o & Ho & Hyields).
  apply Hyields. unfold outcomeOf in Ho. rewrite Hq in Ho. congruence.
Qed.

Lemma arguments_yield σ this (keys : list ServiceKey) deps args :
  Inv modules σ → constructedOk σ →
  Forall2 (dependencyOf σ this) keys deps → Forall2 (resolvedAs σ) deps args →
  yieldsAll this keys args.
Proof.
  intros HI Hc Hdeps. revert args.
  induction Hdeps as [|d a keys deps Hd _ IH]; intros args Hargs.
  - apply Forall2_nil_inv_l in Hargs as ->. constructor.
  - apply Forall2_cons_inv_l in Hargs as (x & args' & Hx & Hargs' & ->).
    unfold dependencyOf in Hd. destruct (values d) as [members|] eqn:Hvalues.
    + subst a. simpl in Hx. subst x. econstructor; [done|by apply IH].
    + destruct Hd as (q & -> & Hq). destruct Hx as (v & Hv & ->).
      apply yieldsAll_plain; [done| |by apply IH]. by eapply call_yields.
Qed.

(** The constructors a step invokes. *)
Lemma step_constructed σ σ' :
  constructorsEnd modules (fun _ => True) →
  Inv modules σ → awaitOk σ → Quiet (fun _ => True) σ →
  ServiceModule.step modules null σ σ' →
  ∀ this s r q, EvConstruct this s r q ∈ trace σ' →
    EvConstruct this s r q ∈ trace σ
    ∨ ∃ f deps args w' o,
        tasks σ !! r = Some (GetAwait this f deps)
        ∧ s = symbol_of (provides f)
        ∧ Forall2 (resolvedAs σ) deps args
        ∧ eval (construct f args) (world σ) = Some (w', o)
        ∧ outcomeOf σ' q = Some o.
Proof.
  intros Hends HI Hok Hquiet Hstep this s r q.
  assert (Hcalls : ∀ evs, trace σ' = trace σ ++ evs → callsOnly evs →
            EvConstruct this s r q ∈ trace σ' →
            EvConstruct this s r q ∈ trace σ
            ∨ ∃ f deps args w' o,
                tasks σ !! r = Some (GetAwait this f deps)
                ∧ s = symbol_of (provides f)
                ∧ Forall2 (resolvedAs σ) deps args
                ∧ eval (construct f args) (world σ) = Some (w', o)
                ∧ outcomeOf σ' q = Some o).
  { intros evs -> Hevs [?|Hin]%elem_of_app; [by left|].
    by destruct (Hevs _ _ _ _ Hin). }
  assert (Hsame : trace σ' = trace σ →
            EvConstruct this s r q ∈ trace σ' →
            EvConstruct this s r q ∈ trace σ
            ∨ ∃ f deps args w' o,
                tasks σ !! r = Some (GetAwait this f deps)
                ∧ s = symbol_of (provides f)
                ∧ Forall2 (resolvedAs σ) deps args
                ∧ eval (construct f args) (world σ) = Some (w', o)
                ∧ outcomeOf σ' q = Some o).
  { intros ->. by left. }
  revert Hcalls Hsame.
  destruct Hstep as [this0 key σ0 p σ1 Hget|this0 key σ0 p σ1 Hget
                    |this0 scope_ σ0 σ1 thrown Hd|p σ0 σ1 Hfire];
    intros Hcalls Hsame.
  - apply get_evolves in Hget as [(evs & ? & ?)%evolves_callsOnly _]. eauto.
  - unfold ServiceModule.getOrNull in Hget.
    destruct (ServiceModule.get _ _ _ σ0) as [[q0 σ2]|] eqn:Hq; [|done].
    simpl in Hget. injection Hget as <- <-.
    apply get_evolves in Hq as [(evs & ? & ?)%evolves_callsOnly _].
    by apply (Hcalls evs).
  - apply dispose_spec in Hd as (invoked & Htrace & _).
    apply (Hcalls _ Htrace). intros this' s' r' q'. unfold disposals.
    rewrite list_elem_of_fmap. by intros (? & ? & _).
  - unfold ServiceModule.fire in Hfire.
    destruct (tasks σ0 !! p) as [[o| |this1 f deps|src|k awaited|src]|] eqn:Hp;
      try done.
    + destruct (firstRejected deps σ0).
      { injection Hfire as <-. by apply Hsame. }
      destruct (allFulfilled deps σ0) as [args|] eqn:Hall; [|done].
      simpl in Hfire.
      destruct (ServiceModule.initialize _ _ _ _ _ _) as [[q0 σ2]|] eqn:Hinit;
        [|done]. injection Hfire as <-.
      assert (Hlt : p < length (tasks σ0)) by (by eapply lookup_lt_Some).
      apply allFulfilled_Some in Hall.
      apply (initialize_closed modules (fun _ => True)) in Hinit
        as [[_ ->]|(w' & o & Heval & _ & -> & Htasks & Htrace & _)].
      * by apply Hsame.
      * simpl in *. rewrite Htrace.
        intros [?|Hnew%list_elem_of_singleton]%elem_of_app; [by left|right].
        injection Hnew as -> -> -> ->.
        exists f, deps, args, w', o. split_and!; try done.
        unfold outcomeOf. simpl. rewrite length_insert.
        rewrite list_lookup_insert_ne by lia.
        rewrite Htasks, lookup_app_r by (by rewrite length_insert).
        by rewrite length_insert, Nat.sub_diag.
      * intros w. apply (Hends this1 f args w).
        -- destruct (inv_await _ _ HI _ _ _ _ Hp) as (Hf & _).
           by eapply owner_elem.
        -- destruct (Hok _ _ Hp) as [Hdeps _].
           by eapply resolved_argumentsFor.
    + destruct (outcomeOf σ0 src); [|done]. injection Hfire as <-.
      by apply Hsame.
    + by destruct (quiet_tasks _ _ Hquiet _ _ Hp).
    + destruct (outcomeOf σ0 src) as [[v|[]]|]; try done; injection Hfire as <-;
        by apply Hsame.
Qed.

Lemma step_constructedOk σ σ' :
  constructorsEnd modules (fun _ => True) →
  Inv modules σ → awaitOk σ → Quiet (fun _ => True) σ → constructedOk σ →
  ServiceModule.step modules null σ σ' → constructedOk σ'.
Proof.
  intros Hends HI Hok Hquiet Hc Hstep this s r q Hev.
  destruct (step_constructed σ σ' Hends HI Hok Hquiet Hstep this s r q Hev)
    as [Hold|(f & deps & args & w' & o & Hr & -> & Hargs & Heval & Ho)].
  - destruct (Hc _ _ _ _ Hold) as (o & Ho & Hyields). exists o.
    split; [by eapply step_outcomeOf|done].
  - exists o. split; [done|]. intros v ->.
    destruct (inv_await _ _ HI _ _ _ _ Hr) as (Hf & _).
    destruct (Hok _ _ Hr) as [Hdeps _].
    eapply yields_constructed; [done| |done]. by eapply arguments_yield.
Qed.

Lemma reachable_constructedOk σ :
  constructorsEnd modules (fun _ => True) →
  ServiceModule.reachable modules null σ → constructedOk σ.
Proof.
  intros Hends [w Hsteps].
  assert (Hgen : ∀ σ0, rtc (ServiceModule.step modules null) σ0 σ →
            Inv modules σ0 → awaitOk σ0 → Quiet (fun _ => True) σ0 →
            constructedOk σ0 → constructedOk σ).
  { clear -Hends. induction 1 as [|σ1 σ2 σ3 Hstep _ IH]; [done|].
    intros HI Hok Hq Hc.
    apply IH; [by eapply step_Inv|by eapply step_awaitOk
              |by eapply step_Quiet|by eapply step_constructedOk]. }
  apply (Hgen _ Hsteps); [apply Inv_initial|by intros p t|by split|].
  intros this s r q Hin. by apply elem_of_nil in Hin.
Qed.

(** *** [getOrNull], from the call to the end *)

(** What [getOrNull] makes of the outcome of [get]. *)
Definition orNull (o : Outcome Value Exn) : Outcome Value Exn :=
  match o with
  | Rejected (ServiceFactoryNotFoundError _) => Fulfilled null
  | _ => o
  end.

(** The promise of [getOrNull] waits for the promise of [get], or it has
    settled with what [get]'s promise settled with, converted. *)
Definition orNullOk σ p src : Prop :=
  tasks σ !! p = Some (OrNullAwait src)
  ∨ ∃ o, outcomeOf σ src = Some o ∧ outcomeOf σ p = Some (orNull o).

Lemma step_orNullOk σ σ' p src :
  constructorsEnd modules (fun _ => True) →
  Inv modules σ → awaitOk σ → Quiet (fun _ => True) σ →
  ServiceModule.step modules null σ σ' →
  orNullOk σ p src → orNullOk σ' p src.
Proof.
  intros Hends HI Hok Hquiet Hstep [Hp|(o & Hsrc & Ho)].
  - assert (Hkept : tasks σ' !! p = Some (OrNullAwait src) → orNullOk σ' p src)
      by (by left).
    revert Hkept. pose proof Hstep as Hcases.
    destruct Hcases as [this key σ0 p0 σ1 Hget|this key σ0 p0 σ1 Hget
                       |this scope_ σ0 σ1 thrown Hd|p0 σ0 σ1 Hfire];
      intros Hkept.
    + apply Hkept. apply get_evolves in Hget as [Hev _].
      apply (ev_tasks _ _ _ Hev); [by intros []|done].
    + apply Hkept. unfold ServiceModule.getOrNull in Hget.
      destruct (ServiceModule.get _ _ _ σ0) as [[q σ2]|] eqn:Hq; [|done].
      simpl in Hget. injection Hget as <- <-. simpl.
      apply lookup_app_l_Some. apply get_evolves in Hq as [Hev _].
      apply (ev_tasks _ _ _ Hev); [by intros []|done].
    + apply Hkept. apply dispose_frame in Hd as (-> & _). done.
    + destruct (fire_resumed modules null _ p0 σ0 σ1 Hends HI Hok Hquiet Hfire)
        as (t & t' & new & Hp0 & Hres & Htasks & _).
      assert (Hlt : p < length (tasks σ0)) by (by eapply lookup_lt_Some).
      destruct (decide (p0 = p)) as [->|Hne].
      * right. rewrite Hp in Hp0. injection Hp0 as <-.
        inversion Hres as [| | | |src' o Hsrc]; subst.
        exists o. split; [by eapply step_outcomeOf|].
        unfold outcomeOf. rewrite Htasks.
        rewrite lookup_app_l by (by rewrite length_insert).
        by rewrite list_lookup_insert_eq.
      * apply Hkept. rewrite Htasks.
        rewrite lookup_app_l by (by rewrite length_insert).
        by rewrite list_lookup_insert_ne.
  - right. exists o. split; by eapply step_outcomeOf.
Qed.

Lemma steps_orNullOk σ σ' p src :
  constructorsEnd modules (fun _ => True) →
  ServiceModule.reachable modules null σ →
  rtc (ServiceModule.step modules null) σ σ' →
  orNullOk σ p src → orNullOk σ' p src.
Proof.
  intros Hends Hreach Hsteps. revert Hreach.
  induction Hsteps as [|σ1 σ2 σ3 Hstep _ IH]; [done|]. intros Hreach Hp.
  apply IH.
  - apply (reachable_step _ _ σ1); [done|by apply rtc_once].
  - revert Hp. apply step_orNullOk; try done.
    + by eapply reachable_Inv.
    + by eapply reachable_awaitOk.
    + by eapply reachable_Quiet.
Qed.
End Values.

(** * The further properties, stated *)

(** The scenario of the test "should resolve a service with dependencies":
    its constructors end by themselves, and they fulfil. *)
Lemma scenario_constructors this (f : xFactory) args (w : nat) :
  f ∈ factories (moduleOf [makesV1; makesV2] this) → argumentsFor this f args →
  ∃ w' o, eval (construct f args) w = Some (w', o) ∧ fulfilled o.
Proof.
  simpl. intros [->|Hf]%elem_of_cons Hargs.
  - exists w, (Fulfilled "v1"). split; [done|by eexists].
  - apply list_elem_of_singleton in Hf as ->.
    unfold argumentsFor in Hargs. simpl in Hargs.
    apply Forall2_cons_inv_l in Hargs as (x & args' & [v ->] & Hrest & ->).
    apply Forall2_nil_inv_l in Hrest as ->.
    exists w, (Fulfilled ("v2-" +:+ v)). split; [done|by eexists].
Qed.

Lemma scenario_valid this : validModule (moduleOf [makesV1; makesV2] this).
Proof.
  exists [ServiceModule.EntryFactory makesV1; ServiceModule.EntryFactory makesV2].
  by vm_compute.
Qed.

(** X1: [from] returns a module exactly when the factories it keeps (of
    the flattened entries, the last one for each key) have no dependency
    cycle and no dependency that is not registered, a selector key standing
    for its members; the module then holds exactly these factories. *)
Theorem from_accepts_iff :
  ∀ (W Value Exn : Type) (entries : list (@ServiceModule.Entry W Value Exn)) m,
    let fs := ServiceModule.lastWins (ServiceModule.flatten entries) in
    ServiceModule.from entries = Ok m
    ↔ m = {| factories := fs |} ∧ ¬ hasCycle fs ∧ satisfiable fs.
Proof. intros W Value Exn entries m fs. apply from_Ok_iff. Qed.


(** X3: the factories of the module made by [from] are in the order in
    which their keys first occur in the flattened entries: a factory that
    overrides an earlier one takes the earlier one's place. *)
Theorem from_keeps_first_positions :
  ∀ (W Value Exn : Type) (entries : list (@ServiceModule.Entry W Value Exn)) m,
    ServiceModule.from entries = Ok m →
    keyOf <$> factories m
    = firstOccurrences (keyOf <$> ServiceModule.flatten entries).
Proof.
  intros W Value Exn entries m (-> & _)%from_Ok_iff. apply lastWins_keys.
Qed.

Lemma from_keeps_first_positions_witness :
  keyOf <$> factories {| factories := [factory1b; makesV2] |}
  = firstOccurrences
      (keyOf <$> ServiceModule.flatten
                   [ServiceModule.EntryFactory makesV1;
                    ServiceModule.EntryFactory makesV2;
                    ServiceModule.EntryFactory factory1b]).
Proof.
  apply (from_keeps_first_positions nat string string). by vm_compute.
Defined.

(** X4: a module made by [from], given to [from] as the only entry, comes
    back as it is: the same factories in the same order. *)
Theorem from_rewraps_module :
  ∀ (W Value Exn : Type) (m : ServiceModule W Value Exn),
    validModule m →
    ServiceModule.from [ServiceModule.EntryModule m] = Ok (Exn := Exn) m.
Proof.
  intros W Value Exn m Hv. destruct (validModule_inv m Hv) as (Hd & _).
  unfold ServiceModule.from, ServiceModule.flatten. simpl. rewrite app_nil_r.
  rewrite lastWins_distinct_id by done. by apply validModule_new.
Qed.

Lemma from_rewraps_module_witness :
  ServiceModule.from
    [ServiceModule.EntryModule {| factories := [makesV1; makesV2] |}]
  = Ok (Exn := string) {| factories := [makesV1; makesV2] |}.
Proof.
  apply from_rewraps_module.
  exists [ServiceModule.EntryFactory makesV1; ServiceModule.EntryFactory makesV2].
  by vm_compute.
Defined.

(** X5: two modules made by [from] that share no key merge without an
    error: [from] of the two returns the module with the factories of the
    first followed by those of the second. *)
Theorem from_merges_disjoint_modules :
  ∀ (W Value Exn : Type) (m1 m2 : ServiceModule W Value Exn),
    validModule m1 → validModule m2 →
    (∀ s, provided (factories m1) s → ¬ provided (factories m2) s) →
    ServiceModule.from [ServiceModule.EntryModule m1; ServiceModule.EntryModule m2]
    = Ok (Exn := Exn) {| factories := factories m1 ++ factories m2 |}.
Proof.
  intros W Value Exn m1 m2 Hv1 Hv2 Hdisjoint.
  destruct (validModule_inv m1 Hv1) as (Hd1 & Hsat1 & _).
  destruct (validModule_inv m2 Hv2) as (Hd2 & Hsat2 & _).
  destruct (validModule_new m1 Hv1) as [_ Hacyclic1].
  destruct (validModule_new m2 Hv2) as [_ Hacyclic2].
  unfold ServiceModule.from, ServiceModule.flatten. simpl. rewrite app_nil_r.
  assert (Hdistinct : distinctKeys (factories m1 ++ factories m2)).
  { unfold distinctKeys. rewrite fmap_app. apply NoDup_app.
    split_and!; [done| |done].
    intros s H1%provided_elem H2%provided_elem. by destruct (Hdisjoint s). }
  rewrite lastWins_distinct_id by done. apply new_Ok.
  - intros [s Hcycle].
    apply tc_dependsDirectly_app in Hcycle as [Hcycle|Hcycle]; try done.
    + apply Hacyclic1. by exists s.
    + apply Hacyclic2. by exists s.
  - intros f key [Hf|Hf]%elem_of_app Hkey.
    + destruct (Hsat1 f key Hf Hkey) as (g & Hg & Hs). exists g. set_solver.
    + destruct (Hsat2 f key Hf Hkey) as (g & Hg & Hs). exists g. set_solver.
Qed.

Lemma from_merges_disjoint_modules_witness :
  ServiceModule.from
    [ServiceModule.EntryModule {| factories := [makesValue1] |};
     ServiceModule.EntryModule {| factories := [makesValue2] |}]
  = Ok (Exn := string) {| factories := [makesValue1; makesValue2] |}.
Proof.
  apply (from_merges_disjoint_modules nat string string
           {| factories := [makesValue1] |} {| factories := [makesValue2] |}).
  - exists [ServiceModule.EntryFactory makesValue1]. by vm_compute.
  - exists [ServiceModule.EntryFactory makesValue2]. by vm_compute.
  - intros s (g & Hg & Hs) (g' & Hg' & Hs'). simpl in Hg, Hg'.
    apply list_elem_of_singleton in Hg, Hg'. subst. discriminate Hs'.
Defined.

(** X6: the order of the entries does not matter to the checks: when no key
    is provided twice and [from] accepts the entries, it accepts them in
    any other order, and the module it returns holds the factories in the
    order given. A dependency may be listed after the factory that needs
    it. *)
Theorem from_ignores_order :
  ∀ (W Value Exn : Type)
    (entries entries' : list (@ServiceModule.Entry W Value Exn)) m,
    distinctKeys (ServiceModule.flatten entries) →
    ServiceModule.flatten entries ≡ₚ ServiceModule.flatten entries' →
    ServiceModule.from entries = Ok m →
    m = {| factories := ServiceModule.flatten entries |}
    ∧ ServiceModule.from entries'
      = Ok {| factories := ServiceModule.flatten entries' |}.
Proof.
  intros W Value Exn entries entries' m Hdistinct Hp
    (-> & Hacyclic & Hsat)%from_Ok_iff.
  rewrite lastWins_distinct_id in Hacyclic, Hsat by done.
  rewrite lastWins_distinct_id by done. split; [done|].
  assert (Hdistinct' : distinctKeys (ServiceModule.flatten entries')).
  { unfold distinctKeys in *. by rewrite <- Hp. }
  apply from_Ok_iff. rewrite lastWins_distinct_id by done. split_and!; [done| |].
  - intros Hcycle. apply Hacyclic. revert Hcycle. by apply hasCycle_Permutation.
  - revert Hsat. by apply satisfiable_Permutation.
Qed.

Lemma from_ignores_order_witness :
  ServiceModule.from [ServiceModule.EntryFactory makesV2;
                      ServiceModule.EntryFactory makesV1]
  = Ok (Exn := string) {| factories := [makesV2; makesV1] |}.
Proof.
  refine (proj2 (from_ignores_order nat string string
                   [ServiceModule.EntryFactory makesV1;
                    ServiceModule.EntryFactory makesV2]
                   [ServiceModule.EntryFactory makesV2;
                    ServiceModule.EntryFactory makesV1]
                   {| factories := [makesV1; makesV2] |} _ _ _)).
  - apply NoDup_cons. split; [by intros ?%list_elem_of_singleton|].
    apply NoDup_singleton.
  - simpl. apply perm_swap.
  - by vm_compute.
Defined.

(** X7: a call of [get] returns before any constructor runs: the
    application state, the singleton cache and the promises made earlier are
    as they were, no constructor has been invoked, and the promise returned
    is a new one that is not fulfilled yet. Constructors run in later
    jobs only. *)
Theorem get_is_lazy :
  ∀ (W Value Exn : Type) (modules : module_ref → ServiceModule W Value Exn)
    this key (σ : Config W Value Exn) p σ',
    ServiceModule.get modules this key σ = Some (p, σ') →
    world σ' = world σ ∧ cache σ' = cache σ
    ∧ (∀ this' s, constructions σ' this' s = constructions σ this' s)
    ∧ (∀ i t, tasks σ !! i = Some t → tasks σ' !! i = Some t)
    ∧ length (tasks σ) ≤ p < length (tasks σ')
    ∧ ∀ v, outcomeOf σ' p ≠ Some (Fulfilled v).
Proof.
  intros W Value Exn modules this key σ p σ' Hget.
  pose proof (get__world _ _ _ _ _ _ _ Hget) as Hworld.
  pose proof (get__fresh _ _ _ _ _ _ _ Hget) as [Hp Hpending].
  apply get_evolves in Hget as [Hev Hle].
  split_and!; try done.
  - by destruct Hev.
  - intros this' s. by eapply evolves_constructions.
  - intros i t. apply (ev_tasks _ _ _ Hev). by intros [].
Qed.

Lemma get_is_lazy_witness :
  let σ' := callGets [counting singleton] [Key1] (initial 0) in
  world σ' = 0 ∧ constructions σ' 0 1 = [].
Proof.
  intros σ'.
  destruct (get_is_lazy nat string string (moduleOf [counting singleton])
              0 Key1 (initial 0) 0 σ') as (Hworld & _ & Hnone & _).
  - by vm_compute.
  - split; [exact Hworld|]. by rewrite Hnone.
Defined.

(** X8: in a module made by [from], a call of [get] for a key that a
    factory of the module provides finds a factory for every plain
    dependency, all the way down: every promise made by the call belongs to
    a call of [get] that found its factory and waits for its dependencies,
    and nothing is rejected at the call. *)
Theorem get_finds_every_dependency :
  ∀ (W Value Exn : Type) (modules : module_ref → ServiceModule W Value Exn)
    this key f (σ : Config W Value Exn) p σ',
    validModule (modules this) →
    owner modules this (symbol_of key) = Some f →
    ServiceModule.get modules this key σ = Some (p, σ') →
    settlements σ' = settlements σ
    ∧ ∀ i, length (tasks σ) ≤ i → i < length (tasks σ') →
        ∃ g deps, tasks σ' !! i = Some (GetAwait this g deps)
                  ∧ g ∈ factories (modules this).
Proof.
  intros W Value Exn modules this key f σ p σ' Hvalid Hf Hget.
  destruct (validModule_inv _ Hvalid) as (_ & Hsat & _).
  destruct (get__allFound modules (S (length (factories (modules this))))
              this key σ p σ' Hsat) as (? & _ & _ & ?);
    [by eexists|exact Hget|done].
Qed.

Lemma get_finds_every_dependency_witness :
  let σ' := callGets [makesV1; makesV2] [Key2] (initial 0) in
  settlements σ' = []
  ∧ ∃ g deps, tasks σ' !! 0 = Some (GetAwait 0 g deps)
              ∧ g ∈ [makesV1; makesV2].
Proof.
  intros σ'.
  destruct (get_finds_every_dependency nat string string
              (moduleOf [makesV1; makesV2]) 0 Key2 makesV2 (initial 0) 1 σ')
    as [Hsettled Hall].
  - apply scenario_valid.
  - reflexivity.
  - by vm_compute.
  - split; [exact Hsettled|]. apply (Hall 0); simpl; lia.
Defined.

(** X9: a constructor runs only after the dependencies: in every state the
    program can reach, whenever the constructor of a factory has been
    invoked for a call of [get], the module has that factory for the key,
    and for every plain key of its [dependsOn] a call of [get] for that key
    has been made and has fulfilled. *)
Theorem constructor_runs_after_dependencies :
  ∀ (W Value Exn : Type) (modules : module_ref → ServiceModule W Value Exn)
    (null : Value) σ this s r q,
    ServiceModule.reachable modules null σ →
    EvConstruct this s r q ∈ trace σ →
    ∃ f, owner modules this s = Some f
      ∧ EvGet this s r ∈ trace σ
      ∧ Forall (fun dependencyKey =>
                  values dependencyKey = None →
                  ∃ q' v, EvGet this (symbol_of dependencyKey) q' ∈ trace σ
                          ∧ outcomeOf σ q' = Some (Fulfilled v))
               (dependsOn f).
Proof.
  intros W Value Exn modules null σ this s r q Hreach Hev.
  destruct (reachable_constructOk modules null σ Hreach this s r q Hev)
    as (f & Hf & Hdone).
  exists f. split_and!; [done| |done].
  by apply (inv_construct _ _ (reachable_Inv _ _ _ Hreach)) in Hev.
Qed.

Lemma constructor_runs_after_dependencies_witness :
  let σ := afterGets [makesV1; makesV2] [Key2] in
  ∃ f, owner (moduleOf [makesV1; makesV2]) 0 2 = Some f
    ∧ Forall (fun dependencyKey =>
                values dependencyKey = None →
                ∃ q' v, EvGet 0 (symbol_of dependencyKey) q' ∈ trace σ
                        ∧ outcomeOf σ q' = Some (Fulfilled v))
             (dependsOn f).
Proof.
  intros σ.
  destruct (constructor_runs_after_dependencies nat string string
              (moduleOf [makesV1; makesV2]) "null" σ 0 2%positive 1 3)
    as (f & Hf & _ & Hdone).
  - apply afterGets_reachable.
  - vm_compute. apply list_elem_of_In. simpl. auto.
  - by exists f.
Defined.

(** X10: when no constructor calls back into the container (each ends by
    itself, returning or throwing), no call hangs. In every state the
    program can reach, every promise job that runs brings the number of
    jobs left down, and while a promise is unsettled some job can run: in
    whatever order the event loop takes them, it comes to rest after at most
    two jobs for each promise. Running the jobs that are left settles every
    promise, so every call of [get] made so far has fulfilled or rejected;
    nothing is left to run, and what had settled before is unchanged. *)
Theorem get_settles :
  ∀ (W Value Exn : Type) (modules : module_ref → ServiceModule W Value Exn)
    (null : Value) σ,
    (∀ this f args w, f ∈ factories (modules this) → argumentsFor this f args →
       is_Some (eval (construct f args) w)) →
    ServiceModule.reachable modules null σ →
    (∀ p σ1, ServiceModule.fire modules null p σ = Some σ1 →
             jobsLeft σ1 < jobsLeft σ)
    ∧ (0 < jobsLeft σ → is_Some (ServiceModule.next modules null σ))
    ∧ jobsLeft σ ≤ 2 * length (tasks σ)
    ∧ let σ' := ServiceModule.drain modules null (jobsLeft σ) σ in
      (∀ this s p, EvGet this s p ∈ trace σ → is_Some (outcomeOf σ' p))
      ∧ (∀ p, p < length (tasks σ') → is_Some (outcomeOf σ' p))
      ∧ ServiceModule.next modules null σ' = None
      ∧ (∀ p o, outcomeOf σ p = Some o → outcomeOf σ' p = Some o).
Proof.
  intros W Value Exn modules null σ Hends Hreach.
  assert (Hends' : constructorsEnd modules (fun _ => True)).
  { intros this f args w Hf Hargs.
    destruct (Hends this f args w Hf Hargs) as [[w' o] Heval]. by exists w', o. }
  pose proof (reachable_Inv _ _ _ Hreach) as HI.
  pose proof (reachable_awaitOk _ _ _ Hreach) as Hok.
  pose proof (reachable_Quiet _ _ _ _ Hends' Hreach) as Hquiet.
  pose proof (reachable_settledOk _ _ _ Hreach) as Hsettled.
  split_and!.
  - intros p σ1. by apply (fire_fewer modules null (fun _ => True)).
  - by apply (next_is_Some modules null (fun _ => True)).
  - apply jobsLeft_bound.
  - intros σ'.
    destruct (drained modules null _ σ Hends' Hreach)
      as (Hall & Hnext & Hkept & Htrace).
    fold σ' in Hall, Hnext, Hkept, Htrace. split_and!; [|done..].
    intros this s p Hcall. apply Hall.
    assert (Hreach' : ServiceModule.reachable modules null σ').
    { apply (reachable_step _ _ σ); [done|apply drain_steps]. }
    pose proof (inv_range _ _ (reachable_Inv _ _ _ Hreach')) as Hrange.
    rewrite Forall_forall in Hrange. by apply (Hrange _ (Htrace _ Hcall)).
Qed.

Lemma get_settles_witness :
  let σ := callGets [makesV1; makesV2] [Key2] (initial 0) in
  is_Some (outcomeOf (ServiceModule.drain (moduleOf [makesV1; makesV2]) "null"
                        (jobsLeft σ) σ) 1).
Proof.
  intros σ.
  destruct (get_settles nat string string (moduleOf [makesV1; makesV2]) "null" σ)
    as (_ & _ & _ & Hcalls & _).
  - intros this f args w Hf Hargs.
    destruct (scenario_constructors this f args w Hf Hargs) as (w' & o & -> & _).
    by eexists.
  - apply callGets_reachable, reachable_initial.
  - apply (Hcalls 0 2%positive 1). vm_compute. apply list_elem_of_In. simpl. auto.
Defined.

(** X11: in modules made by [from] whose constructors neither throw nor
    call back into the container, a call of [get] for a key that a factory
    of the module provides cannot fail: in no state the program can reach
    is its promise rejected, and once the promise jobs that are left have
    run it is fulfilled. *)
Theorem get_fulfils :
  ∀ (W Value Exn : Type) (modules : module_ref → ServiceModule W Value Exn)
    (null : Value) σ this s p,
    (∀ this, validModule (modules this)) →
    (∀ this f args w, f ∈ factories (modules this) → argumentsFor this f args →
       ∃ w' v, eval (construct f args) w = Some (w', Fulfilled v)) →
    ServiceModule.reachable modules null σ →
    EvGet this s p ∈ trace σ → is_Some (owner modules this s) →
    (∀ e, outcomeOf σ p ≠ Some (Rejected e))
    ∧ ∃ v, outcomeOf (ServiceModule.drain modules null (jobsLeft σ) σ) p
           = Some (Fulfilled v).
Proof.
  intros W Value Exn modules null σ this s p Hvalid Hends.
  apply registered_fulfilled; [|done].
  intros this' f args w Hf Hargs.
  destruct (Hends this' f args w Hf Hargs) as (w' & v & Heval).
  exists w', (Fulfilled v). split; [done|by exists v].
Qed.

Lemma get_fulfils_witness :
  let σ := callGets [makesV1; makesV2] [Key2] (initial 0) in
  ∃ v, outcomeOf (ServiceModule.drain (moduleOf [makesV1; makesV2]) "null"
                    (jobsLeft σ) σ) 1
       = Some (Fulfilled v).
Proof.
  intros σ.
  refine (proj2 (get_fulfils nat string string (moduleOf [makesV1; makesV2])
                   "null" σ 0 2%positive 1 _ _ _ _ _)).
  - apply scenario_valid.
  - intros this f args w Hf Hargs.
    destruct (scenario_constructors this f args w Hf Hargs)
      as (w' & o & Heval & v & ->).
    by exists w', v.
  - apply callGets_reachable, reachable_initial.
  - vm_compute. apply list_elem_of_In. simpl. auto.
  - by eexists.
Defined.

(** X12: when none of the factories that [dispose] selects has a disposer
    (no factory declares the scope given, or the module is empty, or the
    ones selected have none), [dispose] does nothing: the state is as it
    was and nothing is thrown. *)
Theorem dispose_without_disposers :
  ∀ (W Value Exn : Type) (modules : module_ref → ServiceModule W Value Exn)
    this scope_ (σ : Config W Value Exn),
    withDisposer (selectedFor scope_ (factories (modules this))) = [] →
    ServiceModule.dispose modules this scope_ σ = (σ, None).
Proof.
  intros W Value Exn modules this scope_ σ.
  unfold ServiceModule.dispose.
  change (match scope_ with
          | Some s => filter (fun f => scope f = Some s) (factories (modules this))
          | None => factories (modules this)
          end) with (selectedFor scope_ (factories (modules this))).
  generalize (selectedFor scope_ (factories (modules this))).
  intros fs. induction fs as [|f fs IH]; [done|].
  unfold withDisposer. rewrite filter_cons. fold (withDisposer fs).
  destruct (dispose f) as [hook|] eqn:Hhook.
  - by rewrite decide_True by (by eexists).
  - rewrite decide_False by (by intros [? [=]]). intros Hnil. simpl. by apply IH.
Qed.

Lemma dispose_without_disposers_witness :
  ServiceModule.dispose (moduleOf [noDisposer; countingDisposer]) 0 (Some Scope1)
    (initial 0)
  = (initial 0, None).
Proof. apply dispose_without_disposers. by vm_compute. Defined.

(** X13: [getOrNull], from the call to the end, when no constructor calls
    back into the container: once the promise jobs that are left have run,
    the promise of [getOrNull(key)] has settled with the outcome of the call
    of [get(key)] it made, a rejection with a [ServiceFactoryNotFoundError]
    turned into [null]; for a key that no factory of the module provides it
    is fulfilled with [null]. *)
Theorem getOrNull_resolves :
  ∀ (W Value Exn : Type) (modules : module_ref → ServiceModule W Value Exn)
    (null : Value) σ this key p σ1,
    (∀ this f args w, f ∈ factories (modules this) → argumentsFor this f args →
       is_Some (eval (construct f args) w)) →
    ServiceModule.reachable modules null σ →
    ServiceModule.getOrNull modules this key σ = Some (p, σ1) →
    let σ' := ServiceModule.drain modules null (jobsLeft σ1) σ1 in
    ∃ src o, EvGet this (symbol_of key) src ∈ trace σ1
      ∧ outcomeOf σ' src = Some o
      ∧ outcomeOf σ' p = Some (orNull null o)
      ∧ (owner modules this (symbol_of key) = None →
         outcomeOf σ' p = Some (Fulfilled null)).
Proof.
  intros W Value Exn modules null σ this key p σ1 Hends Hreach Hcall σ'.
  assert (Hends' : constructorsEnd modules (fun _ => True)).
  { intros this' f args w Hf Hargs.
    destruct (Hends this' f args w Hf Hargs) as [[w' o] Heval]. by exists w', o. }
  assert (Hreach1 : ServiceModule.reachable modules null σ1).
  { apply (reachable_step _ _ σ); [done|].
    apply rtc_once. by eapply ServiceModule.step_getOrNull. }
  assert (Hshape : ∃ src σ2,
            ServiceModule.get modules this key σ = Some (src, σ2)
            ∧ p = length (tasks σ2)
            ∧ tasks σ1 = tasks σ2 ++ [OrNullAwait src]
            ∧ trace σ1 = trace σ2).
  { unfold ServiceModule.getOrNull in Hcall.
    destruct (ServiceModule.get modules this key σ) as [[src σ2]|]; [|done].
    simpl in Hcall. injection Hcall as <- <-. by exists src, σ2. }
  destruct Hshape as (src & σ2 & Hget & Hpid & Htasks & Htrace).
  assert (Hp : orNullOk null σ1 p src).
  { left. rewrite Htasks, Hpid. by apply list_lookup_middle. }
  apply (steps_orNullOk modules null σ1 σ' p src Hends' Hreach1) in Hp;
    [|apply drain_steps].
  destruct (drained modules null _ σ1 Hends' Hreach1) as (Hall & _ & Hkept & _).
  fold σ' in Hall, Hkept.
  destruct Hp as [Hp|(o & Hsrc & Ho)].
  { destruct (Hall p) as [o Ho]; [by eapply lookup_lt_Some|].
    unfold outcomeOf in Ho. by rewrite Hp in Ho. }
  exists src, o. split_and!; [|done..|].
  { rewrite Htrace. by eapply get__logged. }
  intros Hnone.
  destruct (get_missing modules this key σ Hnone) as (σ3 & Hget' & Hrejected & _).
  rewrite Hget in Hget'. injection Hget' as Hsrc' Hσ3. subst σ3.
  assert (Hsrc1 : outcomeOf σ1 src
                  = Some (Rejected (ServiceModule.notFound key))).
  { rewrite Hsrc'. unfold outcomeOf in *. rewrite Htasks.
    destruct (tasks σ2 !! length (tasks σ)) as [t|] eqn:Ht; [|done].
    by rewrite (lookup_app_l_Some _ _ _ _ Ht). }
  apply Hkept in Hsrc1. rewrite Hsrc in Hsrc1. injection Hsrc1 as ->. done.
Qed.

Lemma getOrNull_resolves_witness :
  let σ1 := match ServiceModule.getOrNull (moduleOf [makesV1]) 0 Key2 (initial 0)
            with Some (_, σ1) => σ1 | None => initial 0 end in
  outcomeOf (ServiceModule.drain (moduleOf [makesV1]) "null" (jobsLeft σ1) σ1) 1
  = Some (Fulfilled "null").
Proof.
  intros σ1.
  destruct (getOrNull_resolves nat string string (moduleOf [makesV1]) "null"
              (initial 0) 0 Key2 1 σ1) as (src & o & _ & _ & _ & Hnull).
  - intros this f args w Hf _. simpl in Hf.
    apply list_elem_of_singleton in Hf as ->. by eexists.
  - apply reachable_initial.
  - by vm_compute.
  - apply Hnull. reflexivity.
Defined.

(** X14: what [get] resolves to, when no constructor calls back into the
    container: in every state the program can reach, the value a call of
    [get] for a key has fulfilled with is a value the module makes for the
    key: the module has a factory for the key, and the value is what its
    constructor returned for arguments in the order of [dependsOn], a
    selector for a selector key and, for a plain key, a value made in the
    same way for that key. *)
Theorem get_value_is_constructed :
  ∀ (W Value Exn : Type) (modules : module_ref → ServiceModule W Value Exn)
    (null : Value) σ this s p v,
    (∀ this f args w, f ∈ factories (modules this) → argumentsFor this f args →
       is_Some (eval (construct f args) w)) →
    ServiceModule.reachable modules null σ →
    EvGet this s p ∈ trace σ → outcomeOf σ p = Some (Fulfilled v) →
    yields modules this s v.
Proof.
  intros W Value Exn modules null σ this s p v Hends Hreach.
  assert (Hends' : constructorsEnd modules (fun _ => True)).
  { intros this' f args w Hf Hargs.
    destruct (Hends this' f args w Hf Hargs) as [[w' o] Heval]. by exists w', o. }
  apply call_yields; [by eapply reachable_Inv|].
  by eapply reachable_constructedOk.
Qed.

Lemma get_value_is_constructed_witness :
  yields (moduleOf [makesV1; makesV2]) 0 2 "v2-v1".
Proof.
  apply (get_value_is_constructed nat string string (moduleOf [makesV1; makesV2])
           "null" (afterGets [makesV1; makesV2] [Key2]) 0 2%positive 1).
  - intros this f args w Hf Hargs.
    destruct (scenario_constructors this f args w Hf Hargs) as (w' & o & -> & _).
    by eexists.
  - apply afterGets_reachable.
  - vm_compute. apply list_elem_of_In. simpl. auto.
  - by vm_compute.
Defined.
